(** * eslint-plugin-tailwind-modifier-groups: parser, grouper, sorter, fixer

    A shallow embedding of the TypeScript sources
      - utils/class-parser.ts   (parseClass, parseClasses, extractModifier)
      - utils/class-grouper.ts  (groupClassesByModifier, hasSplitModifiers, ...)
      - utils/class-sorter.ts   (getModifierPriority, compareModifiers, ...)
      - utils/fix-generator.ts  (generateFunctionCallFix, verifyFixNonDestructive)
      - utils/ast-traverser.ts  (extractArgumentInfo)
      - rules/group-tailwind-modifiers.ts (handleStandardFunctionCall)
      - constants/index.ts      (ModifierPriority, KNOWN_VARIANT_ORDER, patterns)

    JavaScript strings are sequences of UTF-16 code units; they are modelled as
    lists of [N].  JavaScript numbers that the code computes with (indices,
    comparison results) are modelled as [Z].  A [Map] is an association list in
    insertion order, a [Set] a duplicate-free list in insertion order. *)

From Stdlib Require Import List ZArith NArith Bool Lia String Ascii Permutation Sorted.
Import ListNotations.
Local Open Scope Z_scope.

(** ** JavaScript strings *)

Module JsString.

Definition jsstring := list N.

(** [js "hover:"] is the JavaScript string with these (ASCII) characters. *)
Definition js (s : string) : jsstring :=
  List.map N_of_ascii (list_ascii_of_string s).

Definition str_eqb (a b : jsstring) : bool :=
  if list_eq_dec N.eq_dec a b then true else false.

(** Equality of [string | null] values ([===]). *)
Definition opt_eqb (a b : option jsstring) : bool :=
  match a, b with
  | None, None => true
  | Some x, Some y => str_eqb x y
  | _, _ => false
  end.

Definition colon : N := 58.
Definition space : N := 32.
Definition dquote : N := 34.
Definition squote : N := 39.
Definition backslash : N := 92.

(** Truthiness of a string: non-empty. *)
Definition truthy (s : jsstring) : bool :=
  match s with [] => false | _ => true end.

(** [s.length] *)
Definition strLength (s : jsstring) : Z := Z.of_nat (List.length s).

(** [s.slice(start, end)], with negative positions counted from the end. *)
Definition relIndex (len i : Z) : Z :=
  if i <? 0 then Z.max (len + i) 0 else Z.min i len.

Definition slice (s : jsstring) (start end_ : Z) : jsstring :=
  let len := strLength s in
  let from := relIndex len start in
  let to := relIndex len end_ in
  firstn (Z.to_nat (to - from)) (skipn (Z.to_nat from) s).

(** [s.slice(start)] *)
Definition sliceFrom (s : jsstring) (start : Z) : jsstring :=
  slice s start (strLength s).

(** [s.lastIndexOf(c)] for a one-character needle: the greatest position of
    [c], or -1. *)
Fixpoint lastIndexOfFrom (c : N) (s : jsstring) (pos : Z) (found : Z) : Z :=
  match s with
  | [] => found
  | x :: s' => lastIndexOfFrom c s' (pos + 1) (if N.eqb x c then pos else found)
  end.

Definition lastIndexOf (s : jsstring) (c : N) : Z := lastIndexOfFrom c s 0 (-1).

(** [s.includes(c)] for a one-character needle. *)
Definition includes (s : jsstring) (c : N) : bool := existsb (N.eqb c) s.

(** [s.split(c)] for a one-character separator: the fields between the
    occurrences of [c]; the empty string gives one empty field. *)
Fixpoint splitOnFrom (c : N) (cur : jsstring) (s : jsstring) : list jsstring :=
  match s with
  | [] => [cur]
  | x :: s' => if N.eqb x c then cur :: splitOnFrom c [] s'
               else splitOnFrom c (cur ++ [x]) s'
  end.

Definition split (s : jsstring) (c : N) : list jsstring := splitOnFrom c [] s.

(** [parts.join(sep)] *)
Fixpoint join (sep : jsstring) (parts : list jsstring) : jsstring :=
  match parts with
  | [] => []
  | [p] => p
  | p :: rest => p ++ sep ++ join sep rest
  end.

(** [s.startsWith(p)]; also the test of a literal at the start of a regular
    expression. *)
Fixpoint startsWith (s p : jsstring) : bool :=
  match p, s with
  | [], _ => true
  | _ :: _, [] => false
  | y :: p', x :: s' => N.eqb x y && startsWith s' p'
  end.

(** The characters matched by [\s] and removed by [trim]: ECMAScript
    WhiteSpace and LineTerminator. *)
Definition isWhiteSpace (c : N) : bool :=
  ((9 <=? c) && (c <=? 13) || (c =? 32) || (c =? 160) || (c =? 5760)
   || (8192 <=? c) && (c <=? 8202) || (c =? 8232) || (c =? 8233)
   || (c =? 8239) || (c =? 8287) || (c =? 12288) || (c =? 65279))%N.

(** Line terminators, which [.] in a regular expression does not match. *)
Definition isLineTerminator (c : N) : bool :=
  ((c =? 10) || (c =? 13) || (c =? 8232) || (c =? 8233))%N.

Fixpoint dropWhile (p : N -> bool) (s : jsstring) : jsstring :=
  match s with
  | [] => []
  | x :: s' => if p x then dropWhile p s' else s
  end.

Definition trimStart (s : jsstring) : jsstring := dropWhile isWhiteSpace s.
Definition trimEnd (s : jsstring) : jsstring :=
  rev (dropWhile isWhiteSpace (rev s)).

(** [s.trim()] *)
Definition trim (s : jsstring) : jsstring := trimEnd (trimStart s).

(** [s.split(/\s+/)]: the fields between the maximal runs of whitespace.  A
    run at the start or at the end of [s] produces an empty field there.
    [inRun] records that the previous character belonged to a run. *)
Fixpoint splitWsFrom (inRun : bool) (cur : jsstring) (s : jsstring)
  : list jsstring :=
  match s with
  | [] => [cur]
  | x :: s' =>
      if isWhiteSpace x
      then (if inRun then splitWsFrom true [] s'
            else cur :: splitWsFrom true [] s')
      else splitWsFrom false (cur ++ [x]) s'
  end.

Definition splitWs (s : jsstring) : list jsstring := splitWsFrom false [] s.

(** [s.replace(re, r)] where [re] is the global pattern that matches one
    double quote and [r] is a backslash followed by a double quote: a
    backslash is put before every double quote; every other character, a
    backslash included, is copied. *)
Fixpoint escapeQuotes (s : jsstring) : jsstring :=
  match s with
  | [] => []
  | x :: s' => if N.eqb x dquote then backslash :: dquote :: escapeQuotes s'
               else x :: escapeQuotes s'
  end.

(** The template that puts the escaped string between two double quotes. *)
Definition quoted (s : jsstring) : jsstring :=
  dquote :: escapeQuotes s ++ [dquote].

End JsString.

Import JsString.

(** ** utils/class-parser.ts *)

Record ParsedClass := mkParsedClass {
  full : jsstring;
  modifier : option jsstring;
  base : jsstring
}.

Definition parseClass (className : jsstring) : ParsedClass :=
  if negb (truthy className) then
    {| full := []; modifier := None; base := [] |}
  else
    let lastColonIndex := lastIndexOf className colon in
    if lastColonIndex =? -1 then
      {| full := className; modifier := None; base := className |}
    else
      {| full := className;
         modifier := Some (slice className 0 (lastColonIndex + 1));
         base := sliceFrom className (lastColonIndex + 1) |}.

Definition parseClasses (classString : jsstring) : list ParsedClass :=
  if negb (truthy classString) || negb (truthy (trim classString)) then []
  else
    let classes := filter truthy (splitWs (trim classString)) in
    List.map parseClass classes.

Definition extractModifier (className : jsstring) : option jsstring :=
  modifier (parseClass className).


(** ** constants/index.ts *)

Inductive ModifierPriority :=
| BASE | PSEUDO_CLASS | RESPONSIVE | CHAINED | DARK | ARIA_DATA | ARBITRARY
| UNKNOWN.

(** The numeric value of an enum member. *)
Definition priorityValue (p : ModifierPriority) : Z :=
  match p with
  | BASE => 0 | PSEUDO_CLASS => 1 | RESPONSIVE => 2 | CHAINED => 3
  | DARK => 4 | ARIA_DATA => 5 | ARBITRARY => 6 | UNKNOWN => 7
  end.

Definition RESPONSIVE_BREAKPOINTS : list jsstring :=
  [js "sm"; js "md"; js "lg"; js "xl"; js "2xl"].

Definition PSEUDO_CLASS_VARIANTS : list jsstring :=
  [js "focus"; js "focus-within"; js "focus-visible"; js "hover"; js "active";
   js "visited"; js "target"; js "disabled"; js "enabled"; js "checked";
   js "indeterminate"; js "default"; js "required"; js "optional";
   js "placeholder-shown"; js "autofill"; js "read-only"; js "read-write";
   js "empty"; js "only"; js "first"; js "last"; js "odd"; js "even"].

Definition GROUP_PEER_VARIANTS : list jsstring := [js "group"; js "peer"].
Definition HAS_VARIANTS : list jsstring := [js "has"].
Definition SUPPORTS_VARIANTS : list jsstring := [js "supports"].

Definition KNOWN_VARIANT_ORDER : list jsstring :=
  [js ""] ++ PSEUDO_CLASS_VARIANTS ++ GROUP_PEER_VARIANTS ++ HAS_VARIANTS
  ++ SUPPORTS_VARIANTS ++ RESPONSIVE_BREAKPOINTS
  ++ [js "dark";
      js "aria-checked"; js "aria-disabled"; js "aria-expanded";
      js "aria-hidden"; js "aria-invalid"; js "aria-pressed";
      js "aria-readonly"; js "aria-required"; js "aria-selected";
      js "data-"].

(** *** MODIFIER_PATTERNS: each regular expression as the test it performs
    on a string.  All of them are anchored at the start and none has the
    [g] flag, so [test] is a function of the string alone. *)
Module MODIFIER_PATTERNS.

(** [[a-z-]] *)
Definition lowerOrHyphen (c : N) : bool :=
  ((97 <=? c) && (c <=? 122) || (c =? 45))%N.

(** The rest of [s] after the literal prefix [p], when [s] starts with it. *)
Definition afterPrefix (s p : jsstring) : option jsstring :=
  if startsWith s p then Some (skipn (List.length p) s) else None.

(** [[a-z-]*:] at the start of [s]. *)
Fixpoint runThenColon (s : jsstring) : bool :=
  match s with
  | [] => false
  | x :: s' => if N.eqb x colon then true
               else lowerOrHyphen x && runThenColon s'
  end.

(** [[a-z-]+:] at the start of [s]. *)
Definition plusThenColon (s : jsstring) : bool :=
  match s with
  | [] => false
  | x :: s' => lowerOrHyphen x && runThenColon s'
  end.

(** [.*\]:] at the start of [s], where [.] is any character but a line
    terminator. *)
Fixpoint dotsThenBracketColon (s : jsstring) : bool :=
  match s with
  | [] => false
  | x :: s' =>
      (N.eqb x 93 && match s' with y :: _ => N.eqb y colon | [] => false end)
      || (negb (isLineTerminator x) && dotsThenBracketColon s')
  end.

(** [/^\[.+\]:/] *)
Definition ARBITRARY (s : jsstring) : bool :=
  match s with
  | x :: y :: s' =>
      N.eqb x 91 && negb (isLineTerminator y) && dotsThenBracketColon s'
  | _ => false
  end.

(** [/^aria-[a-z-]+:/] *)
Definition ARIA (s : jsstring) : bool :=
  match afterPrefix s (js "aria-") with
  | Some r => plusThenColon r
  | None => false
  end.

(** [/^data-[a-z-]+:/] *)
Definition DATA (s : jsstring) : bool :=
  match afterPrefix s (js "data-") with
  | Some r => plusThenColon r
  | None => false
  end.

(** [/^dark:/] *)
Definition DARK (s : jsstring) : bool := startsWith s (js "dark:").

(** [/^(sm|md|lg|xl|2xl):/] *)
Definition RESPONSIVE (s : jsstring) : bool :=
  existsb (fun alt => startsWith s (alt ++ [colon])) RESPONSIVE_BREAKPOINTS.

(** [/^(focus|focus-within|...|even):/] *)
Definition PSEUDO_CLASS (s : jsstring) : bool :=
  existsb (fun alt => startsWith s (alt ++ [colon])) PSEUDO_CLASS_VARIANTS.

(** [/^(group|peer)(-[a-z-]+)?:/] *)
Definition GROUP_PEER (s : jsstring) : bool :=
  existsb (fun alt =>
             match afterPrefix s alt with
             | Some (x :: r) => N.eqb x colon || (N.eqb x 45 && plusThenColon r)
             | _ => false
             end) GROUP_PEER_VARIANTS.

(** [/^has-([a-z-]+)?:/] *)
Definition HAS (s : jsstring) : bool :=
  match afterPrefix s (js "has-") with
  | Some r => runThenColon r
  | None => false
  end.

(** [/^supports-([a-z-]+)?:/] *)
Definition SUPPORTS (s : jsstring) : bool :=
  match afterPrefix s (js "supports-") with
  | Some r => runThenColon r
  | None => false
  end.

End MODIFIER_PATTERNS.

(** ** Arrays, Maps and Sets of the host language *)

(** [arr.indexOf(x)] on an array of strings: the first position, or -1. *)
Fixpoint indexOfFrom (l : list jsstring) (x : jsstring) (pos : Z) : Z :=
  match l with
  | [] => -1
  | y :: l' => if str_eqb y x then pos else indexOfFrom l' x (pos + 1)
  end.

Definition indexOf (l : list jsstring) (x : jsstring) : Z := indexOfFrom l x 0.

(** [Array.prototype.sort(cmp)].  ECMAScript requires the sort to be stable;
    for a consistent comparator the stable result is unique, and it is the
    one this insertion sort computes: an element goes before the first later
    element it does not compare greater than. *)
Fixpoint sortInsert {A : Type} (cmp : A -> A -> Z) (x : A) (l : list A)
  : list A :=
  match l with
  | [] => [x]
  | y :: l' => if cmp x y <=? 0 then x :: l else y :: sortInsert cmp x l'
  end.

Fixpoint arraySort {A : Type} (cmp : A -> A -> Z) (l : list A) : list A :=
  match l with
  | [] => []
  | x :: l' => sortInsert cmp x (arraySort cmp l')
  end.

(** [Map<string | null, V>]: entries in insertion order, one per key. *)
Definition JsMap (V : Type) := list (option jsstring * V).

Definition mapHas {V : Type} (m : JsMap V) (k : option jsstring) : bool :=
  existsb (fun e => opt_eqb (fst e) k) m.

Fixpoint mapGet {V : Type} (m : JsMap V) (k : option jsstring) : option V :=
  match m with
  | [] => None
  | (k', v) :: m' => if opt_eqb k' k then Some v else mapGet m' k
  end.

(** [m.set(k, v)]: replaces the value of a present key in place, appends an
    absent key. *)
Fixpoint mapSet {V : Type} (m : JsMap V) (k : option jsstring) (v : V)
  : JsMap V :=
  match m with
  | [] => [(k, v)]
  | (k', v') :: m' =>
      if opt_eqb k' k then (k', v) :: m' else (k', v') :: mapSet m' k v
  end.

(** The value stored under [k] is an object (an array, a Set) that the code
    fetches with [get] and mutates in place: the entry under [k] changes and
    nothing else does. *)
Fixpoint mapMutate {V : Type} (m : JsMap V) (k : option jsstring)
  (f : V -> V) : JsMap V :=
  match m with
  | [] => []
  | (k', v) :: m' =>
      if opt_eqb k' k then (k', f v) :: m' else (k', v) :: mapMutate m' k f
  end.

(** [Set<T>.add] and [has], given the equality test of [T]. *)
Definition setHas {T : Type} (eq : T -> T -> bool) (s : list T) (x : T)
  : bool := existsb (eq x) s.

Definition setAdd {T : Type} (eq : T -> T -> bool) (s : list T) (x : T)
  : list T := if setHas eq s x then s else s ++ [x].

(** ** utils/class-grouper.ts *)

Module ModifierGroup.
Record t := mk {
  modifier : option jsstring;
  classes : list jsstring
}.
End ModifierGroup.

(** The body of the loops of [groupClassesByModifier] and
    [createModifierGroups]: make the group of [modifier] if it is absent, then
    push [className] on it. *)
Definition pushToGroup (groups : JsMap (list jsstring))
  (modifier : option jsstring) (className : jsstring)
  : JsMap (list jsstring) :=
  let groups :=
    if negb (mapHas groups modifier) then mapSet groups modifier []
    else groups in
  mapMutate groups modifier (fun group => group ++ [className]).

Definition groupClassesByModifier (classes : list jsstring)
  : JsMap (list jsstring) :=
  fold_left
    (fun groups className =>
       pushToGroup groups (modifier (parseClass className)) className)
    classes [].

Definition createModifierGroups (parsedClasses : list ParsedClass)
  : list ModifierGroup.t :=
  let groups :=
    fold_left
      (fun groups parsed => pushToGroup groups (modifier parsed) (full parsed))
      parsedClasses [] in
  List.map (fun e => ModifierGroup.mk (fst e) (snd e)) groups.

Definition groupClassString (classString : jsstring) : list ModifierGroup.t :=
  createModifierGroups (parseClasses classString).

Definition hasMultipleModifierGroups (classString : jsstring) : bool :=
  (1 <? List.length (groupClassString classString))%nat.

Definition isNull (m : option jsstring) : bool :=
  match m with None => true | Some _ => false end.

Definition mixesBaseAndModifiers (classString : jsstring) : bool :=
  let groups := groupClassString classString in
  let hasBase := existsb (fun g => isNull (ModifierGroup.modifier g)) groups in
  let hasModifiers :=
    existsb (fun g => negb (isNull (ModifierGroup.modifier g))) groups in
  hasBase && hasModifiers.

(** The first loop of [hasSplitModifiers] and of [getSplitModifier]: for
    every modifier key, the set of indices of the strings it occurs in.  [i]
    is the index of the first string of [classStrings]. *)
Fixpoint collectSources (classStrings : list jsstring) (i : nat)
  (modifierToSources : JsMap (list nat)) : JsMap (list nat) :=
  match classStrings with
  | [] => modifierToSources
  | classString :: rest =>
      let groups := groupClassString classString in
      let m :=
        fold_left
          (fun m group =>
             let k := ModifierGroup.modifier group in
             let m := if negb (mapHas m k) then mapSet m k [] else m in
             mapMutate m k (fun sources => setAdd Nat.eqb sources i))
          groups modifierToSources in
      collectSources rest (S i) m
  end.

Definition hasSplitModifiers (classStrings : list jsstring) : bool :=
  let modifierToSources := collectSources classStrings 0 [] in
  existsb (fun e => (1 <? List.length (snd e))%nat) modifierToSources.

Definition getSplitModifier (classStrings : list jsstring)
  : option jsstring :=
  let modifierToSources := collectSources classStrings 0 [] in
  match
    find (fun e => (1 <? List.length (snd e))%nat && negb (isNull (fst e)))
         modifierToSources
  with
  | Some e => fst e
  | None => None
  end.

Definition getFirstTwoModifiers (classString : jsstring)
  : option (jsstring * jsstring) :=
  let groups := groupClassString classString in
  let modifiers :=
    firstn 2
      (flat_map (fun g => match ModifierGroup.modifier g with
                          | Some m => [m]
                          | None => []
                          end) groups) in
  match modifiers with
  | m1 :: m2 :: _ => Some (m1, m2)
  | _ => None
  end.

Definition getFirstModifier (classString : jsstring) : option jsstring :=
  match
    find (fun g => negb (isNull (ModifierGroup.modifier g)))
         (groupClassString classString)
  with
  | Some g => ModifierGroup.modifier g
  | None => None
  end.

(** ** utils/class-sorter.ts *)

Definition getModifierPriority (modifier : option jsstring)
  : ModifierPriority :=
  match modifier with
  | None => BASE
  | Some modifier =>
      if MODIFIER_PATTERNS.ARBITRARY modifier then ARBITRARY
      else
        let colonCount := List.length (filter (N.eqb colon) modifier) in
        let parts := filter truthy (split modifier colon) in
        let hasResponsive :=
          existsb (fun part => MODIFIER_PATTERNS.RESPONSIVE (part ++ [colon]))
                  parts in
        let hasPseudoClass :=
          existsb (fun part => MODIFIER_PATTERNS.PSEUDO_CLASS (part ++ [colon]))
                  parts in
        if (1 <? colonCount)%nat && (hasResponsive && hasPseudoClass)
        then CHAINED
        else if MODIFIER_PATTERNS.DARK modifier then DARK
        else if MODIFIER_PATTERNS.ARIA modifier
                || MODIFIER_PATTERNS.DATA modifier then ARIA_DATA
        else if MODIFIER_PATTERNS.RESPONSIVE modifier then RESPONSIVE
        else if MODIFIER_PATTERNS.GROUP_PEER modifier then PSEUDO_CLASS
        else if MODIFIER_PATTERNS.HAS modifier then PSEUDO_CLASS
        else if MODIFIER_PATTERNS.SUPPORTS modifier then PSEUDO_CLASS
        else if MODIFIER_PATTERNS.PSEUDO_CLASS modifier then PSEUDO_CLASS
        else UNKNOWN
  end.

(** [s.charCodeAt(0)].  The code calls it on a string it has checked to be
    non-empty; on the empty string JavaScript gives NaN, here 0. *)
Definition charCodeAt0 (s : jsstring) : Z :=
  match s with
  | [] => 0
  | x :: _ => Z.of_N x
  end.

Definition getModifierSortOrder (modifier : option jsstring) : Z :=
  match modifier with
  | None => 0
  | Some modifier =>
      if strLength modifier =? 0 then 0
      else
        let modifierWithoutColon := slice modifier 0 (-1) in
        if strLength modifierWithoutColon =? 0 then 0
        else
          let knownIndex := indexOf KNOWN_VARIANT_ORDER modifierWithoutColon in
          if negb (knownIndex =? -1) then knownIndex
          else
            let firstPart := hd [] (split modifier colon) in
            let firstPartIndex := indexOf KNOWN_VARIANT_ORDER firstPart in
            if includes modifier colon && negb (firstPartIndex =? -1)
            then firstPartIndex + 1000
            else 10000 + charCodeAt0 modifierWithoutColon
  end.

(** [a ?? empty] *)
Definition orEmpty (a : option jsstring) : jsstring :=
  match a with Some s => s | None => [] end.

Section Sorter.

(** [String.prototype.localeCompare]: the host's collation.  It is not part
    of the repository; the sorter is defined over it. *)
Variable localeCompare : jsstring -> jsstring -> Z.

Definition compareModifiers (a b : option jsstring) : Z :=
  let priorityA := getModifierPriority a in
  let priorityB := getModifierPriority b in
  if negb (priorityValue priorityA =? priorityValue priorityB)
  then priorityValue priorityA - priorityValue priorityB
  else
    let orderA := getModifierSortOrder a in
    let orderB := getModifierSortOrder b in
    if negb (orderA =? orderB) then orderA - orderB
    else localeCompare (orEmpty a) (orEmpty b).

Definition sortModifierGroups (groups : list ModifierGroup.t)
  : list ModifierGroup.t :=
  arraySort
    (fun a b =>
       compareModifiers (ModifierGroup.modifier a) (ModifierGroup.modifier b))
    groups.

Definition sortClassesInGroup (classes : list jsstring) : list jsstring :=
  arraySort localeCompare classes.

Definition sortClassesByModifierGroups (classes : list jsstring)
  : list ModifierGroup.t :=
  let groupsMap := groupClassesByModifier classes in
  let groups :=
    List.map
      (fun e => ModifierGroup.mk (fst e) (sortClassesInGroup (snd e)))
      groupsMap in
  sortModifierGroups groups.

End Sorter.

(** ** The syntax tree, as far as the fixer and the rule look at it *)

Inductive NodeType :=
| Literal (value : option jsstring)
    (** [Some v] when [typeof value === "string"] *)
| TemplateLiteral (expressions : nat)
    (** the number of interpolated expressions *)
| OtherNode.

Record Node := mkNode {
  nodeType : NodeType;
  sourceText : jsstring;          (** [context.getSourceCode().getText(node)] *)
  range : option (Z * Z)
}.

Record CallExpressionNode := mkCall {
  arguments : list Node
}.

(** ** utils/ast-traverser.ts *)

Record ArgumentInfo := mkArgumentInfo {
  index : nat;
  isStringLiteral : bool;
  classString : option jsstring;
  node : Node
}.

Definition argumentInfoOf (i : nat) (arg : Node) : ArgumentInfo :=
  match nodeType arg with
  | Literal (Some value) => mkArgumentInfo i true (Some value) arg
  | TemplateLiteral O =>
      mkArgumentInfo i true (Some (slice (sourceText arg) 1 (-1))) arg
  | _ => mkArgumentInfo i false None arg
  end.

Fixpoint extractArgumentInfoFrom (i : nat) (args : list Node)
  : list ArgumentInfo :=
  match args with
  | [] => []
  | arg :: rest => argumentInfoOf i arg :: extractArgumentInfoFrom (S i) rest
  end.

Definition extractArgumentInfo (node : CallExpressionNode)
  : list ArgumentInfo :=
  extractArgumentInfoFrom 0 (arguments node).

(** [info.isStringLiteral && info.classString], as a condition. *)
Definition hasClassString (info : ArgumentInfo) : bool :=
  isStringLiteral info
  && match classString info with Some s => truthy s | None => false end.

(** ** utils/fix-generator.ts *)

Record Fix := mkFix {
  fixRange : Z * Z;
  text : jsstring
}.

Definition arraysEqual (a b : list jsstring) : bool :=
  (List.length a =? List.length b)%nat
  && forallb (fun p => str_eqb (fst p) (snd p)) (combine a b).

Section FixGenerator.

Variable localeCompare : jsstring -> jsstring -> Z.

Definition processClassesIntoArguments (classString : jsstring)
  : option (list jsstring) :=
  if negb (truthy classString) || (strLength (trim classString) =? 0) then None
  else
    let parsedClasses := List.map full (parseClasses classString) in
    if (List.length parsedClasses =? 0)%nat then None
    else
      let groups := sortClassesByModifierGroups localeCompare parsedClasses in
      if (List.length groups =? 0)%nat then None
      else
        let arguments_ :=
          flat_map
            (fun group =>
               let groupString :=
                 join [space]
                   (sortClassesInGroup localeCompare
                      (ModifierGroup.classes group)) in
               if truthy groupString then [quoted groupString] else [])
            (filter
               (fun group =>
                  (0 <? List.length (ModifierGroup.classes group))%nat)
               groups) in
        if (List.length arguments_ =? 0)%nat then None else Some arguments_.

(** The classes of all string literal arguments, in order. *)
Definition collectAllClasses (argumentInfo : list ArgumentInfo)
  : list jsstring :=
  flat_map
    (fun info =>
       if hasClassString info
       then List.map full (parseClasses (orEmpty (classString info)))
       else [])
    argumentInfo.

(** One string per non-empty group: its sorted classes joined by a space. *)
Definition newStringArgumentsOf (groups : list ModifierGroup.t)
  : list jsstring :=
  flat_map
    (fun group =>
       match ModifierGroup.classes group with
       | [] => []
       | _ =>
           let groupString :=
             join [space]
               (sortClassesInGroup localeCompare
                  (ModifierGroup.classes group)) in
           if truthy groupString then [groupString] else []
       end)
    groups.

(** The loop that builds [allArguments]; the state is the array and
    [hasAddedNewStrings].  ([newStringArgIndex] is 0 before the new strings
    are added and [newStringArguments.length] after.) *)
Definition addArgument (newStringArguments : list jsstring)
  (st : list jsstring * bool) (info : ArgumentInfo) : list jsstring * bool :=
  let (allArguments, hasAddedNewStrings) := st in
  if isStringLiteral info then
    if negb hasAddedNewStrings
    then (allArguments ++ List.map quoted newStringArguments, true)
    else (allArguments, hasAddedNewStrings)
  else (allArguments ++ [sourceText (node info)], hasAddedNewStrings).

Definition buildAllArguments (argumentInfo : list ArgumentInfo)
  (newStringArguments : list jsstring) : list jsstring :=
  let (allArguments, hasAddedNewStrings) :=
    fold_left (addArgument newStringArguments) argumentInfo ([], false) in
  if negb hasAddedNewStrings
     && (0 <? List.length newStringArguments)%nat
  then allArguments ++ List.map quoted newStringArguments
  else allArguments.

Definition generateFunctionCallFix (node : CallExpressionNode)
  (argumentInfo : list ArgumentInfo) (preferredFunction : jsstring)
  : option Fix :=
  let allClasses := collectAllClasses argumentInfo in
  if (List.length allClasses =? 0)%nat then None
  else
    let groups := sortClassesByModifierGroups localeCompare allClasses in
    if (List.length groups =? 0)%nat then None
    else
      let newStringArguments := newStringArgumentsOf groups in
      if (List.length newStringArguments =? 0)%nat then None
      else
        let allArguments := buildAllArguments argumentInfo newStringArguments in
        let originalStringArgs :=
          List.map (fun info => orEmpty (classString info))
                   (filter hasClassString argumentInfo) in
        if arraysEqual newStringArguments originalStringArgs then None
        else
          let start :=
            match nth_error (arguments node) 0 with
            | Some n => option_map fst (range n)
            | None => None
            end in
          let end_ :=
            match nth_error (arguments node)
                    (List.length (arguments node) - 1) with
            | Some n => option_map snd (range n)
            | None => None
            end in
          match start, end_ with
          | Some start, Some end_ =>
              Some {| fixRange := (start, end_);
                      text := join (js ", ") allArguments |}
          | _, _ => None
          end.

End FixGenerator.

(** The matches of the global pattern of [verifyFixNonDestructive] (a quote
    character, one or more characters that are not quotes, a quote character)
    in [s], left to right: the captured groups.  [opened] is [Some run] when
    the candidate match has an opening quote followed by [run].  A quote
    found after an empty run cannot close the candidate and opens the next
    one; the quote that closes a match is consumed by it. *)
Definition isQuote (c : N) : bool := N.eqb c dquote || N.eqb c squote.

Fixpoint scanQuoted (opened : option jsstring) (s : jsstring)
  : list jsstring :=
  match s with
  | [] => []
  | x :: s' =>
      match opened with
      | None => if isQuote x then scanQuoted (Some []) s'
                else scanQuoted None s'
      | Some run =>
          if isQuote x then
            match run with
            | [] => scanQuoted (Some []) s'
            | _ => run :: scanQuoted None s'
            end
          else scanQuoted (Some (run ++ [x])) s'
      end
  end.

Definition classPatternMatches (outputCode : jsstring) : list jsstring :=
  scanQuoted None outputCode.

(** [for (cs of strings) for (p of parseClasses(cs)) set.add(p.full)] *)
Definition addAllClasses (set : list jsstring) (classStrings : list jsstring)
  : list jsstring :=
  fold_left
    (fun set classString =>
       fold_left (fun set p => setAdd str_eqb set (full p))
                 (parseClasses classString) set)
    classStrings set.

Definition verifyFixNonDestructive (inputClasses : list jsstring)
  (outputCode : jsstring) : bool :=
  let inputClassSet := addAllClasses [] inputClasses in
  let outputClassSet := addAllClasses [] (classPatternMatches outputCode) in
  if negb (forallb (fun className => setHas str_eqb outputClassSet className)
                   inputClassSet)
  then false
  else if negb (forallb (fun className => setHas str_eqb inputClassSet className)
                        outputClassSet)
  then false
  else true.

(** ** rules/group-tailwind-modifiers.ts *)

Inductive MessageId :=
| splitModifier | multipleModifierGroups | mixedBaseAndModifiers
| complexProperty | complexJSXAttribute.

(** The node a report is attached to: the call, or its [i]-th argument. *)
Inductive ReportNode :=
| CallNode
| ArgumentNode (i : nat).

Record Report := mkReport {
  reportNode : ReportNode;
  messageId : MessageId;
  data : list (jsstring * jsstring);
  fix_ : option Fix                  (** what the [fix] callback computes *)
}.

Section Rule.

Variable localeCompare : jsstring -> jsstring -> Z.

(** [node.arguments[i] || node] *)
Definition argumentOrCall (node : CallExpressionNode) (i : nat) : ReportNode :=
  match nth_error (arguments node) i with
  | Some _ => ArgumentNode i
  | None => CallNode
  end.

(** The loop over the arguments (priorities 2 and 3); [i] is the position of
    the first element of [infos] in [argumentInfo].  The counter
    [stringArgIndex] of the source is never read and is left out. *)
Fixpoint checkArguments (node : CallExpressionNode)
  (argumentInfo : list ArgumentInfo) (preferredFunction : jsstring)
  (infos : list ArgumentInfo) (i : nat) : option Report :=
  match infos with
  | [] => None
  | info :: rest =>
      if negb (hasClassString info)
      then checkArguments node argumentInfo preferredFunction rest (S i)
      else
        let classString := orEmpty (classString info) in
        if mixesBaseAndModifiers classString then
          Some {| reportNode := argumentOrCall node i;
                  messageId := mixedBaseAndModifiers;
                  data := [(js "modifier",
                            match getFirstModifier classString with
                            | Some m => m
                            | None => js "modifier classes"
                            end)];
                  fix_ := generateFunctionCallFix localeCompare node
                            argumentInfo preferredFunction |}
        else if hasMultipleModifierGroups classString then
          Some {| reportNode := argumentOrCall node i;
                  messageId := multipleModifierGroups;
                  data := [(js "modifier1",
                            match getFirstTwoModifiers classString with
                            | Some (m1, _) => m1
                            | None => js "different modifiers"
                            end);
                           (js "modifier2",
                            match getFirstTwoModifiers classString with
                            | Some (_, m2) => m2
                            | None => js "in same argument"
                            end)];
                  fix_ := generateFunctionCallFix localeCompare node
                            argumentInfo preferredFunction |}
        else checkArguments node argumentInfo preferredFunction rest (S i)
  end.

(** The report of [handleStandardFunctionCall], if it makes one (it makes at
    most one: every [context.report] is followed by [return]). *)
Definition handleStandardFunctionCall (node : CallExpressionNode)
  (preferredFunction : jsstring) : option Report :=
  let argumentInfo := extractArgumentInfo node in
  let classStrings :=
    List.map (fun info => orEmpty (classString info))
             (filter hasClassString argumentInfo) in
  if (List.length classStrings =? 0)%nat then None
  else if hasSplitModifiers classStrings then
    Some {| reportNode := CallNode;
            messageId := splitModifier;
            data := [(js "modifier",
                      match getSplitModifier classStrings with
                      | Some m => m
                      | None => js "same modifier"
                      end)];
            fix_ := generateFunctionCallFix localeCompare node argumentInfo
                      preferredFunction |}
  else checkArguments node argumentInfo preferredFunction argumentInfo 0.

End Rule.

(** * Vocabulary of the statements *)

(** ** A collation to run the sorter with

    The lexicographic order of the code units: one collation among those
    that the theorems about [localeCompare] range over, and the one at which
    they are exercised. *)
Fixpoint codeUnitCompare (a b : jsstring) : Z :=
  match a, b with
  | [], [] => 0
  | [], _ :: _ => -1
  | _ :: _, [] => 1
  | x :: a', y :: b' =>
      if (x <? y)%N then -1
      else if (y <? x)%N then 1
      else codeUnitCompare a' b'
  end.

(** ** Blank literals *)

(** The literal arguments of [argumentInfo] are all empty or
    whitespace-only. *)
Definition allLiteralsBlank (argumentInfo : list ArgumentInfo) : Prop :=
  forall info s,
    In info argumentInfo -> isStringLiteral info = true ->
    classString info = Some s -> forallb isWhiteSpace s = true.

(** A call of [cn] with an empty literal, a literal of three spaces and an
    identifier: both literals are blank. *)
Definition blankCall : CallExpressionNode :=
  mkCall [mkNode (Literal (Some [])) [dquote; dquote] (Some (3, 5));
          mkNode (Literal (Some (js "   "))) (dquote :: js "   " ++ [dquote])
                 (Some (7, 12));
          mkNode OtherNode (js "className") (Some (14, 23))].

(** ** Predicates used to state the priority of the checks *)

(** The per-slot checks find nothing in [info]: it is skipped, or neither
    predicate holds of its class string. *)
Definition slotClean (info : ArgumentInfo) : Prop :=
  hasClassString info = true ->
  mixesBaseAndModifiers (orEmpty (classString info)) = false
  /\ hasMultipleModifierGroups (orEmpty (classString info)) = false.

(** [info] is at position [i] of [infos], it is a checked slot, and the
    slots before it are clean. *)
Definition firstCheckedAt (infos : list ArgumentInfo) (i : nat)
  (info : ArgumentInfo) : Prop :=
  nth_error infos i = Some info
  /\ hasClassString info = true
  /\ forall j info', (j < i)%nat -> nth_error infos j = Some info' ->
                     slotClean info'.

(** The message that the per-slot checks give for a class string in which
    at least one predicate holds. *)
Definition slotVerdict (classString : jsstring) (m : MessageId) : Prop :=
  if mixesBaseAndModifiers classString then m = mixedBaseAndModifiers
  else hasMultipleModifierGroups classString = true
       /\ m = multipleModifierGroups.

(** ** The class names of a list of class strings

    Every class name that [parseClasses] finds in the strings, in order and
    with repetitions: what the loops of [verifyFixNonDestructive] add to a
    set, one by one. *)
Definition classNamesOf (classStrings : list jsstring) : list jsstring :=
  flat_map (fun classString => List.map full (parseClasses classString))
           classStrings.

(** The text [cn("p-4")]. *)
Definition cnOfP4 : jsstring :=
  js "cn(" ++ [dquote] ++ js "p-4" ++ [dquote] ++ js ")".

(** ** Sorted arrays *)

(** [a] may stand before [b] in an array sorted by [cmp]. *)
Definition notAfter {A : Type} (cmp : A -> A -> Z) (a b : A) : Prop :=
  cmp a b <= 0.

(** ** Flattening and the invariant of the grouping *)

(** The classes of the groups, group after group, as one list. *)
Definition flattenGroups (groups : list ModifierGroup.t) : list jsstring :=
  flat_map ModifierGroup.classes groups.

(** An entry of the grouping map is well formed: its array is not empty and
    each class in it parses to the modifier that is the key. *)
Definition entryOk (e : option jsstring * list jsstring) : Prop :=
  snd e <> []
  /\ Forall (fun className => modifier (parseClass className) = fst e) (snd e).

(** The entry of a group. *)
Definition entryOf (g : ModifierGroup.t) : option jsstring * list jsstring :=
  (ModifierGroup.modifier g, ModifierGroup.classes g).

(** What holds of every group of a canonical result: its entry is well
    formed and its classes are sorted by the collation. *)
Definition canonicalGroup (localeCompare : jsstring -> jsstring -> Z)
  (g : ModifierGroup.t) : Prop :=
  entryOk (entryOf g)
  /\ Sorted (notAfter localeCompare) (ModifierGroup.classes g).

(** ** Reading a string literal of the host language

    The replacement text of a fix is source code.  [stringLiteralValue] is
    the string that a double-quoted string literal denotes (the SV of an
    ECMAScript StringLiteral), for literals whose escape sequences are the
    single-character ones; it is [None] on a text that is not such a
    literal (no closing quote at the end, a line feed or carriage return
    inside, or another kind of escape sequence). *)
Definition singleCharacterEscape (c : N) : option N :=
  if (c =? 34)%N then Some 34%N          (* double quote *)
  else if (c =? 39)%N then Some 39%N     (* single quote *)
  else if (c =? 92)%N then Some 92%N     (* backslash *)
  else if (c =? 98)%N then Some 8%N      (* b: backspace *)
  else if (c =? 102)%N then Some 12%N    (* f: form feed *)
  else if (c =? 110)%N then Some 10%N    (* n: line feed *)
  else if (c =? 114)%N then Some 13%N    (* r: carriage return *)
  else if (c =? 116)%N then Some 9%N     (* t: tab *)
  else if (c =? 118)%N then Some 11%N    (* v: vertical tab *)
  else None.

Fixpoint literalBodyValue (s : jsstring) : option jsstring :=
  match s with
  | [] => None
  | c :: s' =>
      if N.eqb c dquote then
        match s' with [] => Some [] | _ :: _ => None end
      else if N.eqb c backslash then
        match s' with
        | e :: s'' =>
            match singleCharacterEscape e, literalBodyValue s'' with
            | Some v, Some rest => Some (v :: rest)
            | _, _ => None
            end
        | [] => None
        end
      else if (c =? 10)%N || (c =? 13)%N then None
      else option_map (cons c) (literalBodyValue s')
  end.

Definition stringLiteralValue (s : jsstring) : option jsstring :=
  match s with
  | c :: s' => if N.eqb c dquote then literalBodyValue s' else None
  | [] => None
  end.

(** ** Tokens *)

(** A class token: a non-empty string without whitespace. *)
Definition isToken (t : jsstring) : Prop :=
  t <> [] /\ Forall (fun c => isWhiteSpace c = false) t.

(** The contents of the string literal arguments that the fixer and the rule
    look at. *)
Definition literalContents (argumentInfo : list ArgumentInfo)
  : list jsstring :=
  List.map (fun info => orEmpty (classString info))
           (filter hasClassString argumentInfo).

(** The source texts of the arguments that are not string literals. *)
Definition preservedTexts (argumentInfo : list ArgumentInfo)
  : list jsstring :=
  List.map (fun info => sourceText (node info))
           (filter (fun info => negb (isStringLiteral info)) argumentInfo).

(** The call of [cn] on one string literal whose value holds the classes
    text-sm and before:content-['\f101'], the second with a backslash in it
    (in the source the literal spells the backslash twice). *)
Definition iconClass : jsstring := js "before:content-['\f101']".

Definition iconCall : CallExpressionNode :=
  mkCall
    [mkNode (Literal (Some (js "text-sm " ++ iconClass)))
            ([dquote] ++ js "text-sm before:content-['\\f101']" ++ [dquote])
            (Some (3, 38))].

(** ** Calls used in the scenarios *)

(** A string literal argument with the given value, and an identifier. *)
Definition stringLiteral (value : jsstring) (start end_ : Z) : Node :=
  mkNode (Literal (Some value)) ([dquote] ++ value ++ [dquote])
         (Some (start, end_)).

Definition identifier (name : jsstring) (start end_ : Z) : Node :=
  mkNode OtherNode name (Some (start, end_)).

(** * Vocabulary of the further properties *)

(** The characters of a string that are not whitespace. *)
Definition withoutWhiteSpace (s : jsstring) : jsstring :=
  filter (fun c => negb (isWhiteSpace c)) s.

(** The distinct elements of a list of modifiers, in the order in which
    they are first seen; [seen] holds those met before. *)
Fixpoint firstSeenFrom (seen keys : list (option jsstring))
  : list (option jsstring) :=
  match keys with
  | [] => []
  | k :: rest =>
      if existsb (opt_eqb k) seen then firstSeenFrom seen rest
      else k :: firstSeenFrom (seen ++ [k]) rest
  end.

Definition firstSeen (keys : list (option jsstring))
  : list (option jsstring) := firstSeenFrom [] keys.

(** The modifier that a class name parses to. *)
Definition modifierOf (className : jsstring) : option jsstring :=
  modifier (parseClass className).

(** The classes of a list that parse to the modifier [k], in their order. *)
Definition classesOfModifier (k : option jsstring) (classes : list jsstring)
  : list jsstring :=
  filter (fun className => opt_eqb (modifierOf className) k) classes.

(** The modifiers of the classes of a class string. *)
Definition modifiersIn (classString : jsstring) : list (option jsstring) :=
  List.map modifier (parseClasses classString).

(** The state of the grouping loop after the classes [done]: the keys are
    distinct, each key holds the classes of [done] that parse to it, and
    every modifier met is a key. *)
Definition groupingState (m : JsMap (list jsstring)) (done : list jsstring)
  : Prop :=
  NoDup (List.map fst m)
  /\ Forall (fun e => snd e = classesOfModifier (fst e) done) m
  /\ (forall c, In c done -> In (modifierOf c) (List.map fst m)).

(** The modifier [k] (null included) is the modifier of some class of the
    string at position [j] of [classStrings]. *)
Definition occursIn (classStrings : list jsstring) (k : option jsstring)
  (j : nat) : Prop :=
  exists s, nth_error classStrings j = Some s /\ In k (modifiersIn s).

(** The body of the inner loop of [hasSplitModifiers] and
    [getSplitModifier], for the group key [k] of the string at index [i]. *)
Definition addSource (i : nat) (m : JsMap (list nat)) (k : option jsstring)
  : JsMap (list nat) :=
  mapMutate (if negb (mapHas m k) then mapSet m k [] else m) k
            (fun sources => setAdd Nat.eqb sources i).

(** The state of that loop at index [i], after the strings [done] and the
    group keys [ks] of the current string: distinct keys, and under each key
    the indices of the strings in which it occurs. *)
Definition sourcesState (m : JsMap (list nat)) (done : list jsstring)
  (i : nat) (ks : list (option jsstring)) : Prop :=
  NoDup (List.map fst m)
  /\ forall k,
       match mapGet m k with
       | Some sources =>
           NoDup sources
           /\ forall j, In j sources
                        <-> (occursIn done k j \/ (j = i /\ In k ks))
       | None => (forall j, ~ occursIn done k j) /\ ~ In k ks
       end.

(** The tier of a group, as a number. *)
Definition groupPriority (g : ModifierGroup.t) : Z :=
  priorityValue (getModifierPriority (ModifierGroup.modifier g)).

(** Every class of a group parses to the modifier of the group. *)
Definition groupHoldsOwnClasses (g : ModifierGroup.t) : Prop :=
  ModifierGroup.classes g <> []
  /\ Forall (fun className => modifierOf className = ModifierGroup.modifier g)
            (ModifierGroup.classes g).

(** ** utils/ast-traverser.ts: extractStringArguments *)

Definition extractStringArguments (node : CallExpressionNode)
  : list jsstring :=
  flat_map
    (fun arg =>
       match nodeType arg with
       | Literal (Some value) => [value]
       | TemplateLiteral expressions =>
           if (expressions =? 0)%nat then [slice (sourceText arg) 1 (-1)]
           else []
       | _ => []
       end)
    (arguments node).

(** A string without quote characters of either kind. *)
Definition quoteFree (s : jsstring) : Prop :=
  Forall (fun c => isQuote c = false) s.

(** An element of an argument list as the fix writes it: the unchanged
    text of an argument, or the quoted content of a new string argument. *)
Definition renderArgument (item : jsstring + jsstring) : jsstring :=
  match item with
  | inl preservedText => preservedText
  | inr content => quoted content
  end.

(** * The variant functions and the JSX attributes *)

(** ** The syntax tree below the arguments of a call *)

(** The key of a property: [prop.key]. *)
Inductive PropertyKey :=
| IdentifierKey (name : jsstring)
| LiteralKey (value : option jsstring)
    (** [Some v] when [typeof value === "string"] *)
| OtherKey.

(** An expression with its source text and its range.  Of the elements of
    an array the code reads the type and the value only; [None] is a hole. *)
Inductive Expression :=
| LiteralExpression (value : option jsstring) (source : jsstring)
    (position : option (Z * Z))
| TemplateLiteralExpression (expressions : nat) (source : jsstring)
    (position : option (Z * Z))
| ArrayExpression (elements : list (option Node)) (source : jsstring)
    (position : option (Z * Z))
| ObjectExpression (properties : list ObjectMember) (source : jsstring)
    (position : option (Z * Z))
| OtherExpression (source : jsstring) (position : option (Z * Z))
with ObjectMember :=
| Property (key : PropertyKey) (value : Expression)
| SpreadElement.

Definition expressionText (e : Expression) : jsstring :=
  match e with
  | LiteralExpression _ source _ => source
  | TemplateLiteralExpression _ source _ => source
  | ArrayExpression _ source _ => source
  | ObjectExpression _ source _ => source
  | OtherExpression source _ => source
  end.

Definition expressionRange (e : Expression) : option (Z * Z) :=
  match e with
  | LiteralExpression _ _ position => position
  | TemplateLiteralExpression _ _ position => position
  | ArrayExpression _ _ position => position
  | ObjectExpression _ _ position => position
  | OtherExpression _ position => position
  end.

(** The argument as [extractArgumentInfo] and the fixer of the standard
    calls look at it. *)
Definition toNode (e : Expression) : Node :=
  mkNode
    match e with
    | LiteralExpression value _ _ => Literal value
    | TemplateLiteralExpression expressions _ _ => TemplateLiteral expressions
    | _ => OtherNode
    end
    (expressionText e) (expressionRange e).

(** A call: the name of the callee when the callee is an identifier, and
    the arguments. *)
Record CallExpression := mkCallExpression {
  calleeName : option jsstring;
  callArguments : list Expression
}.

Definition toCall (node : CallExpression) : CallExpressionNode :=
  mkCall (List.map toNode (callArguments node)).

(** ** types/index.ts *)

Inductive PatternType := standard | cva_like | tv_like.

Inductive LocationType := argumentLocation | propertyLocation.

Record BaseLocation := mkBaseLocation {
  baseLocationType : LocationType;
  baseArgumentIndex : nat;
  basePropertyName : option jsstring
}.

Record VariantsLocation := mkVariantsLocation {
  variantsLocationType : LocationType;
  variantsArgumentIndex : nat;
  variantsPropertyName : jsstring
}.

Record FunctionPattern := mkFunctionPattern {
  patternType : PatternType;
  baseLocation : option BaseLocation;
  variantsLocation : option VariantsLocation
}.

Record RuleOptions := mkRuleOptions {
  classFunctions : list jsstring;
  preferredFunction : jsstring;
  classAttributes : list jsstring
}.

Definition DEFAULT_OPTIONS : RuleOptions :=
  {| classFunctions := [js "cn"];
     preferredFunction := js "cn";
     classAttributes := [js "className"] |}.

(** ** utils/function-detector.ts *)

Definition isClassFunction (functionName : jsstring)
  (classFunctions : list jsstring) : bool :=
  existsb (str_eqb functionName) classFunctions.

(** ** utils/pattern-detector.ts *)

(** [prop.type === "Property" && prop.key.type === "Identifier" &&
    prop.key.name === propertyName] *)
Definition isPropertyNamed (propertyName : jsstring) (prop : ObjectMember)
  : bool :=
  match prop with
  | Property (IdentifierKey name) _ => str_eqb name propertyName
  | _ => false
  end.

(** [hasProperty(obj, propertyName)], on [obj.properties]. *)
Definition hasProperty (properties : list ObjectMember)
  (propertyName : jsstring) : bool :=
  existsb (isPropertyNamed propertyName) properties.

Definition isFirstArgValid (firstArg : Expression) : bool :=
  match firstArg with
  | LiteralExpression _ _ _ => true
  | TemplateLiteralExpression _ _ _ => true
  | ArrayExpression _ _ _ => true
  | _ => false
  end.

Definition detectFunctionPattern (node : CallExpression) : FunctionPattern :=
  if match callArguments node with
     | firstArg :: ObjectExpression properties _ _ :: _ =>
         isFirstArgValid firstArg && hasProperty properties (js "variants")
     | _ => false
     end
  then
    {| patternType := cva_like;
       baseLocation := Some (mkBaseLocation argumentLocation 0 None);
       variantsLocation :=
         Some (mkVariantsLocation propertyLocation 1 (js "variants")) |}
  else if match callArguments node with
          | ObjectExpression properties _ _ :: _ =>
              hasProperty properties (js "base")
              && hasProperty properties (js "variants")
          | _ => false
          end
  then
    {| patternType := tv_like;
       baseLocation :=
         Some (mkBaseLocation propertyLocation 0 (Some (js "base")));
       variantsLocation :=
         Some (mkVariantsLocation propertyLocation 0 (js "variants")) |}
  else
    {| patternType := standard;
       baseLocation := None;
       variantsLocation := None |}.

(** ** utils/ast-traverser.ts: the variant functions *)

(** The string elements of an array, [elements.filter(...).map(el =>
    el.value)]. *)
Definition stringElements (elements : list (option Node)) : list jsstring :=
  flat_map
    (fun el =>
       match el with
       | Some el' =>
           match nodeType el' with
           | Literal (Some value) => [value]
           | _ => []
           end
       | None => []
       end)
    elements.

(** The three cases in which [extractBaseClasses] returns the classes of a
    value: a string literal, a template literal without expressions, an
    array. *)
Definition baseClassesOf (value : Expression) : option jsstring :=
  match value with
  | LiteralExpression (Some v) _ _ => Some v
  | TemplateLiteralExpression O source _ => Some (slice source 1 (-1))
  | ArrayExpression elements _ _ => Some (join [space] (stringElements elements))
  | _ => None
  end.

(** The loop of [extractBaseClasses] over the properties: it returns at the
    first property of the name whose value is one of the three cases, and
    goes on after a property of the name with another value. *)
Fixpoint extractBaseProperty (properties : list ObjectMember)
  (propertyName : jsstring) : option jsstring :=
  match properties with
  | [] => None
  | prop :: rest =>
      if isPropertyNamed propertyName prop then
        match prop with
        | Property _ value =>
            match baseClassesOf value with
            | Some classes => Some classes
            | None => extractBaseProperty rest propertyName
            end
        | SpreadElement => extractBaseProperty rest propertyName
        end
      else extractBaseProperty rest propertyName
  end.

Definition extractBaseClasses (node : CallExpression)
  (pattern : FunctionPattern) : option jsstring :=
  match baseLocation pattern with
  | None => None
  | Some location =>
      match nth_error (callArguments node) (baseArgumentIndex location) with
      | None => None
      | Some arg =>
          match baseLocationType location with
          | argumentLocation => baseClassesOf arg
          | propertyLocation =>
              match basePropertyName location with
              | Some propertyName =>
                  if truthy propertyName then
                    match arg with
                    | ObjectExpression properties _ _ =>
                        extractBaseProperty properties propertyName
                    | _ => None
                    end
                  else None
              | None => None
              end
          end
      end
  end.

(** The key of a property as [extractVariantObject] reads it. *)
Definition keyOf (key : PropertyKey) : option jsstring :=
  match key with
  | IdentifierKey name => Some name
  | LiteralKey (Some value) => Some value
  | _ => None
  end.

Definition dot : N := 46.

(** [path ? `${path}.${key}` : key] *)
Definition currentPathOf (path key : jsstring) : jsstring :=
  if truthy path then path ++ [dot] ++ key else key.

(** [Map<string, string>], the variant values: the entries in the order of
    insertion. *)
Definition VariantValues := list (jsstring * jsstring).

(** [variantValues.set(path, value)] *)
Fixpoint variantSet (variantValues : VariantValues) (path value : jsstring)
  : VariantValues :=
  match variantValues with
  | [] => [(path, value)]
  | (path', value') :: rest =>
      if str_eqb path' path then (path', value) :: rest
      else (path', value') :: variantSet rest path value
  end.

(** The loop of [extractVariantObject] over the properties of an object;
    [recur] is the recursive call on a value that is an object. *)
Fixpoint forEachProperty
  (recur : Expression -> VariantValues -> jsstring -> VariantValues)
  (props : list ObjectMember) (variantValues : VariantValues)
  (path : jsstring) : VariantValues :=
  match props with
  | [] => variantValues
  | SpreadElement :: rest => forEachProperty recur rest variantValues path
  | Property key value :: rest =>
      match keyOf key with
      | None => forEachProperty recur rest variantValues path
      | Some key =>
          if negb (truthy key)
          then forEachProperty recur rest variantValues path
          else
            let currentPath := currentPathOf path key in
            match value with
            | ObjectExpression _ _ _ =>
                forEachProperty recur rest
                  (recur value variantValues currentPath) path
            | LiteralExpression (Some v) _ _ =>
                forEachProperty recur rest
                  (variantSet variantValues currentPath v) path
            | TemplateLiteralExpression O source _ =>
                forEachProperty recur rest
                  (variantSet variantValues currentPath
                              (slice source 1 (-1)))
                  path
            | _ => forEachProperty recur rest variantValues path
            end
      end
  end.

(** [extractVariantObject(obj, context, variantValues, path)]: the map after
    the call. *)
Fixpoint extractVariantObject (obj : Expression)
  (variantValues : VariantValues) (path : jsstring) {struct obj}
  : VariantValues :=
  match obj with
  | ObjectExpression properties _ _ =>
      forEachProperty extractVariantObject properties variantValues path
  | _ => variantValues
  end.

(** The loop of [extractVariantValues] over the properties of the argument:
    every property of the name whose value is an object is read. *)
Fixpoint extractVariantProperties (properties : list ObjectMember)
  (propertyName : jsstring) (variantValues : VariantValues)
  : VariantValues :=
  match properties with
  | [] => variantValues
  | prop :: rest =>
      if isPropertyNamed propertyName prop then
        match prop with
        | Property _ (ObjectExpression _ _ _ as value) =>
            extractVariantProperties rest propertyName
              (extractVariantObject value variantValues [])
        | _ => extractVariantProperties rest propertyName variantValues
        end
      else extractVariantProperties rest propertyName variantValues
  end.

Definition extractVariantValues (node : CallExpression)
  (pattern : FunctionPattern) : VariantValues :=
  match variantsLocation pattern with
  | None => []
  | Some location =>
      match nth_error (callArguments node) (variantsArgumentIndex location)
      with
      | Some (ObjectExpression properties _ _) =>
          extractVariantProperties properties
            (variantsPropertyName location) []
      | _ => []
      end
  end.

(** What [findBaseNode] returns: an argument or a property. *)
Inductive BaseNode :=
| ArgumentBase (arg : Expression)
| PropertyBase (prop : ObjectMember).

Definition findBaseNode (node : CallExpression) (pattern : FunctionPattern)
  : option BaseNode :=
  match baseLocation pattern with
  | None => None
  | Some location =>
      match nth_error (callArguments node) (baseArgumentIndex location) with
      | None => None
      | Some arg =>
          match baseLocationType location with
          | argumentLocation => Some (ArgumentBase arg)
          | propertyLocation =>
              match basePropertyName location with
              | Some propertyName =>
                  if truthy propertyName then
                    match arg with
                    | ObjectExpression properties _ _ =>
                        option_map PropertyBase
                          (find (isPropertyNamed propertyName) properties)
                    | _ => None
                    end
                  else None
              | None => None
              end
          end
      end
  end.

(** The first loop of [findVariantPropertyNode]: the properties of the
    first property of the name whose value is an object. *)
Fixpoint findVariantsObject (properties : list ObjectMember)
  (propertyName : jsstring) : option (list ObjectMember) :=
  match properties with
  | [] => None
  | prop :: rest =>
      if isPropertyNamed propertyName prop then
        match prop with
        | Property _ (ObjectExpression variantsProperties _ _) =>
            Some variantsProperties
        | _ => findVariantsObject rest propertyName
        end
      else findVariantsObject rest propertyName
  end.

Definition findVariantPropertyNode (node : CallExpression) (path : jsstring)
  (pattern : FunctionPattern) : option ObjectMember :=
  match variantsLocation pattern with
  | None => None
  | Some location =>
      match nth_error (callArguments node) (variantsArgumentIndex location)
      with
      | Some (ObjectExpression properties _ _) =>
          match findVariantsObject properties (variantsPropertyName location)
          with
          | None => None
          | Some variantsProperties =>
              let parts := split path dot in
              match nth_error parts 0 with
              | None => None
              | Some variantName =>
                  match find (isPropertyNamed variantName) variantsProperties
                  with
                  | Some (Property _ (ObjectExpression subProperties _ _)) =>
                      match nth_error parts 1 with
                      | Some subVariantName =>
                          find (isPropertyNamed subVariantName) subProperties
                      | None => None
                      end
                  | _ => None
                  end
              end
          end
      | _ => None
      end
  end.

(** ** utils/ast-traverser.ts: the JSX attributes *)

(** [node.value] of a JSX attribute. *)
Inductive JSXAttributeValue :=
| JSXExpressionContainer (expression : Expression) (position : option (Z * Z))
| JSXLiteral (value : option jsstring) (position : option (Z * Z))
| JSXOtherValue (position : option (Z * Z)).

(** A JSX attribute: its name when the name is a [JSXIdentifier], and its
    value when it has one. *)
Record JSXAttribute := mkJSXAttribute {
  attributeName : option jsstring;
  attributeValue : option JSXAttributeValue
}.

Definition extractJSXAttributeValue (node : JSXAttribute) : option jsstring :=
  match attributeValue node with
  | None => None
  | Some (JSXExpressionContainer expression _) =>
      match expression with
      | LiteralExpression (Some v) _ _ => Some v
      | TemplateLiteralExpression O source _ => Some (slice source 1 (-1))
      | _ => None
      end
  | Some (JSXLiteral (Some v) _) => Some v
  | Some _ => None
  end.

(** ** utils/fix-generator.ts: the wrapping fixes *)

Definition valueRange (value : JSXAttributeValue) : option (Z * Z) :=
  match value with
  | JSXExpressionContainer _ position => position
  | JSXLiteral _ position => position
  | JSXOtherValue position => position
  end.

(** [`${preferredFunction}(${arguments_.join(", ")})`] *)
Definition callCode (preferredFunction : jsstring)
  (arguments_ : list jsstring) : jsstring :=
  preferredFunction ++ js "(" ++ join (js ", ") arguments_ ++ js ")".

Section WrappingFixes.

Variable localeCompare : jsstring -> jsstring -> Z.

Definition generateJSXAttributeFix (node : JSXAttribute)
  (classString preferredFunction : jsstring) : option Fix :=
  let needsWrapping :=
    mixesBaseAndModifiers classString
    || hasMultipleModifierGroups classString in
  if negb needsWrapping then None
  else
    match processClassesIntoArguments localeCompare classString with
    | None => None
    | Some arguments_ =>
        let newCode := callCode preferredFunction arguments_ in
        match attributeValue node with
        | None => None
        | Some value =>
            match valueRange value with
            | None => None
            | Some (start, end_) =>
                Some {| fixRange := (start, end_);
                        text := js "{" ++ newCode ++ js "}" |}
            end
        end
    end.

Definition generateVariantValueFix (node : ObjectMember)
  (classString preferredFunction : jsstring) : option Fix :=
  let needsWrapping :=
    mixesBaseAndModifiers classString
    || hasMultipleModifierGroups classString in
  if negb needsWrapping then None
  else
    match processClassesIntoArguments localeCompare classString with
    | None => None
    | Some arguments_ =>
        let newCode := callCode preferredFunction arguments_ in
        match node with
        | Property _ (LiteralExpression _ _ position)
        | Property _ (TemplateLiteralExpression _ _ position) =>
            match position with
            | None => None
            | Some (start, end_) =>
                Some {| fixRange := (start, end_); text := newCode |}
            end
        | _ => None
        end
    end.

(** ** rules/group-tailwind-modifiers.ts: the other handlers *)

(** A report on a node of the tree; [reportFix] is what the [fix] callback
    computes. *)
Record NodeReport := mkNodeReport {
  reportedNode : option Expression;
  reportMessageId : MessageId;
  reportData : list (jsstring * jsstring);
  reportFix : option Fix
}.

(** [baseNode.type === "Property" ? baseNode.value : baseNode] *)
Definition baseValueNode (baseNode : BaseNode) : option Expression :=
  match baseNode with
  | ArgumentBase arg => Some arg
  | PropertyBase (Property _ value) => Some value
  | PropertyBase SpreadElement => None
  end.

(** The [fix] callback of the report on the base classes. *)
Definition baseFix (baseNode : BaseNode)
  (baseClasses preferredFunction : jsstring) : option Fix :=
  let classes := List.map full (parseClasses baseClasses) in
  let groups := sortClassesByModifierGroups localeCompare classes in
  let arguments_ :=
    List.map
      (fun group =>
         quoted (join [space]
                   (sortClassesInGroup localeCompare
                      (ModifierGroup.classes group))))
      groups in
  let newCode := callCode preferredFunction arguments_ in
  match baseValueNode baseNode with
  | None => None
  | Some valueNode =>
      match expressionRange valueNode with
      | None => None
      | Some (start, end_) =>
          Some {| fixRange := (start, end_); text := newCode |}
      end
  end.

(** The reports of the loop over the entries of the variant values. *)
Fixpoint variantReports (node : CallExpression) (pattern : FunctionPattern)
  (preferredFunction : jsstring) (entries : VariantValues)
  : list NodeReport :=
  match entries with
  | [] => []
  | (path, classString) :: rest =>
      (if mixesBaseAndModifiers classString
          || hasMultipleModifierGroups classString
       then
         match findVariantPropertyNode node path pattern with
         | Some propertyNode =>
             [{| reportedNode :=
                   match propertyNode with
                   | Property _ value => Some value
                   | SpreadElement => None
                   end;
                 reportMessageId := complexProperty;
                 reportData := [(js "function", preferredFunction)];
                 reportFix :=
                   generateVariantValueFix propertyNode classString
                     preferredFunction |}]
         | None => []
         end
       else [])
      ++ variantReports node pattern preferredFunction rest
  end.

Definition handleVariantFunctionCall (node : CallExpression)
  (preferredFunction : jsstring) (pattern : FunctionPattern)
  : list NodeReport :=
  match extractBaseClasses node pattern with
  | Some baseClasses =>
      if truthy baseClasses
         && (mixesBaseAndModifiers baseClasses
             || hasMultipleModifierGroups baseClasses)
      then
        match findBaseNode node pattern with
        | Some baseNode =>
            [{| reportedNode := baseValueNode baseNode;
                reportMessageId := mixedBaseAndModifiers;
                reportData := [(js "modifier", js "modifier classes")];
                reportFix :=
                  baseFix baseNode baseClasses preferredFunction |}]
        | None => []
        end
      else []
  | None => []
  end
  ++ variantReports node pattern preferredFunction
       (extractVariantValues node pattern).

(** The [JSXAttribute] handler: the message, the data and the fix of the
    report it makes, if any. *)
Definition handleJSXAttribute (options : RuleOptions) (node : JSXAttribute)
  : option (MessageId * list (jsstring * jsstring) * option Fix) :=
  match attributeName node with
  | None => None
  | Some name =>
      if existsb (str_eqb name) (classAttributes options) then
        match extractJSXAttributeValue node with
        | Some classString =>
            if truthy classString then
              if mixesBaseAndModifiers classString then
                Some (complexJSXAttribute,
                      [(js "function", preferredFunction options)],
                      generateJSXAttributeFix node classString
                        (preferredFunction options))
              else if hasMultipleModifierGroups classString then
                Some (complexJSXAttribute,
                      [(js "function", preferredFunction options)],
                      generateJSXAttributeFix node classString
                        (preferredFunction options))
              else None
            else None
        | None => None
        end
      else None
  end.

(** The [CallExpression] handler: the report of a standard call, or the
    reports of a variant call. *)
Definition handleCallExpression (options : RuleOptions)
  (node : CallExpression) : option Report * list NodeReport :=
  match calleeName node with
  | None => (None, [])
  | Some functionName =>
      if negb (isClassFunction functionName (classFunctions options))
      then (None, [])
      else
        let pattern := detectFunctionPattern node in
        match patternType pattern with
        | standard =>
            (handleStandardFunctionCall localeCompare (toCall node)
               (preferredFunction options), [])
        | _ =>
            (None,
             handleVariantFunctionCall node (preferredFunction options)
               pattern)
        end
  end.

End WrappingFixes.

(** The new string arguments that the fixers compute for a class string. *)
Definition newArgumentsFor (localeCompare : jsstring -> jsstring -> Z)
  (classString : jsstring) : list jsstring :=
  newStringArgumentsOf localeCompare
    (sortClassesByModifierGroups localeCompare
       (List.map full (parseClasses classString))).

(** The range that [generateVariantValueFix] replaces: that of a value
    which is a literal or a template literal. *)
Definition wrappableRange (node : ObjectMember) : option (Z * Z) :=
  match node with
  | Property _ (LiteralExpression _ _ position) => position
  | Property _ (TemplateLiteralExpression _ _ position) => position
  | _ => None
  end.


(** [obj] is an object expression with a property whose key is the
    identifier [name] and whose value is [value]. *)
Definition memberOf (obj : Expression) (name : jsstring) (value : Expression)
  : Prop :=
  match obj with
  | ObjectExpression properties _ _ =>
      In (Property (IdentifierKey name) value) properties
  | _ => False
  end.

(** The class string of a value that [extractVariantObject] stores. *)
Definition variantClassesOf (value : Expression) : option jsstring :=
  match value with
  | LiteralExpression (Some v) _ _ => Some v
  | TemplateLiteralExpression O source _ => Some (slice source 1 (-1))
  | _ => None
  end.

(** The name of a property whose key is an identifier. *)
Definition identifierName (prop : ObjectMember) : option jsstring :=
  match prop with
  | Property (IdentifierKey name) _ => Some name
  | _ => None
  end.

(** The name of an identifier is not empty and holds no dot. *)
Definition isIdentifierName (name : jsstring) : Prop :=
  name <> [] /\ includes name dot = false.

(** The properties of an object written with identifiers as keys, each
    name once, and with values of the kind [P]. *)
Definition plainObject (P : Expression -> Prop)
  (properties : list ObjectMember) : Prop :=
  NoDup (List.map identifierName properties)
  /\ Forall (fun prop =>
               exists name value,
                 prop = Property (IdentifierKey name) value
                 /\ isIdentifierName name /\ P value)
            properties.

(** A variants object of the documented shape: every variant is an object
    of class strings. *)
Definition isClassValue (value : Expression) : Prop :=
  variantClassesOf value <> None.

Definition isVariantObject (value : Expression) : Prop :=
  match value with
  | ObjectExpression subProperties _ _ => plainObject isClassValue subProperties
  | _ => False
  end.

(** The entries of one variant and of a variants object, in the order of
    the source. *)
Definition variantEntries (variantName : jsstring)
  (subProperties : list ObjectMember) : VariantValues :=
  flat_map
    (fun prop =>
       match prop with
       | Property (IdentifierKey name) value =>
           match variantClassesOf value with
           | Some classes => [(variantName ++ [dot] ++ name, classes)]
           | None => []
           end
       | _ => []
       end)
    subProperties.

Definition variantsEntries (variantsProperties : list ObjectMember)
  : VariantValues :=
  flat_map
    (fun prop =>
       match prop with
       | Property (IdentifierKey variantName)
                  (ObjectExpression subProperties _ _) =>
           variantEntries variantName subProperties
       | _ => []
       end)
    variantsProperties.

(** A call of the cva kind with one variant value. *)
Definition smValue : Expression :=
  LiteralExpression (Some (js "p-2 hover:p-3")) (js "'p-2 hover:p-3'")
                    (Some (40, 55)).

Definition sizeVariants : list ObjectMember :=
  [Property (IdentifierKey (js "size"))
     (ObjectExpression [Property (IdentifierKey (js "sm")) smValue] [] None)].

Definition cvaArgument : list ObjectMember :=
  [Property (IdentifierKey (js "variants"))
     (ObjectExpression sizeVariants [] None)].

Definition cvaCall : CallExpression :=
  mkCallExpression (Some (js "cva"))
    [LiteralExpression (Some (js "p-4")) (js "'p-4'") (Some (4, 9));
     ObjectExpression cvaArgument [] None].

(** ** rules/group-tailwind-modifiers.ts: the options *)

(** [context.options[0]], as the schema of the rule admits it: every
    property may be absent, the lists hold strings. *)
Record RawOptions := mkRawOptions {
  rawClassFunctions : option (list jsstring);
  rawPreferredFunction : option jsstring;
  rawClassAttributes : option (list jsstring)
}.

(** [fn.trim() !== ""] *)
Definition notBlank (s : jsstring) : bool := negb (str_eqb (trim s) []).

(** The options that [create] computes. *)
Definition validatedOptions (rawOptions : option RawOptions) : RuleOptions :=
  let classFunctions_ :=
    match rawOptions with
    | Some raw =>
        match rawClassFunctions raw with
        | Some l => l
        | None => classFunctions DEFAULT_OPTIONS
        end
    | None => classFunctions DEFAULT_OPTIONS
    end in
  let preferredFunction_ :=
    match rawOptions with
    | Some raw =>
        match rawPreferredFunction raw with
        | Some s => s
        | None => preferredFunction DEFAULT_OPTIONS
        end
    | None => preferredFunction DEFAULT_OPTIONS
    end in
  let classAttributes_ :=
    match rawOptions with
    | Some raw =>
        match rawClassAttributes raw with
        | Some l => l
        | None => classAttributes DEFAULT_OPTIONS
        end
    | None => classAttributes DEFAULT_OPTIONS
    end in
  {| classFunctions :=
       if (0 <? List.length classFunctions_)%nat
       then filter notBlank classFunctions_
       else classFunctions DEFAULT_OPTIONS;
     preferredFunction :=
       if notBlank preferredFunction_ then trim preferredFunction_
       else preferredFunction DEFAULT_OPTIONS;
     classAttributes :=
       if (0 <? List.length classAttributes_)%nat
       then filter notBlank classAttributes_
       else classAttributes DEFAULT_OPTIONS |}.

(** Some member of a list of properties satisfies [P]. *)
Fixpoint existsMember (P : ObjectMember -> Prop) (props : list ObjectMember)
  : Prop :=
  match props with
  | [] => False
  | prop :: rest => P prop \/ existsMember P rest
  end.

(** [classString] is the class string of a property value somewhere inside
    the object [obj]. *)
Fixpoint holdsClassString (obj : Expression) (classString : jsstring)
  {struct obj} : Prop :=
  match obj with
  | ObjectExpression properties _ _ =>
      existsMember
        (fun prop =>
           match prop with
           | Property _ value =>
               variantClassesOf value = Some classString
               \/ holdsClassString value classString
           | SpreadElement => False
           end)
        properties
  | _ => False
  end.

(** The comparator tells the elements of [l] apart: two elements of [l]
    that compare equal are the same element. *)
Definition separatedBy {A : Type} (cmp : A -> A -> Z) (l : list A) : Prop :=
  forall a b, In a l -> In b l -> cmp a b = 0 -> a = b.

(** A collation that, as ECMA-262 requires of [localeCompare], returns 0 on
    canonically equivalent strings: the letter e with acute accent (U+00E9)
    compares as the letter e followed by the combining acute accent
    (U+0301).  Apart from that it is the order of the code units. *)
Definition decompose (s : jsstring) : jsstring :=
  flat_map (fun c => if (c =? 233)%N then [101%N; 769%N] else [c]) s.

Definition canonicalCompare (a b : jsstring) : Z :=
  codeUnitCompare (decompose a) (decompose b).

(** The modifier x, e with acute accent, colon, written with the one
    character U+00E9 and with the two characters e and U+0301. *)
Definition precomposedModifier : option jsstring := Some [120%N; 233%N; 58%N].
Definition combiningModifier : option jsstring :=
  Some [120%N; 101%N; 769%N; 58%N].

(** ** The call that a fix writes *)







(** * Properties *)

(** ** Scenarios from the repository's tests and the specification *)

Example parseClasses_whitespace :
  List.map full (parseClasses (js "  hover:bg-red   bg-blue  "))
  = [js "hover:bg-red"; js "bg-blue"].
Proof. reflexivity. Qed.

Example parseClass_chained_modifier :
  parseClass (js "md:hover:bg-red")
  = {| full := js "md:hover:bg-red"; modifier := Some (js "md:hover:");
       base := js "bg-red" |}.
Proof. reflexivity. Qed.

Example hasSplitModifiers_same_modifier :
  hasSplitModifiers [js "hover:bg-red"; js "hover:text-white"] = true
  /\ hasSplitModifiers [js "hover:bg-red"; js "focus:ring-2"] = false
  /\ hasSplitModifiers [js "hover:bg-red hover:text-white"] = false.
Proof. repeat split. Qed.

Example getModifierPriority_tiers :
  List.map (fun m => getModifierPriority (Some (js m)))
           ["hover:"; "md:"; "md:hover:"; "dark:"; "aria-invalid:";
            "[&_svg]:"; "group-hover:"; "foo:"]%string
  = [PSEUDO_CLASS; RESPONSIVE; CHAINED; DARK; ARIA_DATA; ARBITRARY;
     PSEUDO_CLASS; UNKNOWN].
Proof. reflexivity. Qed.

Example canonical_groups :
  sortClassesByModifierGroups codeUnitCompare
    [js "md:p-4"; js "hover:bg-blue"; js "bg-red"; js "hover:text-white";
     js "focus:ring-2"]
  = [ModifierGroup.mk None [js "bg-red"];
     ModifierGroup.mk (Some (js "focus:")) [js "focus:ring-2"];
     ModifierGroup.mk (Some (js "hover:"))
                      [js "hover:bg-blue"; js "hover:text-white"];
     ModifierGroup.mk (Some (js "md:")) [js "md:p-4"]].
Proof. reflexivity. Qed.

(** The call of [cn] on the literal bg-red hover:text-white focus:ring-2
    and the identifier className: both per-slot predicates hold of the
    literal, the report is mixedBaseAndModifiers, and the fix keeps the
    identifier in its place. *)
Example mixed_slot_report :
  let call :=
    mkCall [stringLiteral (js "bg-red hover:text-white focus:ring-2") 3 41;
            identifier (js "className") 43 52] in
  hasMultipleModifierGroups (js "bg-red hover:text-white focus:ring-2") = true
  /\ option_map
       (fun r => (reportNode r, messageId r, option_map text (fix_ r)))
       (handleStandardFunctionCall codeUnitCompare call (js "cn"))
     = Some (ArgumentNode 0, mixedBaseAndModifiers,
             Some ([dquote] ++ js "bg-red" ++ [dquote] ++ js ", "
                   ++ [dquote] ++ js "focus:ring-2" ++ [dquote] ++ js ", "
                   ++ [dquote] ++ js "hover:text-white" ++ [dquote]
                   ++ js ", className")).
Proof. split; reflexivity. Qed.

(** The call of [cn] on the two literals bg-red and text-white, which hold
    base classes only: the report is splitModifier, and its message names
    no modifier. *)
Example base_slots_report :
  let call :=
    mkCall [stringLiteral (js "bg-red") 3 11;
            stringLiteral (js "text-white") 13 25] in
  option_map
    (fun r => (reportNode r, messageId r, data r, option_map text (fix_ r)))
    (handleStandardFunctionCall codeUnitCompare call (js "cn"))
  = Some (CallNode, splitModifier, [(js "modifier", js "same modifier")],
          Some ([dquote] ++ js "bg-red text-white" ++ [dquote])).
Proof. reflexivity. Qed.

(** ** Strings *)

Lemma str_eqb_eq (a b : jsstring) : str_eqb a b = true <-> a = b.
Proof.
  unfold str_eqb. destruct (list_eq_dec N.eq_dec a b); split; congruence.
Qed.

Lemma str_eqb_neq (a b : jsstring) : str_eqb a b = false <-> a <> b.
Proof.
  unfold str_eqb. destruct (list_eq_dec N.eq_dec a b); split; congruence.
Qed.

Lemma opt_eqb_eq (a b : option jsstring) : opt_eqb a b = true <-> a = b.
Proof.
  destruct a, b; simpl; try (split; congruence).
  rewrite str_eqb_eq. split; congruence.
Qed.

Lemma opt_eqb_neq (a b : option jsstring) : opt_eqb a b = false <-> a <> b.
Proof.
  destruct (opt_eqb a b) eqn:E.
  - apply opt_eqb_eq in E. split; congruence.
  - split; [|reflexivity]. intros _ H. apply opt_eqb_eq in H. congruence.
Qed.

Lemma opt_eqb_refl (a : option jsstring) : opt_eqb a a = true.
Proof. apply opt_eqb_eq. reflexivity. Qed.

Lemma includes_app (s t : jsstring) (c : N) :
  includes (s ++ t) c = includes s c || includes t c.
Proof. unfold includes. apply existsb_app. Qed.

Lemma includes_false_iff (s : jsstring) (c : N) :
  includes s c = false <-> ~ In c s.
Proof.
  unfold includes. split.
  - intros H Hin. assert (existsb (N.eqb c) s = true) as E.
    { apply existsb_exists. exists c. split; [assumption|apply N.eqb_refl]. }
    congruence.
  - intros H. destruct (existsb (N.eqb c) s) eqn:E; [|reflexivity].
    apply existsb_exists in E. destruct E as (x & Hx & Hc).
    apply N.eqb_eq in Hc. subst x. contradiction.
Qed.

(** [slice] between two positions inside the string. *)
Lemma slice_prefix (s : jsstring) (k : nat) :
  (k <= List.length s)%nat -> slice s 0 (Z.of_nat k) = firstn k s.
Proof.
  intros Hk. unfold slice, relIndex, strLength.
  replace (0 <? 0) with false by reflexivity.
  destruct (Z.of_nat k <? 0) eqn:E; [apply Z.ltb_lt in E; lia|].
  rewrite (Z.min_l 0) by lia. rewrite (Z.min_l (Z.of_nat k)) by lia.
  simpl. rewrite Z.sub_0_r, Nat2Z.id. reflexivity.
Qed.

Lemma sliceFrom_suffix (s : jsstring) (k : nat) :
  (k <= List.length s)%nat -> sliceFrom s (Z.of_nat k) = skipn k s.
Proof.
  intros Hk. unfold sliceFrom, slice, relIndex, strLength.
  destruct (Z.of_nat k <? 0) eqn:E; [apply Z.ltb_lt in E; lia|].
  destruct (Z.of_nat (List.length s) <? 0) eqn:E'; [apply Z.ltb_lt in E'; lia|].
  rewrite (Z.min_l (Z.of_nat k)) by lia. rewrite Z.min_id. rewrite Nat2Z.id.
  apply firstn_all2. rewrite length_skipn. lia.
Qed.

(** [s.slice(0, -1)] removes the last character. *)
Lemma slice_drop_last (w : jsstring) (c : N) : slice (w ++ [c]) 0 (-1) = w.
Proof.
  unfold slice, relIndex, strLength. rewrite length_app. simpl List.length.
  replace (0 <? 0) with false by reflexivity.
  replace (-1 <? 0) with true by reflexivity.
  rewrite (Z.min_l 0) by lia. rewrite Z.max_l by lia.
  simpl skipn.
  replace (Z.to_nat (Z.of_nat (List.length w + 1) + -1 - 0))
    with (List.length w) by lia.
  rewrite firstn_app, Nat.sub_diag, firstn_all. simpl. apply app_nil_r.
Qed.

(** [lastIndexOf]: either the character is absent and the result is -1, or
    the string splits at its last occurrence. *)
Lemma lastIndexOfFrom_spec (c : N) (s : jsstring) :
  forall pos found,
    (includes s c = false /\ lastIndexOfFrom c s pos found = found)
    \/ (exists p b, s = p ++ c :: b /\ includes b c = false
                    /\ lastIndexOfFrom c s pos found
                       = pos + Z.of_nat (List.length p)).
Proof.
  induction s as [|x s IH]; intros pos found; simpl.
  - left. split; reflexivity.
  - destruct (IH (pos + 1) (if N.eqb x c then pos else found))
      as [[Hno Hres] | (p & b & Hs & Hb & Hres)].
    + rewrite Hres. unfold includes in *. simpl. rewrite Hno.
      rewrite (N.eqb_sym c x). destruct (N.eqb x c) eqn:E.
      * right. apply N.eqb_eq in E. subst x. exists [], s.
        simpl. repeat split; [assumption|lia].
      * left. split; reflexivity.
    + right. exists (x :: p), b. subst s. simpl.
      repeat split; [assumption|]. rewrite Hres. lia.
Qed.

Lemma lastIndexOf_spec (s : jsstring) (c : N) :
  (includes s c = false /\ lastIndexOf s c = -1)
  \/ (exists p b, s = p ++ c :: b /\ includes b c = false
                  /\ lastIndexOf s c = Z.of_nat (List.length p)).
Proof.
  unfold lastIndexOf.
  destruct (lastIndexOfFrom_spec c s 0 (-1)) as [H | (p & b & H1 & H2 & H3)].
  - left. exact H.
  - right. exists p, b. repeat split; assumption.
Qed.

(** ** C7: parseClass *)

(** C7.  [parseClass] splits at the rightmost colon.  [full] is the input.
    When the result has no modifier, the input contains no colon and [base]
    is the whole input; when it has the modifier [m], then [m] ends with a
    colon, the input is [m ++ base], and [base] contains no colon, so the
    colon that ends [m] is the rightmost one.  The token a:b:c parses to
    modifier a:b: and base c. *)
Theorem parseClass_rightmost_colon (className : jsstring) :
  full (parseClass className) = className
  /\ match modifier (parseClass className) with
     | None =>
         includes className colon = false
         /\ base (parseClass className) = className
     | Some m =>
         (exists p, m = p ++ [colon])
         /\ className = m ++ base (parseClass className)
         /\ includes (base (parseClass className)) colon = false
     end
  /\ parseClass (js "a:b:c")
     = {| full := js "a:b:c"; modifier := Some (js "a:b:"); base := js "c" |}.
Proof.
  split; [|split; [|reflexivity]].
  - unfold parseClass. destruct className as [|x s]; simpl; [reflexivity|].
    destruct (lastIndexOf (x :: s) colon =? -1); reflexivity.
  - unfold parseClass. destruct className as [|x s]; simpl.
    + split; reflexivity.
    + set (cn := x :: s).
      destruct (lastIndexOf_spec cn colon) as [[Hno Hi] | (p & b & Hs & Hb & Hi)].
      * rewrite Hi. simpl. split; [exact Hno|reflexivity].
      * rewrite Hi.
        destruct (Z.of_nat (List.length p) =? -1) eqn:E;
          [apply Z.eqb_eq in E; lia|].
        simpl.
        replace (Z.of_nat (List.length p) + 1)
          with (Z.of_nat (S (List.length p))) by lia.
        assert (S (List.length p) <= List.length cn)%nat as Hle.
        { rewrite Hs, length_app. simpl. lia. }
        rewrite slice_prefix, sliceFrom_suffix by exact Hle.
        assert (cn = (p ++ [colon]) ++ b) as Hs'.
        { rewrite Hs, <- app_assoc. reflexivity. }
        assert (S (List.length p) = List.length (p ++ [colon])) as Hl.
        { rewrite length_app. simpl. lia. }
        rewrite Hl, Hs'.
        rewrite firstn_app, Nat.sub_diag, firstn_all. simpl firstn.
        rewrite app_nil_r.
        rewrite skipn_app, Nat.sub_diag, skipn_all. simpl.
        repeat split; try assumption. exists p. reflexivity.
Qed.

(** ** C8: blank literals give no rewrite *)

Lemma dropWhile_all (p : N -> bool) (s : jsstring) :
  forallb p s = true -> dropWhile p s = [].
Proof.
  induction s as [|x s IH]; simpl; [reflexivity|].
  intros H. apply andb_true_iff in H. destruct H as [Hx Hs].
  rewrite Hx. apply IH, Hs.
Qed.

Lemma trim_blank (s : jsstring) : forallb isWhiteSpace s = true -> trim s = [].
Proof.
  intros H. unfold trim, trimStart, trimEnd.
  rewrite (dropWhile_all _ _ H). reflexivity.
Qed.

Lemma parseClasses_blank (s : jsstring) :
  forallb isWhiteSpace s = true -> parseClasses s = [].
Proof.
  intros H. unfold parseClasses. rewrite (trim_blank _ H). simpl.
  rewrite orb_true_r. reflexivity.
Qed.

Lemma groupClassString_blank (s : jsstring) :
  forallb isWhiteSpace s = true -> groupClassString s = [].
Proof.
  intros H. unfold groupClassString. rewrite (parseClasses_blank _ H).
  reflexivity.
Qed.

Lemma collectSources_blank (classStrings : list jsstring) :
  Forall (fun s => forallb isWhiteSpace s = true) classStrings ->
  forall i m, collectSources classStrings i m = m.
Proof.
  induction 1 as [|s rest Hs _ IH]; intros i m; simpl; [reflexivity|].
  rewrite (groupClassString_blank _ Hs). simpl. apply IH.
Qed.

Lemma allLiteralsBlank_tail (info : ArgumentInfo) (rest : list ArgumentInfo) :
  allLiteralsBlank (info :: rest) -> allLiteralsBlank rest.
Proof.
  intros H i s Hin. apply H. right. exact Hin.
Qed.

Lemma hasClassString_blank (info : ArgumentInfo) (rest : list ArgumentInfo) :
  allLiteralsBlank (info :: rest) -> hasClassString info = true ->
  forallb isWhiteSpace (orEmpty (classString info)) = true.
Proof.
  intros H Hc. unfold hasClassString in Hc.
  apply andb_true_iff in Hc. destruct Hc as [Hl Hs].
  destruct (classString info) as [s|] eqn:E; [|discriminate].
  simpl. apply (H info s); [left; reflexivity|assumption|assumption].
Qed.

Section BlankLiterals.

Variable localeCompare : jsstring -> jsstring -> Z.

Lemma collectAllClasses_blank (argumentInfo : list ArgumentInfo) :
  allLiteralsBlank argumentInfo -> collectAllClasses argumentInfo = [].
Proof.
  induction argumentInfo as [|info rest IH]; intros H; [reflexivity|].
  unfold collectAllClasses in *. simpl.
  rewrite (IH (allLiteralsBlank_tail _ _ H)), app_nil_r.
  destruct (hasClassString info) eqn:E; [|reflexivity].
  rewrite (parseClasses_blank _ (hasClassString_blank _ _ H E)). reflexivity.
Qed.

Lemma classStrings_blank (argumentInfo : list ArgumentInfo) :
  allLiteralsBlank argumentInfo ->
  Forall (fun s => forallb isWhiteSpace s = true)
         (List.map (fun info => orEmpty (classString info))
                   (filter hasClassString argumentInfo)).
Proof.
  induction argumentInfo as [|info rest IH]; intros H; simpl; [constructor|].
  destruct (hasClassString info) eqn:E.
  - simpl. constructor.
    + exact (hasClassString_blank _ _ H E).
    + apply IH. exact (allLiteralsBlank_tail _ _ H).
  - apply IH. exact (allLiteralsBlank_tail _ _ H).
Qed.

Lemma mixesBaseAndModifiers_blank (s : jsstring) :
  forallb isWhiteSpace s = true -> mixesBaseAndModifiers s = false.
Proof.
  intros H. unfold mixesBaseAndModifiers.
  rewrite (groupClassString_blank _ H). reflexivity.
Qed.

Lemma hasMultipleModifierGroups_blank (s : jsstring) :
  forallb isWhiteSpace s = true -> hasMultipleModifierGroups s = false.
Proof.
  intros H. unfold hasMultipleModifierGroups.
  rewrite (groupClassString_blank _ H). reflexivity.
Qed.

Lemma checkArguments_blank (node : CallExpressionNode)
  (argumentInfo : list ArgumentInfo) (preferredFunction : jsstring)
  (infos : list ArgumentInfo) :
  allLiteralsBlank infos ->
  forall i,
    checkArguments localeCompare node argumentInfo preferredFunction infos i
    = None.
Proof.
  induction infos as [|info rest IH]; intros H i; simpl; [reflexivity|].
  destruct (hasClassString info) eqn:E; simpl.
  - pose proof (hasClassString_blank _ _ H E) as Hb.
    rewrite (mixesBaseAndModifiers_blank _ Hb).
    rewrite (hasMultipleModifierGroups_blank _ Hb).
    apply IH. exact (allLiteralsBlank_tail _ _ H).
  - apply IH. exact (allLiteralsBlank_tail _ _ H).
Qed.

(** C8.  When every string literal argument is empty or consists of
    whitespace only, [generateFunctionCallFix] returns null; on such a call
    [handleStandardFunctionCall] makes no report at all, so no fix is
    emitted; and [processClassesIntoArguments] returns null on every empty
    or whitespace-only string. *)
Theorem blank_literals_no_rewrite (node : CallExpressionNode)
  (argumentInfo : list ArgumentInfo) (preferredFunction : jsstring) :
  allLiteralsBlank argumentInfo ->
  generateFunctionCallFix localeCompare node argumentInfo preferredFunction
  = None
  /\ (argumentInfo = extractArgumentInfo node ->
      handleStandardFunctionCall localeCompare node preferredFunction = None)
  /\ (forall s, forallb isWhiteSpace s = true ->
                processClassesIntoArguments localeCompare s = None).
Proof.
  intros H. split; [|split].
  - unfold generateFunctionCallFix.
    rewrite (collectAllClasses_blank _ H). reflexivity.
  - intros ->. unfold handleStandardFunctionCall.
    pose proof (classStrings_blank _ H) as Hcs.
    destruct (List.length _ =? 0)%nat; [reflexivity|].
    unfold hasSplitModifiers. rewrite (collectSources_blank _ Hcs). simpl.
    apply checkArguments_blank, H.
  - intros s Hs. unfold processClassesIntoArguments.
    rewrite (trim_blank _ Hs). simpl. rewrite orb_true_r. reflexivity.
Qed.

End BlankLiterals.

Lemma blank_literals_no_rewrite_witness :
  generateFunctionCallFix codeUnitCompare blankCall
    (extractArgumentInfo blankCall) (js "cn") = None
  /\ handleStandardFunctionCall codeUnitCompare blankCall (js "cn") = None.
Proof.
  assert (allLiteralsBlank (extractArgumentInfo blankCall)) as H.
  { intros info s Hin _ Hs. simpl in Hin.
    destruct Hin as [<- | [<- | [<- | []]]]; simpl in Hs;
      inversion Hs; reflexivity. }
  destruct (blank_literals_no_rewrite codeUnitCompare blankCall
              (extractArgumentInfo blankCall) (js "cn") H) as (H1 & H2 & _).
  split; [exact H1|exact (H2 eq_refl)].
Defined.

(** ** C9: unknown modifiers rank after the known ones *)

Lemma indexOfFrom_In (l : list jsstring) (x : jsstring) :
  In x l ->
  forall pos,
    exists i : nat,
      indexOfFrom l x pos = pos + Z.of_nat i
      /\ nth_error l i = Some x
      /\ (i < List.length l)%nat.
Proof.
  induction l as [|y l IH]; intros Hin pos; [destruct Hin|].
  simpl. destruct (str_eqb y x) eqn:E.
  - apply str_eqb_eq in E. subst y. exists O. simpl.
    repeat split; [lia|lia].
  - apply str_eqb_neq in E. destruct Hin as [Hy | Hin]; [contradiction|].
    destruct (IH Hin (pos + 1)) as (i & H1 & H2 & H3).
    exists (S i). simpl. repeat split; [lia|assumption|lia].
Qed.

Lemma indexOfFrom_notIn (l : list jsstring) (x : jsstring) :
  ~ In x l -> forall pos, indexOfFrom l x pos = -1.
Proof.
  induction l as [|y l IH]; intros Hn pos; simpl; [reflexivity|].
  destruct (str_eqb y x) eqn:E.
  - apply str_eqb_eq in E. subst y. exfalso. apply Hn. left. reflexivity.
  - apply IH. intros H. apply Hn. right. exact H.
Qed.

Lemma indexOf_In (l : list jsstring) (x : jsstring) :
  In x l ->
  exists i : nat,
    indexOf l x = Z.of_nat i /\ nth_error l i = Some x
    /\ (i < List.length l)%nat.
Proof.
  intros H. destruct (indexOfFrom_In l x H 0) as (i & H1 & H2 & H3).
  exists i. repeat split; assumption.
Qed.

Lemma indexOf_notIn (l : list jsstring) (x : jsstring) :
  ~ In x l -> indexOf l x = -1.
Proof. intros H. apply indexOfFrom_notIn, H. Qed.

Lemma In_dec_jsstring (x : jsstring) (l : list jsstring) :
  In x l \/ ~ In x l.
Proof.
  destruct (in_dec (list_eq_dec N.eq_dec) x l); [left|right]; assumption.
Qed.

Lemma strLength_zero (s : jsstring) : (strLength s =? 0) = negb (truthy s).
Proof. destruct s; reflexivity. Qed.

(** The sort order of a modifier whose text is in [KNOWN_VARIANT_ORDER] is
    its position there. *)
Lemma getModifierSortOrder_known (w : jsstring) :
  In w KNOWN_VARIANT_ORDER ->
  0 <= getModifierSortOrder (Some (w ++ [colon]))
    < Z.of_nat (List.length KNOWN_VARIANT_ORDER).
Proof.
  intros Hin. unfold getModifierSortOrder.
  rewrite slice_drop_last, !strLength_zero.
  destruct w as [|c w]; simpl app; simpl truthy; simpl negb; cbv iota.
  - simpl; lia.
  - destruct (indexOf_In _ _ Hin) as (i & Hi & _ & Hlt).
    rewrite Hi. destruct (Z.of_nat i =? -1) eqn:E;
      [apply Z.eqb_eq in E; lia|]. simpl negb. cbv iota. lia.
Qed.

(** The sort order of a modifier whose text is not in
    [KNOWN_VARIANT_ORDER]. *)
Lemma getModifierSortOrder_unknown (w : jsstring) :
  w <> [] ->
  ~ In w KNOWN_VARIANT_ORDER ->
  getModifierSortOrder (Some (w ++ [colon]))
  = if negb (indexOf KNOWN_VARIANT_ORDER (hd [] (split (w ++ [colon]) colon))
             =? -1)
    then indexOf KNOWN_VARIANT_ORDER (hd [] (split (w ++ [colon]) colon)) + 1000
    else 10000 + charCodeAt0 w.
Proof.
  intros Hne Hu. unfold getModifierSortOrder. cbv zeta.
  rewrite slice_drop_last, !strLength_zero.
  assert (includes (w ++ [colon]) colon = true) as Hinc.
  { rewrite includes_app. simpl. apply orb_true_r. }
  rewrite Hinc, (indexOf_notIn _ _ Hu).
  destruct w as [|c w']; [congruence|]. reflexivity.
Qed.

(** C9.  Let [m] and [u] be modifiers, each a text followed by its trailing
    colon, where the text [wm] of [m] is in [KNOWN_VARIANT_ORDER] and the
    text [wu] of [u] is not.  Then [getModifierSortOrder m <
    getModifierSortOrder u].  The value for [u] is 1000 plus the position in
    [KNOWN_VARIANT_ORDER] of the first colon-separated part of [u] when that
    part is known, and 10000 plus the character code of the first character
    of [u] otherwise. *)
Theorem unknown_modifiers_rank_last (wm wu : jsstring) :
  In wm KNOWN_VARIANT_ORDER ->
  ~ In wu KNOWN_VARIANT_ORDER ->
  let m := wm ++ [colon] in
  let u := wu ++ [colon] in
  let firstPart := hd [] (split u colon) in
  getModifierSortOrder (Some m) < getModifierSortOrder (Some u)
  /\ (In firstPart KNOWN_VARIANT_ORDER ->
      exists i : nat,
        nth_error KNOWN_VARIANT_ORDER i = Some firstPart
        /\ getModifierSortOrder (Some u) = 1000 + Z.of_nat i)
  /\ (~ In firstPart KNOWN_VARIANT_ORDER ->
      exists c rest,
        u = c :: rest
        /\ getModifierSortOrder (Some u) = 10000 + Z.of_N c).
Proof.
  intros Hm Hu m u firstPart.
  assert (wu <> []) as Hne.
  { intros ->. apply Hu. left. reflexivity. }
  assert (includes u colon = true) as Hinc.
  { unfold u. rewrite includes_app. simpl. apply orb_true_r. }
  assert (getModifierSortOrder (Some u)
          = if negb (indexOf KNOWN_VARIANT_ORDER firstPart =? -1)
            then indexOf KNOWN_VARIANT_ORDER firstPart + 1000
            else 10000 + charCodeAt0 wu) as Hval.
  { unfold firstPart, u. apply getModifierSortOrder_unknown; assumption. }
  pose proof (getModifierSortOrder_known wm Hm) as Hk.
  fold m in Hk.
  assert (List.length KNOWN_VARIANT_ORDER = 45%nat) as Hlen by reflexivity.
  rewrite Hlen in Hk.
  split; [|split].
  - rewrite Hval.
    destruct (In_dec_jsstring firstPart KNOWN_VARIANT_ORDER) as [Hf | Hf].
    + destruct (indexOf_In _ _ Hf) as (i & Hi & _ & _). rewrite Hi.
      destruct (Z.of_nat i =? -1) eqn:E; [apply Z.eqb_eq in E; lia|].
      simpl negb. cbv iota. lia.
    + rewrite (indexOf_notIn _ _ Hf). simpl negb. cbv iota.
      destruct wu as [|c wu']; [congruence|]. unfold charCodeAt0. lia.
  - intros Hf. destruct (indexOf_In _ _ Hf) as (i & Hi & Hnth & _).
    exists i. split; [exact Hnth|]. rewrite Hval, Hi.
    destruct (Z.of_nat i =? -1) eqn:E; [apply Z.eqb_eq in E; lia|].
    simpl negb. cbv iota. lia.
  - intros Hf. rewrite Hval, (indexOf_notIn _ _ Hf). simpl negb. cbv iota.
    destruct wu as [|c wu']; [congruence|].
    exists c, (wu' ++ [colon]). split; reflexivity.
Qed.

(** The known modifier hover: against the unknown modifiers md:foo: (known
    first part md) and foo: (unknown first part). *)
Lemma unknown_modifiers_rank_last_witness :
  getModifierSortOrder (Some (js "hover:"))
  < getModifierSortOrder (Some (js "md:foo:"))
  /\ getModifierSortOrder (Some (js "md:foo:")) = 1030
  /\ getModifierSortOrder (Some (js "hover:"))
     < getModifierSortOrder (Some (js "foo:"))
  /\ getModifierSortOrder (Some (js "foo:")) = 10102.
Proof.
  assert (In (js "hover") KNOWN_VARIANT_ORDER) as Hk.
  { unfold KNOWN_VARIANT_ORDER. simpl. tauto. }
  assert (forall w, existsb (str_eqb w) KNOWN_VARIANT_ORDER = false ->
                    ~ In w KNOWN_VARIANT_ORDER) as Hnot.
  { intros w E Hin.
    assert (existsb (str_eqb w) KNOWN_VARIANT_ORDER = true) as E'.
    { apply existsb_exists. exists w. split; [exact Hin|].
      apply str_eqb_eq. reflexivity. }
    congruence. }
  destruct (unknown_modifiers_rank_last (js "hover") (js "md:foo") Hk
              (Hnot (js "md:foo") eq_refl)) as (H1 & _ & _).
  destruct (unknown_modifiers_rank_last (js "hover") (js "foo") Hk
              (Hnot (js "foo") eq_refl)) as (H2 & _ & _).
  split; [exact H1|]. split; [reflexivity|]. split; [exact H2|reflexivity].
Defined.

(** ** C3: the range of compareModifiers *)

(** C3.  [compareModifiers] returns the difference of the priorities, or of
    the sort orders, when these differ, and so values outside {-1, 0, 1}:
    for a base class against the responsive modifier md: it returns 0 - 2,
    and for focus: against even:, of equal priority, 1 - 24.  Neither result
    depends on the collation. *)
Theorem compareModifiers_returns_differences
  (localeCompare : jsstring -> jsstring -> Z) :
  compareModifiers localeCompare None (Some (js "md:")) = -2
  /\ compareModifiers localeCompare (Some (js "focus:")) (Some (js "even:"))
     = -23
  /\ ~ In (compareModifiers localeCompare None (Some (js "md:"))) [-1; 0; 1].
Proof.
  split; [reflexivity|]. split; [reflexivity|].
  replace (compareModifiers localeCompare None (Some (js "md:"))) with (-2)
    by reflexivity.
  simpl. intros [H | [H | [H | []]]]; discriminate.
Qed.

(** ** C2: hasSplitModifiers *)

(** C2.  On the two slots bg-red and text-white, whose groupings hold the
    null key only, [hasSplitModifiers] returns true, while
    [getSplitModifier], which skips the null key, finds no split modifier
    in the same slots. *)
Theorem hasSplitModifiers_counts_null_group :
  List.map ModifierGroup.modifier (groupClassString (js "bg-red")) = [None]
  /\ List.map ModifierGroup.modifier (groupClassString (js "text-white"))
     = [None]
  /\ hasSplitModifiers [js "bg-red"; js "text-white"] = true
  /\ getSplitModifier [js "bg-red"; js "text-white"] = None.
Proof. repeat split. Qed.

(** ** C4: the priority of the violation checks *)

Lemma length_extractArgumentInfoFrom (args : list Node) :
  forall i, List.length (extractArgumentInfoFrom i args) = List.length args.
Proof.
  induction args as [|a args IH]; intros i; simpl; [reflexivity|].
  rewrite IH. reflexivity.
Qed.

Lemma argumentOrCall_inside (node : CallExpressionNode) (i : nat) :
  (i < List.length (arguments node))%nat ->
  argumentOrCall node i = ArgumentNode i.
Proof.
  intros H. unfold argumentOrCall.
  destruct (nth_error (arguments node) i) eqn:E; [reflexivity|].
  apply nth_error_None in E. lia.
Qed.

Lemma hasSplitModifiers_nil : hasSplitModifiers [] = false.
Proof. reflexivity. Qed.

Section Priority.

Variable localeCompare : jsstring -> jsstring -> Z.

(** The loop over the arguments stops at the first checked slot in which a
    predicate holds, and reports it by [slotVerdict]. *)
Lemma checkArguments_spec (node : CallExpressionNode)
  (argumentInfo : list ArgumentInfo) (preferredFunction : jsstring)
  (infos : list ArgumentInfo) :
  forall k,
    (k + List.length infos <= List.length (arguments node))%nat ->
    match
      checkArguments localeCompare node argumentInfo preferredFunction infos k
    with
    | None => forall info, In info infos -> slotClean info
    | Some r =>
        exists j info,
          firstCheckedAt infos j info
          /\ reportNode r = ArgumentNode (k + j)
          /\ slotVerdict (orEmpty (classString info)) (messageId r)
    end.
Proof.
  induction infos as [|info rest IH]; intros k Hk; simpl.
  - intros info [].
  - simpl in Hk.
    assert (forall r,
      match r with
      | Some r =>
          exists j info0,
            firstCheckedAt rest j info0
            /\ reportNode r = ArgumentNode (S k + j)
            /\ slotVerdict (orEmpty (classString info0)) (messageId r)
      | None => forall info0, In info0 rest -> slotClean info0
      end ->
      slotClean info ->
      match r with
      | Some r =>
          exists j info0,
            firstCheckedAt (info :: rest) j info0
            /\ reportNode r = ArgumentNode (k + j)
            /\ slotVerdict (orEmpty (classString info0)) (messageId r)
      | None => forall info0, In info0 (info :: rest) -> slotClean info0
      end) as Hskip.
    { intros [r|] Hr Hclean.
      - destruct Hr as (j & info0 & (Hn & Hc & Hbefore) & Hnode & Hv).
        exists (S j), info0. split; [|split].
        + split; [exact Hn|]. split; [exact Hc|].
          intros [|j'] info' Hlt Hn'; simpl in Hn'.
          * inversion Hn'. subst info'. exact Hclean.
          * apply (Hbefore j' info'); [lia|exact Hn'].
        + rewrite Hnode. f_equal. lia.
        + exact Hv.
      - intros info0 [<- | Hin]; [exact Hclean|apply Hr, Hin]. }
    destruct (hasClassString info) eqn:Hc; simpl.
    + destruct (mixesBaseAndModifiers (orEmpty (classString info))) eqn:Hmix.
      * exists O, info. split; [|split].
        -- split; [reflexivity|]. split; [exact Hc|]. intros j info' Hlt. lia.
        -- simpl. rewrite Nat.add_0_r. apply argumentOrCall_inside. lia.
        -- unfold slotVerdict. rewrite Hmix. reflexivity.
      * destruct (hasMultipleModifierGroups (orEmpty (classString info)))
          eqn:Hmul.
        -- exists O, info. split; [|split].
           ++ split; [reflexivity|]. split; [exact Hc|]. intros j info' Hlt.
              lia.
           ++ simpl. rewrite Nat.add_0_r. apply argumentOrCall_inside. lia.
           ++ unfold slotVerdict. rewrite Hmix. split; [exact Hmul|reflexivity].
        -- apply Hskip; [apply IH; lia|]. intros _. split; assumption.
    + apply Hskip; [apply IH; lia|]. intros Hc'. congruence.
Qed.

(** C4.  Let [classStrings] be the contents of the string literal arguments
    of a call.  If [hasSplitModifiers classStrings] holds, the report is
    splitModifier on the call, whatever the per-slot predicates say.
    Otherwise the slots are examined in order: there is no report when every
    slot is clean, and else the report is on the first checked slot in which
    a predicate holds, with mixedBaseAndModifiers when
    [mixesBaseAndModifiers] holds of it and with multipleModifierGroups only
    when it does not.  In particular a slot of which [mixesBaseAndModifiers]
    holds is never reported as multipleModifierGroups. *)
Theorem handleStandardFunctionCall_priority (node : CallExpressionNode)
  (preferredFunction : jsstring) :
  let argumentInfo := extractArgumentInfo node in
  let classStrings :=
    List.map (fun info => orEmpty (classString info))
             (filter hasClassString argumentInfo) in
  let report :=
    handleStandardFunctionCall localeCompare node preferredFunction in
  (hasSplitModifiers classStrings = true ->
   exists r, report = Some r
             /\ messageId r = splitModifier /\ reportNode r = CallNode)
  /\ (hasSplitModifiers classStrings = false ->
      match report with
      | None => forall info, In info argumentInfo -> slotClean info
      | Some r =>
          exists i info,
            firstCheckedAt argumentInfo i info
            /\ reportNode r = ArgumentNode i
            /\ slotVerdict (orEmpty (classString info)) (messageId r)
      end)
  /\ (forall r i info,
        report = Some r -> reportNode r = ArgumentNode i ->
        nth_error argumentInfo i = Some info ->
        mixesBaseAndModifiers (orEmpty (classString info)) = true ->
        messageId r = mixedBaseAndModifiers).
Proof.
  intros argumentInfo classStrings report.
  assert (hasSplitModifiers classStrings = false ->
          match report with
          | None => forall info, In info argumentInfo -> slotClean info
          | Some r =>
              exists i info,
                firstCheckedAt argumentInfo i info
                /\ reportNode r = ArgumentNode i
                /\ slotVerdict (orEmpty (classString info)) (messageId r)
          end) as Hslots.
  { intros Hsplit. unfold report, handleStandardFunctionCall.
    fold argumentInfo. fold classStrings. rewrite Hsplit.
    pose proof (checkArguments_spec node argumentInfo preferredFunction
                  argumentInfo 0) as Hspec.
    assert (0 + List.length argumentInfo <= List.length (arguments node))%nat
      as Hlen.
    { unfold argumentInfo, extractArgumentInfo.
      rewrite length_extractArgumentInfoFrom. lia. }
    specialize (Hspec Hlen).
    destruct (List.length classStrings =? 0)%nat eqn:E.
    - apply Nat.eqb_eq in E.
      intros info Hin. unfold slotClean. intros Hc. exfalso.
      assert (In (orEmpty (classString info)) classStrings) as Hin'.
      { unfold classStrings.
        apply (in_map (fun info => orEmpty (classString info))).
        apply filter_In. split; assumption. }
      destruct classStrings; [destruct Hin'|discriminate].
    - exact Hspec. }
  split; [|split].
  - intros Hsplit. unfold report, handleStandardFunctionCall.
    fold argumentInfo. fold classStrings. rewrite Hsplit.
    destruct (List.length classStrings =? 0)%nat eqn:E.
    + apply Nat.eqb_eq in E. destruct classStrings; [|discriminate].
      rewrite hasSplitModifiers_nil in Hsplit. discriminate.
    + eexists. split; [reflexivity|]. split; reflexivity.
  - exact Hslots.
  - intros r i info Hr Hnode Hnth Hmix.
    destruct (hasSplitModifiers classStrings) eqn:Hsplit.
    + exfalso. revert Hr. unfold report, handleStandardFunctionCall.
      fold argumentInfo. fold classStrings. rewrite Hsplit.
      destruct (List.length classStrings =? 0)%nat; [discriminate|].
      intros Hr. inversion Hr. subst r. simpl in Hnode. discriminate.
    + specialize (Hslots eq_refl). rewrite Hr in Hslots.
      destruct Hslots as (i' & info' & (Hn' & _ & _) & Hnode' & Hv).
      rewrite Hnode in Hnode'. inversion Hnode'. subst i'.
      rewrite Hnth in Hn'. inversion Hn'. subst info'.
      unfold slotVerdict in Hv. rewrite Hmix in Hv. exact Hv.
Qed.

End Priority.

(** ** C10: verifyFixNonDestructive compares sets *)

Lemma setHas_In (s : list jsstring) (x : jsstring) :
  setHas str_eqb s x = true <-> In x s.
Proof.
  unfold setHas. rewrite existsb_exists. split.
  - intros (y & Hy & E). apply str_eqb_eq in E. subst y. exact Hy.
  - intros H. exists x. split; [exact H|]. apply str_eqb_eq. reflexivity.
Qed.

Lemma In_setAdd (s : list jsstring) (x y : jsstring) :
  In x (setAdd str_eqb s y) <-> In x s \/ x = y.
Proof.
  unfold setAdd. destruct (setHas str_eqb s y) eqn:E.
  - apply setHas_In in E. split; [tauto|]. intros [H | ->]; assumption.
  - rewrite in_app_iff. simpl. split; intros [H | H]; auto.
    + destruct H as [<- | []]. right. reflexivity.
Qed.

Lemma In_fold_setAdd (names : list ParsedClass) :
  forall (set : list jsstring) (x : jsstring),
    In x (fold_left (fun set p => setAdd str_eqb set (full p)) names set)
    <-> In x set \/ In x (List.map full names).
Proof.
  induction names as [|p names IH]; intros set x; simpl.
  - tauto.
  - rewrite IH, In_setAdd. split; intros H; intuition congruence.
Qed.

Lemma In_addAllClasses (classStrings : list jsstring) :
  forall (set : list jsstring) (x : jsstring),
    In x (addAllClasses set classStrings)
    <-> In x set \/ In x (classNamesOf classStrings).
Proof.
  unfold addAllClasses, classNamesOf.
  induction classStrings as [|s rest IH]; intros set x; simpl.
  - tauto.
  - rewrite IH, In_fold_setAdd, in_app_iff. tauto.
Qed.

Lemma forallb_setHas (a b : list jsstring) :
  forallb (fun x => setHas str_eqb b x) a = true
  <-> forall x, In x a -> In x b.
Proof.
  rewrite forallb_forall. split; intros H x Hx.
  - apply setHas_In, H, Hx.
  - apply setHas_In, H, Hx.
Qed.

(** C10.  [verifyFixNonDestructive] returns true exactly when the class
    names parsed from the input strings and the class names parsed from the
    quoted strings of the output are the same set: every name that occurs on
    one side occurs on the other, however often.  So it returns true for the
    input p-4 p-4 and the output cn("p-4"), where the class occurs twice in
    the input and once in the output. *)
Theorem verifyFixNonDestructive_compares_sets (inputClasses : list jsstring)
  (outputCode : jsstring) :
  (verifyFixNonDestructive inputClasses outputCode = true
   <-> forall className,
         In className (classNamesOf inputClasses)
         <-> In className (classNamesOf (classPatternMatches outputCode)))
  /\ classNamesOf [js "p-4 p-4"] = [js "p-4"; js "p-4"]
  /\ classNamesOf (classPatternMatches cnOfP4) = [js "p-4"]
  /\ verifyFixNonDestructive [js "p-4 p-4"] cnOfP4 = true.
Proof.
  split; [|repeat split].
  unfold verifyFixNonDestructive.
  set (i := addAllClasses [] inputClasses).
  set (o := addAllClasses [] (classPatternMatches outputCode)).
  assert (forall x, In x i <-> In x (classNamesOf inputClasses)) as Hi.
  { intros x. unfold i. rewrite In_addAllClasses. simpl. tauto. }
  assert (forall x, In x o
                    <-> In x (classNamesOf (classPatternMatches outputCode)))
    as Ho.
  { intros x. unfold o. rewrite In_addAllClasses. simpl. tauto. }
  destruct (forallb (fun className => setHas str_eqb o className) i) eqn:E1;
    simpl.
  - destruct (forallb (fun className => setHas str_eqb i className) o) eqn:E2;
      simpl.
    + split; [|reflexivity]. intros _ x.
      rewrite <- Hi, <- Ho. split.
      * apply (proj1 (forallb_setHas i o) E1).
      * apply (proj1 (forallb_setHas o i) E2).
    + split; [discriminate|]. intros H.
      assert (forallb (fun className => setHas str_eqb i className) o = true)
        as E2'.
      { apply forallb_setHas. intros x Hx. apply Hi, H, Ho, Hx. }
      congruence.
  - split; [discriminate|]. intros H.
    assert (forallb (fun className => setHas str_eqb o className) i = true)
      as E1'.
    { apply forallb_setHas. intros x Hx. apply Ho, H, Hi, Hx. }
    congruence.
Qed.

(** ** The sort *)

Section ArraySort.

Context {A : Type}.
Variable cmp : A -> A -> Z.

Lemma sortInsert_perm (x : A) (l : list A) :
  Permutation (sortInsert cmp x l) (x :: l).
Proof.
  induction l as [|y l IH]; simpl; [apply Permutation_refl|].
  destruct (cmp x y <=? 0); [apply Permutation_refl|].
  eapply perm_trans; [apply perm_skip, IH|apply perm_swap].
Qed.

Lemma arraySort_perm (l : list A) : Permutation (arraySort cmp l) l.
Proof.
  induction l as [|x l IH]; simpl; [constructor|].
  eapply perm_trans; [apply sortInsert_perm|apply perm_skip, IH].
Qed.

(** A sorted array is left as it is. *)
Lemma arraySort_sorted_id (l : list A) :
  Sorted (notAfter cmp) l -> arraySort cmp l = l.
Proof.
  induction 1 as [|x l Hs IH Hhd]; simpl; [reflexivity|].
  rewrite IH. destruct Hhd as [|y l Hxy]; simpl; [reflexivity|].
  unfold notAfter in Hxy. apply Z.leb_le in Hxy. rewrite Hxy. reflexivity.
Qed.

Lemma map_sortInsert {B : Type} (f : B -> A) (x : B) (l : list B) :
  List.map f (sortInsert (fun a b => cmp (f a) (f b)) x l)
  = sortInsert cmp (f x) (List.map f l).
Proof.
  induction l as [|y l IH]; simpl; [reflexivity|].
  destruct (cmp (f x) (f y) <=? 0); simpl; [reflexivity|].
  rewrite IH. reflexivity.
Qed.

(** Sorting by a key and then taking the keys is sorting the keys. *)
Lemma map_arraySort {B : Type} (f : B -> A) (l : list B) :
  List.map f (arraySort (fun a b => cmp (f a) (f b)) l)
  = arraySort cmp (List.map f l).
Proof.
  induction l as [|x l IH]; simpl; [reflexivity|].
  rewrite map_sortInsert, IH. reflexivity.
Qed.

Section Connected.

(** Of two elements, one may stand before the other. *)
Hypothesis cmp_connected : forall a b, 0 < cmp a b -> cmp b a <= 0.

Lemma sortInsert_sorted (x : A) (l : list A) :
  Sorted (notAfter cmp) l -> Sorted (notAfter cmp) (sortInsert cmp x l).
Proof.
  induction 1 as [|y l Hs IH Hhd]; simpl.
  - repeat constructor.
  - destruct (cmp x y <=? 0) eqn:E.
    + apply Z.leb_le in E. repeat constructor; assumption.
    + apply Z.leb_gt in E. constructor; [exact IH|].
      destruct Hhd as [|z l Hyz]; simpl.
      * constructor. apply cmp_connected, E.
      * destruct (cmp x z <=? 0); constructor;
          [apply cmp_connected, E|exact Hyz].
Qed.

Lemma arraySort_sorted (l : list A) : Sorted (notAfter cmp) (arraySort cmp l).
Proof.
  induction l as [|x l IH]; simpl; [constructor|].
  apply sortInsert_sorted, IH.
Qed.

(** Sorting twice is sorting once. *)
Lemma arraySort_idempotent (l : list A) :
  arraySort cmp (arraySort cmp l) = arraySort cmp l.
Proof. apply arraySort_sorted_id, arraySort_sorted. Qed.

End Connected.

Section OrderedByComparator.

Hypothesis cmp_antisym : forall a b, Z.sgn (cmp a b) = - Z.sgn (cmp b a).
Hypothesis cmp_trans :
  forall a b c, cmp a b < 0 -> cmp b c < 0 -> cmp a c < 0.

Lemma cmp_refl (a : A) : cmp a a = 0.
Proof.
  pose proof (cmp_antisym a a) as H. lia.
Qed.

Lemma cmp_flip (a b : A) : 0 < cmp a b -> cmp b a < 0.
Proof.
  intros H. pose proof (cmp_antisym a b) as Hs. lia.
Qed.

Lemma separatedBy_perm (l l' : list A) :
  Permutation l l' -> separatedBy cmp l -> separatedBy cmp l'.
Proof.
  intros Hp Hsep a b Ha Hb. apply Hsep.
  - apply (Permutation_in _ (Permutation_sym Hp)), Ha.
  - apply (Permutation_in _ (Permutation_sym Hp)), Hb.
Qed.

Lemma separatedBy_tail (x : A) (l : list A) :
  separatedBy cmp (x :: l) -> separatedBy cmp l.
Proof.
  intros Hsep a b Ha Hb. apply Hsep; right; assumption.
Qed.

(** Among elements that the comparator tells apart, standing not after
    is transitive and antisymmetric. *)
Lemma notAfter_trans (l : list A) (a b c : A) :
  separatedBy cmp l -> In a l -> In b l -> In c l ->
  notAfter cmp a b -> notAfter cmp b c -> notAfter cmp a c.
Proof.
  unfold notAfter. intros Hsep Ha Hb Hc Hab Hbc.
  destruct (Z.eq_dec (cmp a b) 0) as [E | E].
  - apply (Hsep a b Ha Hb) in E. subst b. exact Hbc.
  - destruct (Z.eq_dec (cmp b c) 0) as [E' | E'].
    + apply (Hsep b c Hb Hc) in E'. subst c. exact Hab.
    + assert (cmp a c < 0) by (apply (cmp_trans a b c); lia). lia.
Qed.

Lemma notAfter_antisym (l : list A) (a b : A) :
  separatedBy cmp l -> In a l -> In b l ->
  notAfter cmp a b -> notAfter cmp b a -> a = b.
Proof.
  unfold notAfter. intros Hsep Ha Hb Hab Hba. apply (Hsep a b Ha Hb).
  pose proof (cmp_antisym a b) as Hs. lia.
Qed.

Lemma Sorted_StronglySorted_separated (l : list A) :
  separatedBy cmp l -> Sorted (notAfter cmp) l ->
  StronglySorted (notAfter cmp) l.
Proof.
  intros Hsep Hs. induction Hs as [|x l Hs IH Hhd]; [constructor|].
  pose proof (IH (separatedBy_tail _ _ Hsep)) as Hss.
  constructor; [exact Hss|].
  destruct Hhd as [|y l Hxy]; [constructor|].
  inversion Hss as [|? ? _ Hall]; subst.
  constructor; [exact Hxy|].
  apply Forall_forall. intros z Hz. rewrite Forall_forall in Hall.
  apply (notAfter_trans (x :: y :: l) x y z Hsep).
  - left. reflexivity.
  - right. left. reflexivity.
  - right. right. exact Hz.
  - exact Hxy.
  - apply Hall, Hz.
Qed.

Lemma arraySort_strongly_sorted (l : list A) :
  separatedBy cmp l -> StronglySorted (notAfter cmp) (arraySort cmp l).
Proof.
  intros Hsep. apply Sorted_StronglySorted_separated.
  - apply (separatedBy_perm l); [|exact Hsep].
    apply Permutation_sym, arraySort_perm.
  - apply arraySort_sorted. intros a b H. apply cmp_flip in H. lia.
Qed.

(** Two sorted arrays with the same elements, which the comparator tells
    apart, are the same array. *)
Lemma strongly_sorted_unique (l1 : list A) :
  forall l2,
    separatedBy cmp l1 ->
    StronglySorted (notAfter cmp) l1 -> StronglySorted (notAfter cmp) l2 ->
    Permutation l1 l2 -> l1 = l2.
Proof.
  induction l1 as [|x l1 IH]; intros l2 Hsep H1 H2 Hp.
  - apply Permutation_nil in Hp. subst. reflexivity.
  - destruct l2 as [|y l2].
    + apply Permutation_sym, Permutation_nil in Hp. discriminate.
    + inversion H1 as [|? ? Hs1 Hall1]; subst.
      inversion H2 as [|? ? Hs2 Hall2]; subst.
      assert (In y (x :: l1)) as Hy
        by (apply (Permutation_in _ (Permutation_sym Hp)); left;
            reflexivity).
      assert (x = y) as Hxy.
      { assert (In x (y :: l2)) as Hx
          by (apply (Permutation_in _ Hp); left; reflexivity).
        destruct Hx as [-> | Hx]; [reflexivity|].
        destruct Hy as [-> | Hy']; [reflexivity|].
        rewrite Forall_forall in Hall1, Hall2.
        apply (notAfter_antisym (x :: l1) x y Hsep);
          [left; reflexivity|right; exact Hy'
          |apply Hall1, Hy'|apply Hall2, Hx]. }
      subst y. f_equal. apply IH; try assumption.
      * apply (separatedBy_tail _ _ Hsep).
      * apply (Permutation_cons_inv Hp).
Qed.

(** The result of the sort depends on the elements only, not on their
    order in the input, when the comparator tells the elements apart. *)
Lemma arraySort_permutation_invariant (l1 l2 : list A) :
  separatedBy cmp l1 ->
  Permutation l1 l2 -> arraySort cmp l1 = arraySort cmp l2.
Proof.
  intros Hsep Hp.
  assert (Permutation (arraySort cmp l1) (arraySort cmp l2)) as Hps.
  { eapply perm_trans; [apply arraySort_perm|].
    eapply perm_trans; [exact Hp|]. apply Permutation_sym, arraySort_perm. }
  apply strongly_sorted_unique.
  - apply (separatedBy_perm l1); [|exact Hsep].
    apply Permutation_sym, arraySort_perm.
  - apply arraySort_strongly_sorted, Hsep.
  - apply arraySort_strongly_sorted, (separatedBy_perm l1 l2 Hp Hsep).
  - exact Hps.
Qed.

End OrderedByComparator.

End ArraySort.

(** ** The code-unit collation is a strict total order *)

Lemma codeUnitCompare_antisym (a : jsstring) :
  forall b, Z.sgn (codeUnitCompare a b) = - Z.sgn (codeUnitCompare b a).
Proof.
  induction a as [|x a IH]; intros [|y b]; simpl; try reflexivity.
  destruct (N.ltb_spec x y), (N.ltb_spec y x); try reflexivity; try lia.
  apply IH.
Qed.

Lemma codeUnitCompare_zero (a : jsstring) :
  forall b, codeUnitCompare a b = 0 -> a = b.
Proof.
  induction a as [|x a IH]; intros [|y b]; simpl; try discriminate;
    [reflexivity|].
  destruct (N.ltb_spec x y) as [Hxy | Hxy], (N.ltb_spec y x) as [Hyx | Hyx];
    try discriminate.
  intros E. f_equal; [lia|apply IH, E].
Qed.

Lemma codeUnitCompare_trans (a : jsstring) :
  forall b c,
    codeUnitCompare a b < 0 -> codeUnitCompare b c < 0 ->
    codeUnitCompare a c < 0.
Proof.
  induction a as [|x a IH]; intros [|y b] [|z c]; simpl; try lia.
  destruct (N.ltb_spec x y), (N.ltb_spec y x), (N.ltb_spec y z),
    (N.ltb_spec z y), (N.ltb_spec x z), (N.ltb_spec z x);
    try lia.
  apply IH.
Qed.

Lemma codeUnitCompare_connected (a b : jsstring) :
  0 < codeUnitCompare a b -> codeUnitCompare b a <= 0.
Proof. pose proof (codeUnitCompare_antisym a b). lia. Qed.

(** Case analysis on the two tests of [compareModifiers a b]. *)
Ltac compare_cases a b :=
  destruct (Z.eqb_spec (priorityValue (getModifierPriority a))
                       (priorityValue (getModifierPriority b)));
  destruct (Z.eqb_spec (getModifierSortOrder a) (getModifierSortOrder b));
  cbn [negb].

(** ** The collation that honours canonical equivalence *)

Lemma canonicalCompare_antisym (a b : jsstring) :
  Z.sgn (canonicalCompare a b) = - Z.sgn (canonicalCompare b a).
Proof. apply codeUnitCompare_antisym. Qed.

Lemma canonicalCompare_trans (a b c : jsstring) :
  canonicalCompare a b < 0 -> canonicalCompare b c < 0 ->
  canonicalCompare a c < 0.
Proof. apply codeUnitCompare_trans. Qed.

(** The strings without the letter U+00E9 are their own decomposition, so
    the collation tells them apart. *)
Lemma decompose_plain (s : jsstring) :
  ~ In 233%N s -> decompose s = s.
Proof.
  unfold decompose. induction s as [|c s IH]; intros Hn; [reflexivity|].
  cbn [flat_map]. destruct (N.eqb_spec c 233) as [-> | _].
  - exfalso. apply Hn. left. reflexivity.
  - rewrite IH; [reflexivity|]. intros H. apply Hn. right. exact H.
Qed.

Lemma canonicalCompare_separates_plain (l : list jsstring) :
  Forall (fun s => ~ In 233%N s) l -> separatedBy canonicalCompare l.
Proof.
  intros Hall a b Ha Hb. rewrite Forall_forall in Hall.
  unfold canonicalCompare.
  rewrite (decompose_plain a (Hall a Ha)), (decompose_plain b (Hall b Hb)).
  apply codeUnitCompare_zero.
Qed.

(** ** C5: the order that compareModifiers induces *)

Section CompareModifiers.

Variable localeCompare : jsstring -> jsstring -> Z.

(** The collation of the host is a consistent comparison: the signs of the
    two comparisons of a pair are opposite, and the strict order is
    transitive.  It may return 0 on two different strings. *)
Hypothesis localeCompare_antisym :
  forall a b, Z.sgn (localeCompare a b) = - Z.sgn (localeCompare b a).
Hypothesis localeCompare_trans :
  forall a b c,
    localeCompare a b < 0 -> localeCompare b c < 0 -> localeCompare a c < 0.

Lemma compareModifiers_antisym (a b : option jsstring) :
  Z.sgn (compareModifiers localeCompare a b)
  = - Z.sgn (compareModifiers localeCompare b a).
Proof.
  pose proof (localeCompare_antisym (orEmpty a) (orEmpty b)) as Hlc.
  unfold compareModifiers. compare_cases a b; compare_cases b a; lia.
Qed.

(** The comparison is lexicographic on priority, sort order and text. *)
Lemma compareModifiers_neg (a b : option jsstring) :
  compareModifiers localeCompare a b < 0
  <-> priorityValue (getModifierPriority a)
      < priorityValue (getModifierPriority b)
      \/ (priorityValue (getModifierPriority a)
          = priorityValue (getModifierPriority b)
          /\ (getModifierSortOrder a < getModifierSortOrder b
              \/ (getModifierSortOrder a = getModifierSortOrder b
                  /\ localeCompare (orEmpty a) (orEmpty b) < 0))).
Proof.
  unfold compareModifiers. compare_cases a b; lia.
Qed.

(** A zero result: the same tier, the same rank, and texts that the
    collation finds equal. *)
Lemma compareModifiers_zero (a b : option jsstring) :
  compareModifiers localeCompare a b = 0 ->
  priorityValue (getModifierPriority a) = priorityValue (getModifierPriority b)
  /\ getModifierSortOrder a = getModifierSortOrder b
  /\ localeCompare (orEmpty a) (orEmpty b) = 0.
Proof.
  unfold compareModifiers. compare_cases a b; lia.
Qed.

(** Two modifiers of one tier with the same text are the same modifier:
    null and the empty modifier have different tiers. *)
Lemma same_tier_same_text (a b : option jsstring) :
  priorityValue (getModifierPriority a) = priorityValue (getModifierPriority b) ->
  orEmpty a = orEmpty b -> a = b.
Proof.
  intros E H.
  destruct a as [a|], b as [b|]; simpl in H; subst; try reflexivity;
    vm_compute in E; discriminate.
Qed.

Lemma compareModifiers_separated (modifiers : list (option jsstring)) :
  separatedBy localeCompare (List.map orEmpty modifiers) ->
  separatedBy (compareModifiers localeCompare) modifiers.
Proof.
  intros Hsep a b Ha Hb H.
  destruct (compareModifiers_zero a b H) as (Etier & _ & Hlc).
  apply (same_tier_same_text a b Etier).
  apply Hsep; [apply in_map, Ha|apply in_map, Hb|exact Hlc].
Qed.

Lemma compareModifiers_trans (a b c : option jsstring) :
  compareModifiers localeCompare a b < 0 ->
  compareModifiers localeCompare b c < 0 ->
  compareModifiers localeCompare a c < 0.
Proof.
  rewrite !compareModifiers_neg.
  pose proof (localeCompare_trans (orEmpty a) (orEmpty b) (orEmpty c)).
  lia.
Qed.

(** C5, as amended.  Provided the collation [localeCompare] is a consistent
    comparison (opposite signs, transitive strict order),
    [compareModifiers] orders the modifiers up to what the collation finds
    equal: the two comparisons of a pair have opposite signs; a zero result
    is returned only for modifiers of the same tier and rank whose texts
    (null read as the empty string) the collation finds equal, and such
    modifiers are the same modifier when their texts are the same; the
    strict order is transitive; any two modifiers are ordered one way or the
    other or compare equal, and they are ordered when the collation tells
    their texts apart; and sorting two arrays of groups that hold the same
    modifiers, in whatever order, gives the same sequence of modifiers when
    the collation tells the texts of these modifiers apart. *)
Theorem compareModifiers_orders_up_to_collation :
  (forall a b,
     Z.sgn (compareModifiers localeCompare a b)
     = - Z.sgn (compareModifiers localeCompare b a))
  /\ (forall a b,
        compareModifiers localeCompare a b = 0 ->
        priorityValue (getModifierPriority a)
        = priorityValue (getModifierPriority b)
        /\ getModifierSortOrder a = getModifierSortOrder b
        /\ localeCompare (orEmpty a) (orEmpty b) = 0
        /\ (orEmpty a = orEmpty b -> a = b))
  /\ (forall a b c,
        compareModifiers localeCompare a b < 0 ->
        compareModifiers localeCompare b c < 0 ->
        compareModifiers localeCompare a c < 0)
  /\ (forall a b,
        compareModifiers localeCompare a b < 0
        \/ compareModifiers localeCompare a b = 0
        \/ compareModifiers localeCompare b a < 0)
  /\ (forall a b,
        localeCompare (orEmpty a) (orEmpty b) <> 0 ->
        compareModifiers localeCompare a b < 0
        \/ compareModifiers localeCompare b a < 0)
  /\ (forall groups1 groups2,
        separatedBy localeCompare
          (List.map orEmpty (List.map ModifierGroup.modifier groups1)) ->
        Permutation (List.map ModifierGroup.modifier groups1)
                    (List.map ModifierGroup.modifier groups2) ->
        List.map ModifierGroup.modifier
                 (sortModifierGroups localeCompare groups1)
        = List.map ModifierGroup.modifier
                   (sortModifierGroups localeCompare groups2)).
Proof.
  split; [exact compareModifiers_antisym|].
  split.
  { intros a b H. destruct (compareModifiers_zero a b H) as (Et & Eo & Hlc).
    repeat split; try assumption. apply same_tier_same_text, Et. }
  split; [exact compareModifiers_trans|].
  split.
  { intros a b. pose proof (compareModifiers_antisym a b) as Hs. lia. }
  split.
  { intros a b Hne.
    pose proof (compareModifiers_antisym a b) as Hs.
    destruct (Z.eq_dec (compareModifiers localeCompare a b) 0) as [E | E].
    - apply compareModifiers_zero in E. destruct E as (_ & _ & E).
      contradiction.
    - lia. }
  intros groups1 groups2 Hsep Hp. unfold sortModifierGroups.
  rewrite !(map_arraySort (compareModifiers localeCompare)
              ModifierGroup.modifier).
  apply arraySort_permutation_invariant.
  - exact compareModifiers_antisym.
  - exact compareModifiers_trans.
  - apply compareModifiers_separated, Hsep.
  - exact Hp.
Qed.

End CompareModifiers.

(** With the collation that honours canonical equivalence: md: against
    hover:, and the groups of md:, hover: and the base classes sorted from
    two different orders. *)
Lemma compareModifiers_orders_up_to_collation_witness :
  Z.sgn (compareModifiers canonicalCompare (Some (js "md:"))
                          (Some (js "hover:")))
  = - Z.sgn (compareModifiers canonicalCompare (Some (js "hover:"))
                              (Some (js "md:")))
  /\ List.map ModifierGroup.modifier
       (sortModifierGroups canonicalCompare
          [ModifierGroup.mk (Some (js "md:")) [js "md:p-4"];
           ModifierGroup.mk (Some (js "hover:")) [js "hover:bg-blue"];
           ModifierGroup.mk None [js "bg-red"]])
     = List.map ModifierGroup.modifier
         (sortModifierGroups canonicalCompare
            [ModifierGroup.mk (Some (js "hover:")) [js "hover:bg-blue"];
             ModifierGroup.mk (Some (js "md:")) [js "md:p-4"];
             ModifierGroup.mk None [js "bg-red"]]).
Proof.
  destruct (compareModifiers_orders_up_to_collation canonicalCompare
              canonicalCompare_antisym canonicalCompare_trans)
    as (Hsgn & _ & _ & _ & _ & Hsort).
  split; [apply Hsgn|]. apply Hsort.
  - apply canonicalCompare_separates_plain.
    repeat constructor; simpl; intuition discriminate.
  - simpl. apply perm_swap.
Defined.

(** The claim as the spec states it fails for a collation that honours
    canonical equivalence, as the host's does: the modifier written with
    U+00E9 and the one written with e and U+0301 are different texts that
    compare equal, neither is ordered before the other, and the groups of
    the two sorted from the two orders stay in the order of the input. *)
Lemma compareModifiers_equates_equivalent_texts :
  compareModifiers canonicalCompare precomposedModifier combiningModifier = 0
  /\ compareModifiers canonicalCompare combiningModifier precomposedModifier
     = 0
  /\ orEmpty precomposedModifier <> orEmpty combiningModifier
  /\ List.map ModifierGroup.modifier
       (sortModifierGroups canonicalCompare
          [ModifierGroup.mk precomposedModifier [];
           ModifierGroup.mk combiningModifier []])
     <> List.map ModifierGroup.modifier
          (sortModifierGroups canonicalCompare
             [ModifierGroup.mk combiningModifier [];
              ModifierGroup.mk precomposedModifier []]).
Proof.
  split; [vm_compute; reflexivity|].
  split; [vm_compute; reflexivity|].
  split; [discriminate|].
  vm_compute. discriminate.
Qed.

(** ** The grouping map *)

Lemma mapHas_false_iff {V : Type} (m : JsMap V) (k : option jsstring) :
  mapHas m k = false <-> ~ In k (List.map fst m).
Proof.
  unfold mapHas. induction m as [|[k' v] m IH]; simpl.
  - tauto.
  - rewrite orb_false_iff, IH, opt_eqb_neq. tauto.
Qed.

Lemma mapHas_app {V : Type} (m1 m2 : JsMap V) (k : option jsstring) :
  mapHas (m1 ++ m2) k = mapHas m1 k || mapHas m2 k.
Proof. unfold mapHas. apply existsb_app. Qed.

Lemma mapSet_absent {V : Type} (m : JsMap V) (k : option jsstring) (v : V) :
  mapHas m k = false -> mapSet m k v = m ++ [(k, v)].
Proof.
  unfold mapHas. induction m as [|[k' v'] m IH]; simpl; [reflexivity|].
  intros H. apply orb_false_iff in H. destruct H as [Hk Hm].
  rewrite Hk, (IH Hm). reflexivity.
Qed.

Lemma mapMutate_at {V : Type} (m1 m2 : JsMap V) (k : option jsstring)
  (v : V) (f : V -> V) :
  mapHas m1 k = false ->
  mapMutate (m1 ++ (k, v) :: m2) k f = m1 ++ (k, f v) :: m2.
Proof.
  unfold mapHas. induction m1 as [|[k' v'] m1 IH]; simpl.
  - intros _. rewrite opt_eqb_refl. reflexivity.
  - intros H. apply orb_false_iff in H. destruct H as [Hk Hm].
    rewrite Hk, (IH Hm). reflexivity.
Qed.

(** A key that the map has splits the map at its entry. *)
Lemma mapHas_split {V : Type} (m : JsMap V) (k : option jsstring) :
  mapHas m k = true ->
  exists m1 v m2, m = m1 ++ (k, v) :: m2 /\ mapHas m1 k = false.
Proof.
  unfold mapHas. induction m as [|[k' v'] m IH]; simpl; [discriminate|].
  destruct (opt_eqb k' k) eqn:E.
  - intros _. apply opt_eqb_eq in E. subst k'. exists [], v', m.
    split; reflexivity.
  - simpl. intros H. destruct (IH H) as (m1 & v & m2 & Hm & Hk).
    exists ((k', v') :: m1), v, m2. subst m. split; [reflexivity|].
    simpl. rewrite E, Hk. reflexivity.
Qed.

Lemma pushToGroup_absent (m : JsMap (list jsstring)) (k : option jsstring)
  (c : jsstring) :
  mapHas m k = false -> pushToGroup m k c = m ++ [(k, [c])].
Proof.
  intros H. unfold pushToGroup. rewrite H. simpl.
  rewrite (mapSet_absent _ _ _ H).
  exact (mapMutate_at m [] k [] (fun group => group ++ [c]) H).
Qed.

Lemma pushToGroup_present (m1 m2 : JsMap (list jsstring))
  (k : option jsstring) (v : list jsstring) (c : jsstring) :
  mapHas m1 k = false ->
  pushToGroup (m1 ++ (k, v) :: m2) k c = m1 ++ (k, v ++ [c]) :: m2.
Proof.
  intros H. unfold pushToGroup.
  assert (mapHas (m1 ++ (k, v) :: m2) k = true) as Hhas.
  { rewrite mapHas_app. unfold mapHas at 2. simpl. rewrite opt_eqb_refl.
    apply orb_true_r. }
  rewrite Hhas. simpl.
  exact (mapMutate_at m1 m2 k v (fun group => group ++ [c]) H).
Qed.

(** Pushing a class under its own modifier keeps the keys distinct and the
    entries well formed. *)
Lemma pushToGroup_invariant (m : JsMap (list jsstring)) (c : jsstring) :
  NoDup (List.map fst m) -> Forall entryOk m ->
  NoDup (List.map fst (pushToGroup m (modifier (parseClass c)) c))
  /\ Forall entryOk (pushToGroup m (modifier (parseClass c)) c).
Proof.
  intros Hnd Hok. set (k := modifier (parseClass c)).
  destruct (mapHas m k) eqn:E.
  - destruct (mapHas_split m k E) as (m1 & v & m2 & Hm & Hk). subst m.
    rewrite (pushToGroup_present _ _ _ _ _ Hk). split.
    + rewrite map_app in *. exact Hnd.
    + apply Forall_app in Hok. destruct Hok as [H1 H2].
      inversion H2 as [|? ? [Hne Hall] H3]; subst.
      apply Forall_app. split; [exact H1|]. constructor; [|exact H3].
      split; simpl in *.
      * destruct v; discriminate.
      * apply Forall_app. split; [exact Hall|]. repeat constructor.
  - rewrite (pushToGroup_absent _ _ _ E). split.
    + rewrite map_app. simpl. apply NoDup_app_remove_l with (l := []).
      simpl. apply mapHas_false_iff in E.
      apply Permutation_NoDup with (l := k :: List.map fst m).
      * apply Permutation_cons_append.
      * constructor; assumption.
    + apply Forall_app. split; [exact Hok|]. repeat constructor.
      simpl. discriminate.
Qed.

Lemma groupInto_invariant (classes : list jsstring) :
  forall m,
    NoDup (List.map fst m) -> Forall entryOk m ->
    let m' :=
      fold_left
        (fun groups className =>
           pushToGroup groups (modifier (parseClass className)) className)
        classes m in
    NoDup (List.map fst m') /\ Forall entryOk m'.
Proof.
  induction classes as [|c classes IH]; intros m Hnd Hok; simpl.
  - split; assumption.
  - destruct (pushToGroup_invariant m c Hnd Hok) as [Hnd' Hok'].
    apply IH; assumption.
Qed.

Lemma groupClassesByModifier_invariant (classes : list jsstring) :
  NoDup (List.map fst (groupClassesByModifier classes))
  /\ Forall entryOk (groupClassesByModifier classes).
Proof.
  unfold groupClassesByModifier.
  apply (groupInto_invariant classes []); constructor.
Qed.

(** Classes of one modifier, pushed on a map whose last entry is theirs,
    extend that entry. *)
Lemma groupInto_same_key (cs : list jsstring) :
  forall (m : JsMap (list jsstring)) (k : option jsstring)
         (pre : list jsstring),
    mapHas m k = false ->
    Forall (fun className => modifier (parseClass className) = k) cs ->
    fold_left
      (fun groups className =>
         pushToGroup groups (modifier (parseClass className)) className)
      cs (m ++ [(k, pre)])
    = m ++ [(k, pre ++ cs)].
Proof.
  induction cs as [|c cs IH]; intros m k pre Hk Hall; simpl.
  - rewrite app_nil_r. reflexivity.
  - inversion Hall as [|? ? Hc Hcs]; subst.
    rewrite (pushToGroup_present m [] _ pre c Hk).
    rewrite (IH m _ (pre ++ [c]) Hk Hcs), <- app_assoc. reflexivity.
Qed.

(** Grouping the concatenation of well-formed entries with distinct keys
    gives these entries back, in their order. *)
Lemma groupInto_entries (entries : JsMap (list jsstring)) :
  forall m,
    NoDup (List.map fst (m ++ entries)) -> Forall entryOk entries ->
    fold_left
      (fun groups className =>
         pushToGroup groups (modifier (parseClass className)) className)
      (flat_map snd entries) m
    = m ++ entries.
Proof.
  induction entries as [|[k cs] entries IH]; intros m Hnd Hok; simpl.
  - rewrite app_nil_r. reflexivity.
  - inversion Hok as [|? ? [Hne Hall] Hok']; subst. simpl in Hne, Hall.
    assert (mapHas m k = false) as Hk.
    { apply mapHas_false_iff. rewrite map_app in Hnd. simpl in Hnd.
      apply NoDup_remove_2 in Hnd. intros Hin. apply Hnd.
      apply in_or_app. left. exact Hin. }
    rewrite fold_left_app.
    destruct cs as [|c cs]; [congruence|].
    inversion Hall as [|? ? Hc Hcs]; subst. simpl.
    rewrite (pushToGroup_absent _ _ _ Hk).
    rewrite (groupInto_same_key cs m _ [c] Hk Hcs). simpl.
    rewrite (IH (m ++ [(modifier (parseClass c), c :: cs)])).
    + rewrite <- app_assoc. reflexivity.
    + rewrite <- app_assoc. exact Hnd.
    + exact Hok'.
Qed.

Lemma groupClassesByModifier_entries (entries : JsMap (list jsstring)) :
  NoDup (List.map fst entries) -> Forall entryOk entries ->
  groupClassesByModifier (flat_map snd entries) = entries.
Proof.
  intros Hnd Hok. unfold groupClassesByModifier.
  apply (groupInto_entries entries []); assumption.
Qed.

(** ** C6: canonicalization is idempotent *)

Section Idempotence.

Variable localeCompare : jsstring -> jsstring -> Z.

(** Of two strings, the collation lets one stand before the other. *)
Hypothesis localeCompare_connected :
  forall a b, 0 < localeCompare a b -> localeCompare b a <= 0.

Lemma compareModifiers_connected (a b : option jsstring) :
  0 < compareModifiers localeCompare a b ->
  compareModifiers localeCompare b a <= 0.
Proof.
  pose proof (localeCompare_connected (orEmpty a) (orEmpty b)) as Hlc.
  unfold compareModifiers. compare_cases a b; compare_cases b a; lia.
Qed.

Lemma sorted_entry_canonical (e : option jsstring * list jsstring) :
  entryOk e ->
  canonicalGroup localeCompare
    (ModifierGroup.mk (fst e) (sortClassesInGroup localeCompare (snd e))).
Proof.
  intros [Hne Hall]. unfold canonicalGroup, entryOk, entryOf. simpl.
  pose proof (arraySort_perm localeCompare (snd e)) as Hp.
  fold (sortClassesInGroup localeCompare (snd e)) in Hp.
  repeat split.
  - intros E. rewrite E in Hp. apply Permutation_nil in Hp. congruence.
  - apply (Permutation_Forall (Permutation_sym Hp)). exact Hall.
  - apply arraySort_sorted. exact localeCompare_connected.
Qed.

Lemma sortClassesByModifierGroups_canonical (classes : list jsstring) :
  Forall (canonicalGroup localeCompare)
         (sortClassesByModifierGroups localeCompare classes)
  /\ NoDup (List.map ModifierGroup.modifier
              (sortClassesByModifierGroups localeCompare classes)).
Proof.
  unfold sortClassesByModifierGroups, sortModifierGroups.
  destruct (groupClassesByModifier_invariant classes) as [Hnd Hok].
  set (m := groupClassesByModifier classes) in *.
  set (cmpG := fun a b : ModifierGroup.t =>
                 compareModifiers localeCompare (ModifierGroup.modifier a)
                                  (ModifierGroup.modifier b)).
  set (gs := List.map
               (fun e => ModifierGroup.mk
                           (fst e) (sortClassesInGroup localeCompare (snd e)))
               m).
  pose proof (arraySort_perm cmpG gs) as Hp.
  split.
  - apply (Permutation_Forall (Permutation_sym Hp)).
    unfold gs. apply Forall_map.
    eapply Forall_impl; [|exact Hok].
    intros e He. apply sorted_entry_canonical, He.
  - apply (Permutation_NoDup
             (Permutation_map ModifierGroup.modifier (Permutation_sym Hp))).
    unfold gs. rewrite map_map. simpl. exact Hnd.
Qed.

(** Sorting the classes of canonical groups again changes nothing. *)
Lemma resort_canonical (groups : list ModifierGroup.t) :
  Forall (canonicalGroup localeCompare) groups ->
  List.map
    (fun x => ModifierGroup.mk
                (fst (entryOf x))
                (sortClassesInGroup localeCompare (snd (entryOf x))))
    groups
  = groups.
Proof.
  induction 1 as [|g groups [_ Hsorted] _ IH]; [reflexivity|].
  cbn [List.map]. rewrite IH. f_equal.
  unfold entryOf, sortClassesInGroup. cbn [fst snd].
  rewrite (arraySort_sorted_id _ _ Hsorted). destruct g. reflexivity.
Qed.

(** C6.  Provided the collation lets one of any two strings stand before
    the other, flattening the groups that [sortClassesByModifierGroups]
    returns and running it again on the flattened list gives the same
    sequence of groups: the same groups in the same order, each with the
    same classes in the same order. *)
Theorem sortClassesByModifierGroups_idempotent (classes : list jsstring) :
  sortClassesByModifierGroups localeCompare
    (flattenGroups (sortClassesByModifierGroups localeCompare classes))
  = sortClassesByModifierGroups localeCompare classes.
Proof.
  destruct (sortClassesByModifierGroups_canonical classes) as [Hcan Hnd].
  set (R := sortClassesByModifierGroups localeCompare classes) in *.
  assert (groupClassesByModifier (flattenGroups R) = List.map entryOf R)
    as Hgroup.
  { unfold flattenGroups.
    replace (flat_map ModifierGroup.classes R)
      with (flat_map snd (List.map entryOf R)).
    - apply groupClassesByModifier_entries.
      + rewrite map_map. exact Hnd.
      + apply Forall_map. eapply Forall_impl; [|exact Hcan].
        intros g [Hg _]. exact Hg.
    - clear. induction R as [|g R IH]; simpl; [reflexivity|].
      rewrite IH. reflexivity. }
  unfold sortClassesByModifierGroups at 1. rewrite Hgroup, map_map.
  replace (List.map
             (fun x => ModifierGroup.mk
                         (fst (entryOf x))
                         (sortClassesInGroup localeCompare (snd (entryOf x))))
             R)
    with R.
  - unfold R, sortClassesByModifierGroups, sortModifierGroups.
    apply arraySort_idempotent.
    intros a b. apply compareModifiers_connected.
  - symmetry. apply resort_canonical, Hcan.
Qed.

End Idempotence.

(** With the code-unit collation, on the classes of the canonicalization
    scenario of the specification. *)
Lemma sortClassesByModifierGroups_idempotent_witness :
  sortClassesByModifierGroups codeUnitCompare
    (flattenGroups
       (sortClassesByModifierGroups codeUnitCompare
          [js "md:p-4"; js "hover:bg-blue"; js "bg-red";
           js "hover:text-white"; js "focus:ring-2"]))
  = sortClassesByModifierGroups codeUnitCompare
      [js "md:p-4"; js "hover:bg-blue"; js "bg-red";
       js "hover:text-white"; js "focus:ring-2"].
Proof.
  apply (sortClassesByModifierGroups_idempotent codeUnitCompare
           codeUnitCompare_connected).
Defined.

(** ** Tokens: what parseClasses returns, and reading a joined string back *)

Lemma parseClass_full (className : jsstring) :
  full (parseClass className) = className.
Proof.
  unfold parseClass. destruct className as [|x s]; simpl; [reflexivity|].
  destruct (lastIndexOf (x :: s) colon =? -1); reflexivity.
Qed.

Lemma map_full_parseClass (classes : list jsstring) :
  List.map full (List.map parseClass classes) = classes.
Proof.
  induction classes as [|c classes IH]; simpl; [reflexivity|].
  rewrite parseClass_full, IH. reflexivity.
Qed.

(** The fields of [splitWs] hold no whitespace. *)
Lemma splitWsFrom_fields (s : jsstring) :
  forall inRun cur,
    Forall (fun c => isWhiteSpace c = false) cur ->
    Forall (Forall (fun c => isWhiteSpace c = false))
           (splitWsFrom inRun cur s).
Proof.
  induction s as [|x s IH]; intros inRun cur Hcur; simpl.
  - repeat constructor. exact Hcur.
  - destruct (isWhiteSpace x) eqn:E.
    + destruct inRun.
      * apply IH. constructor.
      * constructor; [exact Hcur|]. apply IH. constructor.
    + apply IH. apply Forall_app. split; [exact Hcur|].
      repeat constructor. exact E.
Qed.

Lemma parseClasses_tokens (classString : jsstring) :
  Forall isToken (List.map full (parseClasses classString)).
Proof.
  unfold parseClasses.
  destruct (negb (truthy classString) || negb (truthy (trim classString)));
    [constructor|].
  rewrite map_full_parseClass.
  apply Forall_forall. intros t Ht. apply filter_In in Ht.
  destruct Ht as [Hin Hne]. split.
  - destruct t; [discriminate|discriminate].
  - pose proof (splitWsFrom_fields (trim classString) false [] (Forall_nil _))
      as Hall.
    rewrite Forall_forall in Hall. apply Hall. exact Hin.
Qed.

Lemma classNamesOf_tokens (classStrings : list jsstring) :
  Forall isToken (classNamesOf classStrings).
Proof.
  unfold classNamesOf.
  induction classStrings as [|s rest IH]; simpl; [constructor|].
  apply Forall_app. split; [apply parseClasses_tokens|exact IH].
Qed.

(** A token at the start of a string goes into the current field. *)
Lemma splitWsFrom_token (t : jsstring) :
  forall cur rest,
    Forall (fun c => isWhiteSpace c = false) t ->
    splitWsFrom false cur (t ++ rest) = splitWsFrom false (cur ++ t) rest.
Proof.
  induction t as [|x t IH]; intros cur rest Ht; simpl.
  - rewrite app_nil_r. reflexivity.
  - inversion Ht as [|? ? Hx Ht']; subst. rewrite Hx.
    rewrite (IH _ _ Ht'), <- app_assoc. reflexivity.
Qed.

Lemma splitWsFrom_after_run (s : jsstring) :
  (exists x s', s = x :: s' /\ isWhiteSpace x = false) ->
  splitWsFrom true [] s = splitWsFrom false [] s.
Proof.
  intros (x & s' & -> & Hx). simpl. rewrite Hx. reflexivity.
Qed.

(** A joined list of tokens starts and ends with a character that is not
    whitespace. *)
Lemma join_tokens_head (t : jsstring) (toks : list jsstring) :
  isToken t ->
  exists x s', join [space] (t :: toks) = x :: s' /\ isWhiteSpace x = false.
Proof.
  intros [Hne Hall]. destruct t as [|x t]; [congruence|].
  inversion Hall as [|? ? Hx _]; subst.
  destruct toks as [|t' toks]; simpl.
  - exists x, t. split; [reflexivity|exact Hx].
  - eexists x, _. split; [reflexivity|exact Hx].
Qed.

Lemma join_tokens_last (toks : list jsstring) :
  toks <> [] -> Forall isToken toks ->
  exists pre x, join [space] toks = pre ++ [x] /\ isWhiteSpace x = false.
Proof.
  induction toks as [|t toks IH]; intros Hne Hall; [congruence|].
  inversion Hall as [|? ? [Htne Ht] Hrest]; subst.
  destruct toks as [|t' toks].
  - simpl. exists (removelast t), (last t 0%N). split.
    + apply app_removelast_last, Htne.
    + rewrite Forall_forall in Ht. apply Ht.
      destruct t as [|x t]; [congruence|].
      clear. revert x. induction t as [|y t IH]; intros x; simpl.
      * left. reflexivity.
      * right. apply IH.
  - destruct (IH ltac:(discriminate) Hrest) as (pre & x & Hj & Hx).
    exists (t ++ [space] ++ pre), x. split; [|exact Hx].
    change (join [space] (t :: t' :: toks))
      with (t ++ [space] ++ join [space] (t' :: toks)).
    rewrite Hj, <- !app_assoc. reflexivity.
Qed.

Lemma trim_joined_tokens (toks : list jsstring) :
  toks <> [] -> Forall isToken toks ->
  trim (join [space] toks) = join [space] toks.
Proof.
  intros Hne Hall. unfold trim, trimStart, trimEnd.
  destruct toks as [|t toks]; [congruence|].
  inversion Hall as [|? ? Ht _]; subst.
  destruct (join_tokens_head t toks Ht) as (x & s' & Hj & Hx).
  destruct (join_tokens_last (t :: toks) Hne Hall) as (pre & y & Hj' & Hy).
  replace (dropWhile isWhiteSpace (join [space] (t :: toks)))
    with (join [space] (t :: toks)).
  - rewrite Hj', rev_app_distr. simpl. rewrite Hy.
    change (y :: rev pre) with (rev [y] ++ rev pre).
    rewrite <- rev_app_distr, rev_involutive. reflexivity.
  - rewrite Hj. simpl. rewrite Hx. reflexivity.
Qed.

Lemma splitWs_joined_tokens (toks : list jsstring) :
  toks <> [] -> Forall isToken toks ->
  splitWs (join [space] toks) = toks.
Proof.
  unfold splitWs.
  induction toks as [|t toks IH]; intros Hne Hall; [congruence|].
  inversion Hall as [|? ? [Htne Ht] Hrest]; subst.
  destruct toks as [|t' toks].
  - simpl. rewrite <- (app_nil_r t) at 1.
    rewrite (splitWsFrom_token t [] [] Ht). reflexivity.
  - change (join [space] (t :: t' :: toks))
      with (t ++ space :: join [space] (t' :: toks)).
    rewrite (splitWsFrom_token t [] _ Ht).
    simpl app.
    change (splitWsFrom false t (space :: join [space] (t' :: toks)))
      with (t :: splitWsFrom true [] (join [space] (t' :: toks))).
    inversion Hrest as [|? ? Ht' _]; subst.
    rewrite (splitWsFrom_after_run _ (join_tokens_head t' toks Ht')).
    rewrite IH; [reflexivity|discriminate|exact Hrest].
Qed.

(** Reading back the classes of a string made by joining tokens with
    single spaces gives the tokens. *)
Lemma parseClasses_joined_tokens (toks : list jsstring) :
  toks <> [] -> Forall isToken toks ->
  List.map full (parseClasses (join [space] toks)) = toks.
Proof.
  intros Hne Hall. unfold parseClasses.
  rewrite (trim_joined_tokens toks Hne Hall).
  destruct toks as [|t toks]; [congruence|].
  inversion Hall as [|? ? Ht _]; subst.
  destruct (join_tokens_head t toks Ht) as (x & s' & Hj & Hx).
  rewrite Hj at 1 2. simpl negb. simpl orb. cbv iota.
  rewrite map_full_parseClass, (splitWs_joined_tokens _ Hne Hall).
  apply forallb_filter_id. apply forallb_forall. intros u Hu.
  rewrite Forall_forall in Hall. destruct (Hall u Hu) as [Hune _].
  destruct u; [congruence|reflexivity].
Qed.

(** ** The groups hold the classes they were made from *)

Lemma pushToGroup_perm (m : JsMap (list jsstring)) (k : option jsstring)
  (c : jsstring) :
  Permutation (flat_map snd (pushToGroup m k c)) (c :: flat_map snd m).
Proof.
  destruct (mapHas m k) eqn:E.
  - destruct (mapHas_split m k E) as (m1 & v & m2 & Hm & Hk). subst m.
    rewrite (pushToGroup_present _ _ _ _ _ Hk).
    rewrite !flat_map_app. simpl. rewrite <- !app_assoc. simpl.
    apply Permutation_sym.
    eapply perm_trans; [apply Permutation_middle|].
    apply Permutation_app_head.
    eapply perm_trans; [apply Permutation_middle|].
    apply Permutation_app_head.
    apply Permutation_refl.
  - rewrite (pushToGroup_absent _ _ _ E). rewrite flat_map_app. simpl.
    apply Permutation_sym, Permutation_cons_append.
Qed.

Lemma groupInto_perm (classes : list jsstring) :
  forall m,
    Permutation
      (flat_map snd
         (fold_left
            (fun groups className =>
               pushToGroup groups (modifier (parseClass className)) className)
            classes m))
      (flat_map snd m ++ classes).
Proof.
  induction classes as [|c classes IH]; intros m; simpl.
  - rewrite app_nil_r. apply Permutation_refl.
  - eapply perm_trans; [apply IH|].
    eapply perm_trans;
      [apply Permutation_app_tail, pushToGroup_perm|].
    simpl. apply Permutation_middle.
Qed.

Lemma groupClassesByModifier_perm (classes : list jsstring) :
  Permutation (flat_map snd (groupClassesByModifier classes)) classes.
Proof. apply (groupInto_perm classes []). Qed.

Lemma flat_map_perm_pointwise {A B : Type} (f g : A -> list B)
  (l : list A) :
  (forall x, Permutation (f x) (g x)) ->
  Permutation (flat_map f l) (flat_map g l).
Proof.
  intros H. induction l as [|x l IH]; simpl; [constructor|].
  apply Permutation_app; [apply H|exact IH].
Qed.

Section GroupsHoldClasses.

Variable localeCompare : jsstring -> jsstring -> Z.

Lemma sortClassesByModifierGroups_perm (classes : list jsstring) :
  Permutation
    (flattenGroups (sortClassesByModifierGroups localeCompare classes))
    classes.
Proof.
  unfold flattenGroups, sortClassesByModifierGroups, sortModifierGroups.
  eapply perm_trans;
    [apply Permutation_flat_map, arraySort_perm|].
  rewrite flat_map_concat_map, map_map, <- flat_map_concat_map. simpl.
  eapply perm_trans; [|apply groupClassesByModifier_perm].
  apply flat_map_perm_pointwise. intros e. apply arraySort_perm.
Qed.

Lemma sortClassesByModifierGroups_nonempty (classes : list jsstring) :
  Forall (fun g => ModifierGroup.classes g <> [])
         (sortClassesByModifierGroups localeCompare classes).
Proof.
  unfold sortClassesByModifierGroups, sortModifierGroups.
  eapply Permutation_Forall; [apply Permutation_sym, arraySort_perm|].
  apply Forall_map.
  destruct (groupClassesByModifier_invariant classes) as [_ Hok].
  eapply Forall_impl; [|exact Hok].
  intros e [Hne _]. simpl. intros E.
  pose proof (arraySort_perm localeCompare (snd e)) as Hp.
  unfold sortClassesInGroup in E. rewrite E in Hp.
  apply Permutation_nil in Hp. congruence.
Qed.

(** The new string arguments, read back, give the classes of the groups. *)
Lemma newStringArgumentsOf_classNames (groups : list ModifierGroup.t) :
  Forall (fun g => ModifierGroup.classes g <> []
                   /\ Forall isToken (ModifierGroup.classes g)) groups ->
  Permutation (classNamesOf (newStringArgumentsOf localeCompare groups))
              (flattenGroups groups).
Proof.
  unfold classNamesOf, flattenGroups, newStringArgumentsOf.
  induction 1 as [|g groups [Hne Htok] _ IH]; simpl; [constructor|].
  set (sorted := sortClassesInGroup localeCompare (ModifierGroup.classes g)).
  assert (Permutation sorted (ModifierGroup.classes g)) as Hp
    by apply arraySort_perm.
  assert (sorted <> []) as Hsne.
  { intros E. rewrite E in Hp. apply Permutation_nil in Hp. congruence. }
  assert (Forall isToken sorted) as Hstok
    by (apply (Permutation_Forall (Permutation_sym Hp)); exact Htok).
  destruct (ModifierGroup.classes g) as [|c cs] eqn:Ec; [congruence|].
  assert (truthy (join [space] sorted) = true) as Htr.
  { destruct sorted as [|t ts]; [congruence|].
    inversion Hstok as [|? ? Ht _]; subst.
    destruct (join_tokens_head t ts Ht) as (x & s' & -> & _). reflexivity. }
  rewrite Htr, flat_map_app. cbn [flat_map]. rewrite app_nil_r.
  rewrite (parseClasses_joined_tokens sorted Hsne Hstok).
  apply Permutation_app; [exact Hp|exact IH].
Qed.

End GroupsHoldClasses.

(** ** The argument list that the fix writes *)

Lemma collectAllClasses_classNames (argumentInfo : list ArgumentInfo) :
  collectAllClasses argumentInfo = classNamesOf (literalContents argumentInfo).
Proof.
  unfold collectAllClasses, classNamesOf, literalContents.
  induction argumentInfo as [|info rest IH]; simpl; [reflexivity|].
  destruct (hasClassString info); simpl; rewrite IH; reflexivity.
Qed.

Lemma addArgument_added (newStringArguments : list jsstring)
  (argumentInfo : list ArgumentInfo) :
  forall acc,
    fold_left (addArgument newStringArguments) argumentInfo (acc, true)
    = (acc ++ preservedTexts argumentInfo, true).
Proof.
  unfold preservedTexts.
  induction argumentInfo as [|info rest IH]; intros acc; simpl.
  - rewrite app_nil_r. reflexivity.
  - destruct (isStringLiteral info); simpl.
    + apply IH.
    + rewrite IH, <- app_assoc. reflexivity.
Qed.

(** The new strings enter the argument list once, as quoted strings, and
    the texts of the other arguments stay around them in their order. *)
Lemma buildAllArguments_shape (argumentInfo : list ArgumentInfo)
  (newStringArguments : list jsstring) :
  exists before after,
    buildAllArguments argumentInfo newStringArguments
    = before ++ List.map quoted newStringArguments ++ after
    /\ before ++ after = preservedTexts argumentInfo.
Proof.
  unfold buildAllArguments.
  assert (forall acc,
    (fold_left (addArgument newStringArguments) argumentInfo (acc, false)
     = (acc ++ preservedTexts argumentInfo, false))
    \/ (exists before after,
          fold_left (addArgument newStringArguments) argumentInfo (acc, false)
          = (acc ++ before ++ List.map quoted newStringArguments ++ after,
             true)
          /\ before ++ after = preservedTexts argumentInfo)) as H.
  { unfold preservedTexts.
    induction argumentInfo as [|info rest IH]; intros acc; simpl.
    - left. rewrite app_nil_r. reflexivity.
    - destruct (isStringLiteral info) eqn:E; simpl.
      + right. exists [], (preservedTexts rest).
        rewrite addArgument_added. simpl. rewrite <- app_assoc.
        split; reflexivity.
      + destruct (IH (acc ++ [sourceText (node info)]))
          as [Hn | (before & after & Hf & Hba)].
        * left. rewrite Hn, <- app_assoc. reflexivity.
        * right. exists (sourceText (node info) :: before), after.
          rewrite Hf, <- app_assoc. simpl. rewrite Hba.
          split; reflexivity. }
  destruct (H []) as [Hn | (before & after & Hf & Hba)].
  - rewrite Hn. simpl.
    exists (preservedTexts argumentInfo), [].
    rewrite !app_nil_r. split; [|reflexivity].
    destruct newStringArguments; simpl; [rewrite app_nil_r|]; reflexivity.
  - rewrite Hf. simpl. exists before, after. split; [reflexivity|exact Hba].
Qed.

(** ** C1: the tokens of the rewrite *)

Lemma Forall_flat_map_inv {A B : Type} (P : B -> Prop) (f : A -> list B)
  (l : list A) :
  Forall P (flat_map f l) -> Forall (fun x => Forall P (f x)) l.
Proof.
  induction l as [|x l IH]; simpl; intros H; [constructor|].
  apply Forall_app in H. destruct H as [Hx Hl].
  constructor; [exact Hx|apply IH, Hl].
Qed.

(** A quoted string denotes its content when the content holds no
    backslash and no line break. *)
Lemma stringLiteralValue_quoted (content : jsstring) :
  ~ In backslash content -> ~ In 10%N content -> ~ In 13%N content ->
  stringLiteralValue (quoted content) = Some content.
Proof.
  unfold quoted, stringLiteralValue. rewrite N.eqb_refl.
  induction content as [|c content IH]; intros Hb Hn Hr; [reflexivity|].
  assert (literalBodyValue (escapeQuotes content ++ [dquote]) = Some content)
    as IH'.
  { apply IH; intros H; [apply Hb|apply Hn|apply Hr]; right; exact H. }
  cbn [escapeQuotes]. destruct (N.eqb_spec c dquote) as [-> | Hq].
  - cbn [app literalBodyValue]. rewrite IH'. reflexivity.
  - cbn [app literalBodyValue].
    destruct (N.eqb_spec c dquote) as [|_]; [contradiction|].
    destruct (N.eqb_spec c backslash) as [-> | _];
      [exfalso; apply Hb; left; reflexivity|].
    destruct (N.eqb_spec c 10) as [-> | _];
      [exfalso; apply Hn; left; reflexivity|].
    destruct (N.eqb_spec c 13) as [-> | _];
      [exfalso; apply Hr; left; reflexivity|].
    cbn [orb]. rewrite IH'. reflexivity.
Qed.

Section RewriteTokens.

Variable localeCompare : jsstring -> jsstring -> Z.

(** The contents of the new string arguments hold the classes of the
    literal arguments, each as often as the input does. *)
Lemma newStringArguments_perm (argumentInfo : list ArgumentInfo) :
  Permutation
    (classNamesOf
       (newStringArgumentsOf localeCompare
          (sortClassesByModifierGroups localeCompare
             (collectAllClasses argumentInfo))))
    (classNamesOf (literalContents argumentInfo)).
Proof.
  rewrite <- collectAllClasses_classNames.
  set (allClasses := collectAllClasses argumentInfo).
  pose proof (sortClassesByModifierGroups_perm localeCompare allClasses)
    as Hp.
  eapply perm_trans; [|exact Hp].
  apply newStringArgumentsOf_classNames.
  assert (Forall isToken allClasses) as Htok.
  { unfold allClasses. rewrite collectAllClasses_classNames.
    apply classNamesOf_tokens. }
  apply (Permutation_Forall (Permutation_sym Hp)) in Htok.
  apply Forall_flat_map_inv in Htok.
  pose proof (sortClassesByModifierGroups_nonempty localeCompare allClasses)
    as Hne.
  rewrite Forall_forall in *. intros g Hg. split; [apply Hne|apply Htok];
    exact Hg.
Qed.

(** C1.  When [generateFunctionCallFix] produces a fix, its text is the
    argument list, joined by a comma and a space, in which the new string
    arguments stand as quoted strings between the unchanged texts of the
    arguments that are not string literals; and the classes in the contents
    of the new string arguments are the classes in the string literal
    arguments of the input, each as often as there.  The quoting puts a
    backslash before double quotes only: a quoted string denotes its
    content when the content holds no backslash (and no line break).  For
    the call of [cn] on the literal with the classes text-sm and
    before:content-['\f101'], the second class, which holds a backslash, is
    written into the replacement text as it is; the string argument that
    the text holds there denotes a string with a form feed, whose classes
    are before:content-[' and 101']: the input class is lost and two
    classes appear. *)
Theorem generateFunctionCallFix_tokens :
  (forall node argumentInfo preferredFunction,
     match
       generateFunctionCallFix localeCompare node argumentInfo
         preferredFunction
     with
     | None => True
     | Some f =>
         exists newStringArguments before after,
           text f
           = join (js ", ")
               (before ++ List.map quoted newStringArguments ++ after)
           /\ before ++ after = preservedTexts argumentInfo
           /\ Permutation (classNamesOf newStringArguments)
                          (classNamesOf (literalContents argumentInfo))
     end)
  /\ (forall content,
        ~ In backslash content -> ~ In 10%N content -> ~ In 13%N content ->
        stringLiteralValue (quoted content) = Some content)
  /\ classNamesOf (literalContents (extractArgumentInfo iconCall))
     = [js "text-sm"; iconClass]
  /\ In backslash iconClass
  /\ generateFunctionCallFix localeCompare iconCall
       (extractArgumentInfo iconCall) (js "cn")
     = Some {| fixRange := (3, 38);
               text := join (js ", ") [quoted (js "text-sm"); quoted iconClass]
            |}
  /\ quoted iconClass = [dquote] ++ iconClass ++ [dquote]
  /\ option_map (fun v => classNamesOf [v])
                (stringLiteralValue (quoted iconClass))
     = Some [js "before:content-['"; js "101']"].
Proof.
  split; [|split; [|split; [reflexivity|split;
    [|split; [reflexivity|split; reflexivity]]]]].
  - intros node argumentInfo preferredFunction.
    unfold generateFunctionCallFix.
    destruct (List.length (collectAllClasses argumentInfo) =? 0)%nat;
      [exact I|].
    destruct (List.length _ =? 0)%nat; [exact I|].
    destruct (List.length _ =? 0)%nat; [exact I|].
    destruct (arraysEqual _ _); [exact I|].
    destruct (nth_error (arguments node) 0) as [n0|]; [|exact I].
    destruct (option_map fst (range n0)) as [start|]; [|exact I].
    destruct (nth_error (arguments node) _) as [n1|]; [|exact I].
    destruct (option_map snd (range n1)) as [end_|]; [|exact I].
    destruct (buildAllArguments_shape argumentInfo
                (newStringArgumentsOf localeCompare
                   (sortClassesByModifierGroups localeCompare
                      (collectAllClasses argumentInfo))))
      as (before & after & Hshape & Hba).
    eexists _, before, after. simpl text. rewrite Hshape.
    split; [reflexivity|]. split; [exact Hba|].
    apply newStringArguments_perm.
  - exact stringLiteralValue_quoted.
  - unfold iconClass. simpl. tauto.
Qed.

End RewriteTokens.

(** * Further properties of the code *)

(** ** class-parser: what parseClasses keeps and what it drops *)

Lemma withoutWhiteSpace_dropWhile (s : jsstring) :
  withoutWhiteSpace (dropWhile isWhiteSpace s) = withoutWhiteSpace s.
Proof.
  unfold withoutWhiteSpace.
  induction s as [|x s IH]; simpl; [reflexivity|].
  destruct (isWhiteSpace x) eqn:E; simpl; [exact IH|].
  rewrite E. reflexivity.
Qed.

Lemma withoutWhiteSpace_trim (s : jsstring) :
  withoutWhiteSpace (trim s) = withoutWhiteSpace s.
Proof.
  unfold trim, trimEnd, trimStart.
  rewrite <- (withoutWhiteSpace_dropWhile s).
  set (t := dropWhile isWhiteSpace s).
  unfold withoutWhiteSpace at 1. rewrite filter_rev.
  fold (withoutWhiteSpace (dropWhile isWhiteSpace (rev t))).
  rewrite withoutWhiteSpace_dropWhile. unfold withoutWhiteSpace.
  rewrite filter_rev, rev_involutive. reflexivity.
Qed.

(** The fields of [splitWs], put together, are the characters that are not
    whitespace.  (Inside a run of whitespace the current field is empty.) *)
Lemma concat_splitWsFrom (s : jsstring) :
  forall inRun cur,
    (inRun = true -> cur = []) ->
    List.concat (splitWsFrom inRun cur s) = cur ++ withoutWhiteSpace s.
Proof.
  unfold withoutWhiteSpace.
  induction s as [|x s IH]; intros inRun cur Hrun; simpl.
  - rewrite !app_nil_r. reflexivity.
  - destruct (isWhiteSpace x) eqn:E; simpl.
    + destruct inRun; simpl.
      * rewrite (Hrun eq_refl). apply IH. reflexivity.
      * rewrite IH by reflexivity. reflexivity.
    + rewrite IH by discriminate. rewrite <- app_assoc. reflexivity.
Qed.

Lemma concat_filter_truthy (fields : list jsstring) :
  List.concat (filter truthy fields) = List.concat fields.
Proof.
  induction fields as [|f fields IH]; simpl; [reflexivity|].
  destruct f as [|c f]; simpl; [exact IH|]. rewrite IH. reflexivity.
Qed.

Lemma concat_parseClasses (classString : jsstring) :
  List.concat (List.map full (parseClasses classString))
  = withoutWhiteSpace classString.
Proof.
  unfold parseClasses.
  destruct classString as [|c0 rest] eqn:Es; [reflexivity|].
  rewrite <- Es. replace (truthy classString) with true by (subst; reflexivity).
  simpl negb. simpl orb.
  destruct (truthy (trim classString)) eqn:Et; simpl.
  - rewrite map_full_parseClass, concat_filter_truthy.
    unfold splitWs. rewrite concat_splitWsFrom by discriminate.
    simpl. apply withoutWhiteSpace_trim.
  - rewrite <- withoutWhiteSpace_trim.
    destruct (trim classString); [reflexivity|discriminate].
Qed.

(** X1.  The classes that [parseClasses] returns are non-empty and hold no
    whitespace, and put together in their order they are the input with its
    whitespace removed: the parser drops whitespace and nothing else, and
    never joins or reorders characters. *)
Theorem parseClasses_drops_whitespace_only (classString : jsstring) :
  Forall isToken (List.map full (parseClasses classString))
  /\ List.concat (List.map full (parseClasses classString))
     = withoutWhiteSpace classString
  /\ List.map parseClass (List.map full (parseClasses classString))
     = parseClasses classString.
Proof.
  split; [apply parseClasses_tokens|]. split; [apply concat_parseClasses|].
  unfold parseClasses.
  destruct (negb (truthy classString) || negb (truthy (trim classString)));
    [reflexivity|].
  rewrite map_full_parseClass. reflexivity.
Qed.

Lemma parseClasses_empty_gives_blank (classString : jsstring) :
  parseClasses classString = [] -> forallb isWhiteSpace classString = true.
Proof.
  intros H. pose proof (concat_parseClasses classString) as Hc.
  rewrite H in Hc. simpl in Hc. unfold withoutWhiteSpace in Hc.
  apply forallb_forall. intros c Hin.
  destruct (isWhiteSpace c) eqn:E; [reflexivity|].
  assert (In c (filter (fun c => negb (isWhiteSpace c)) classString)) as Hf.
  { apply filter_In. split; [exact Hin|]. rewrite E. reflexivity. }
  rewrite <- Hc in Hf. destruct Hf.
Qed.

(** X2.  [parseClasses] returns no class exactly when the string is empty
    or whitespace only. *)
Theorem parseClasses_empty_iff_blank (classString : jsstring) :
  parseClasses classString = [] <-> forallb isWhiteSpace classString = true.
Proof.
  split; [|apply parseClasses_blank].
  intros H. pose proof (concat_parseClasses classString) as Hc.
  rewrite H in Hc. simpl in Hc. unfold withoutWhiteSpace in Hc.
  apply forallb_forall. intros c Hin.
  destruct (isWhiteSpace c) eqn:E; [reflexivity|].
  assert (In c (filter (fun c => negb (isWhiteSpace c)) classString)) as Hf.
  { apply filter_In. split; [exact Hin|]. rewrite E. reflexivity. }
  rewrite <- Hc in Hf. destruct Hf.
Qed.

(** X3.  Reading back a string made by joining tokens with single spaces
    gives the tokens, in order: [parseClasses] inverts the join that the
    fixer uses to build an argument. *)
Theorem parseClasses_inverts_join (tokens : list jsstring) :
  Forall isToken tokens ->
  List.map full (parseClasses (join [space] tokens)) = tokens.
Proof.
  intros H. destruct tokens as [|t tokens]; [reflexivity|].
  apply parseClasses_joined_tokens; [discriminate|exact H].
Qed.

(** Concrete lists of tokens. *)
Ltac solve_tokens :=
  repeat (apply Forall_cons; [split; [discriminate|repeat constructor]|]);
  apply Forall_nil.

Lemma parseClasses_inverts_join_witness :
  List.map full
    (parseClasses (join [space] [js "hover:bg-red"; js "hover:text-white"]))
  = [js "hover:bg-red"; js "hover:text-white"].
Proof.
  apply (parseClasses_inverts_join [js "hover:bg-red"; js "hover:text-white"]).
  solve_tokens.
Defined.

(** The place of the last occurrence of a character is unique. *)
Lemma last_occurrence_unique (c : N) (p : jsstring) :
  forall p' b b',
    p ++ c :: b = p' ++ c :: b' ->
    includes b c = false -> includes b' c = false ->
    p = p' /\ b = b'.
Proof.
  induction p as [|x p IH]; intros p' b b' E Hb Hb'.
  - destruct p' as [|y p']; simpl in E.
    + inversion E. split; reflexivity.
    + inversion E; subst. exfalso.
      rewrite includes_app in Hb. simpl in Hb.
      rewrite N.eqb_refl in Hb. rewrite orb_true_r in Hb. discriminate.
  - destruct p' as [|y p']; simpl in E.
    + inversion E; subst. exfalso.
      rewrite includes_app in Hb'. simpl in Hb'.
      rewrite N.eqb_refl in Hb'. rewrite orb_true_r in Hb'. discriminate.
    + inversion E; subst. destruct (IH p' b b' H1 Hb Hb') as [-> ->].
      split; reflexivity.
Qed.

Lemma parseClass_of_parts (prefix base_ : jsstring) :
  includes base_ colon = false ->
  parseClass (prefix ++ colon :: base_)
  = {| full := prefix ++ colon :: base_;
       modifier := Some (prefix ++ [colon]);
       base := base_ |}.
Proof.
  intros Hb. unfold parseClass.
  assert (truthy (prefix ++ colon :: base_) = true) as Ht
    by (destruct prefix; reflexivity).
  rewrite Ht. simpl negb. cbv iota.
  destruct (lastIndexOf_spec (prefix ++ colon :: base_) colon)
    as [[Hno _] | (p & b & Hs & Hbb & Hi)].
  - rewrite includes_app in Hno. simpl in Hno.
    rewrite orb_true_r in Hno. discriminate.
  - destruct (last_occurrence_unique colon prefix p base_ b Hs Hb Hbb)
      as [<- <-].
    rewrite Hi.
    destruct (Z.of_nat (List.length prefix) =? -1) eqn:E;
      [apply Z.eqb_eq in E; lia|].
    replace (Z.of_nat (List.length prefix) + 1)
      with (Z.of_nat (List.length (prefix ++ [colon])))
      by (rewrite length_app; simpl; lia).
    assert (prefix ++ colon :: base_ = (prefix ++ [colon]) ++ base_) as Hs'
      by (rewrite <- app_assoc; reflexivity).
    rewrite slice_prefix, sliceFrom_suffix
      by (rewrite Hs', !length_app; lia).
    rewrite Hs' at 2 3.
    rewrite firstn_app, Nat.sub_diag, firstn_all, skipn_app, Nat.sub_diag,
      skipn_all. simpl. rewrite app_nil_r. reflexivity.
Qed.

(** X4.  Putting a modifier (a text and its colon) before a base that holds
    no colon and parsing the result gives the two parts back; a base with
    no colon alone parses to itself with no modifier.  So [parseClass] is
    the inverse of the concatenation of modifier and base. *)
Theorem parseClass_inverts_concatenation (prefix base_ : jsstring) :
  includes base_ colon = false ->
  parseClass (prefix ++ colon :: base_)
  = {| full := prefix ++ colon :: base_;
       modifier := Some (prefix ++ [colon]);
       base := base_ |}
  /\ parseClass base_
     = {| full := base_; modifier := None; base := base_ |}.
Proof.
  intros Hb. split; [apply parseClass_of_parts, Hb|].
  unfold parseClass. destruct base_ as [|c b]; [reflexivity|].
  simpl negb. cbv iota.
  destruct (lastIndexOf_spec (c :: b) colon)
    as [[_ Hi] | (p & b' & Hs & _ & _)].
  - rewrite Hi. reflexivity.
  - rewrite Hs, includes_app in Hb. simpl in Hb.
    rewrite orb_true_r in Hb. discriminate.
Qed.

Lemma parseClass_inverts_concatenation_witness :
  parseClass (js "md:hover" ++ colon :: js "bg-red")
  = {| full := js "md:hover:bg-red";
       modifier := Some (js "md:hover:");
       base := js "bg-red" |}
  /\ parseClass (js "bg-red")
     = {| full := js "bg-red"; modifier := None; base := js "bg-red" |}.
Proof.
  apply (parseClass_inverts_concatenation (js "md:hover") (js "bg-red")).
  reflexivity.
Defined.

(** ** class-grouper: the grouping is a stable partition *)

Lemma existsb_opt_eqb_In (k : option jsstring) (l : list (option jsstring)) :
  existsb (opt_eqb k) l = true <-> In k l.
Proof.
  rewrite existsb_exists. split.
  - intros (x & Hx & E). apply opt_eqb_eq in E. subst x. exact Hx.
  - intros H. exists k. split; [exact H|apply opt_eqb_refl].
Qed.

Lemma mapHas_keys {V : Type} (m : JsMap V) (k : option jsstring) :
  mapHas m k = existsb (opt_eqb k) (List.map fst m).
Proof.
  unfold mapHas. induction m as [|[k' v] m IH]; simpl; [reflexivity|].
  rewrite IH. f_equal.
  destruct (opt_eqb k' k) eqn:E.
  - apply opt_eqb_eq in E. subst. symmetry. apply opt_eqb_refl.
  - apply opt_eqb_neq in E. symmetry. apply opt_eqb_neq. congruence.
Qed.

Lemma classesOfModifier_app (k : option jsstring) (a b : list jsstring) :
  classesOfModifier k (a ++ b)
  = classesOfModifier k a ++ classesOfModifier k b.
Proof. unfold classesOfModifier. apply filter_app. Qed.

Lemma classesOfModifier_other (k : option jsstring) (c : jsstring) :
  modifierOf c <> k -> classesOfModifier k [c] = [].
Proof.
  intros H. unfold classesOfModifier. simpl.
  apply opt_eqb_neq in H. rewrite H. reflexivity.
Qed.

Lemma classesOfModifier_same (c : jsstring) :
  classesOfModifier (modifierOf c) [c] = [c].
Proof.
  unfold classesOfModifier. simpl. rewrite opt_eqb_refl. reflexivity.
Qed.

Lemma classesOfModifier_absent (k : option jsstring) (classes : list jsstring) :
  ~ In k (List.map modifierOf classes) -> classesOfModifier k classes = [].
Proof.
  unfold classesOfModifier.
  induction classes as [|c classes IH]; simpl; intros H; [reflexivity|].
  destruct (opt_eqb (modifierOf c) k) eqn:E.
  - apply opt_eqb_eq in E. exfalso. apply H. left. exact E.
  - apply IH. intros Hin. apply H. right. exact Hin.
Qed.

Lemma pushToGroup_state (m : JsMap (list jsstring)) (done : list jsstring)
  (c : jsstring) :
  groupingState m done ->
  groupingState (pushToGroup m (modifierOf c) c) (done ++ [c])
  /\ List.map fst (pushToGroup m (modifierOf c) c)
     = List.map fst m
       ++ (if existsb (opt_eqb (modifierOf c)) (List.map fst m) then []
           else [modifierOf c]).
Proof.
  intros (Hnd & Hall & Hkeys). set (k := modifierOf c).
  rewrite <- mapHas_keys. unfold groupingState.
  assert (forall e, In (fst e) (List.map fst m) -> fst e <> k ->
                    snd e = classesOfModifier (fst e) done ->
                    snd e = classesOfModifier (fst e) (done ++ [c])) as Hold.
  { intros e _ Hne He. rewrite classesOfModifier_app, <- He.
    rewrite classesOfModifier_other by (fold k; congruence).
    rewrite app_nil_r. reflexivity. }
  destruct (mapHas m k) eqn:E.
  - destruct (mapHas_split m k E) as (m1 & v & m2 & Hm & Hk1). subst m.
    rewrite (pushToGroup_present _ _ _ _ _ Hk1).
    rewrite !map_app in *. simpl in *. rewrite app_nil_r.
    split; [|reflexivity].
    split; [exact Hnd|]. split.
    + apply Forall_app in Hall. destruct Hall as [H1 H2].
      inversion H2 as [|? ? Hv H3]; subst. simpl in Hv.
      pose proof (NoDup_remove_2 _ _ _ Hnd) as Hnotin.
      apply Forall_app. split; [|constructor].
      * rewrite Forall_forall in *. intros e He.
        apply Hold; [apply in_or_app; left; apply in_map, He| |apply H1, He].
        intros Heq. apply Hnotin, in_or_app. left.
        rewrite <- Heq. apply in_map, He.
      * simpl. rewrite classesOfModifier_app, <- Hv.
        unfold k. rewrite classesOfModifier_same. reflexivity.
      * rewrite Forall_forall in *. intros e He.
        apply Hold; [apply in_or_app; right; right; apply in_map, He|
                     |apply H3, He].
        intros Heq. apply Hnotin, in_or_app. right.
        rewrite <- Heq. apply in_map, He.
    + intros c' Hc'. apply in_app_or in Hc'. destruct Hc' as [Hc' | [<- | []]].
      * apply (Hkeys c' Hc').
      * apply in_or_app. right. left. reflexivity.
  - rewrite (pushToGroup_absent _ _ _ E). rewrite map_app. simpl.
    split; [|reflexivity].
    pose proof (proj1 (mapHas_false_iff m k) E) as Hnotin.
    split; [|split].
    + apply NoDup_app_remove_l with (l := []). simpl.
      apply Permutation_NoDup with (l := k :: List.map fst m);
        [apply Permutation_cons_append|constructor; assumption].
    + apply Forall_app. split.
      * rewrite Forall_forall in *. intros e He.
        apply Hold; [apply in_map, He| |apply Hall, He].
        intros Heq. apply Hnotin. rewrite <- Heq. apply in_map, He.
      * repeat constructor. simpl.
        rewrite classesOfModifier_app. unfold k at 2.
        rewrite classesOfModifier_same.
        rewrite classesOfModifier_absent; [reflexivity|].
        intros Hin. apply in_map_iff in Hin. destruct Hin as (c' & Hk' & Hc').
        apply Hnotin. rewrite <- Hk'. apply Hkeys, Hc'.
    + intros c' Hc'. apply in_or_app.
      apply in_app_or in Hc'. destruct Hc' as [Hc' | [<- | []]].
      * left. apply Hkeys, Hc'.
      * right. left. reflexivity.
Qed.

Lemma groupInto_state (classes : list jsstring) :
  forall m done,
    groupingState m done ->
    let m' :=
      fold_left
        (fun groups className =>
           pushToGroup groups (modifier (parseClass className)) className)
        classes m in
    groupingState m' (done ++ classes)
    /\ List.map fst m'
       = List.map fst m
         ++ firstSeenFrom (List.map fst m) (List.map modifierOf classes).
Proof.
  induction classes as [|c classes IH]; intros m done Hst; simpl.
  - rewrite !app_nil_r. split; [exact Hst|reflexivity].
  - destruct (pushToGroup_state m done c Hst) as [Hst' Hkeys].
    fold (modifierOf c).
    destruct (IH _ _ Hst') as [Hfinal Hk].
    split.
    + rewrite <- app_assoc in Hfinal. exact Hfinal.
    + rewrite Hk, Hkeys.
      destruct (existsb (opt_eqb (modifierOf c)) (List.map fst m)).
      * rewrite app_nil_r. reflexivity.
      * rewrite <- app_assoc. reflexivity.
Qed.

Lemma groupClassesByModifier_state (classes : list jsstring) :
  groupingState (groupClassesByModifier classes) classes
  /\ List.map fst (groupClassesByModifier classes)
     = firstSeen (List.map modifierOf classes).
Proof.
  assert (groupingState [] []) as H0.
  { split; [constructor|]. split; [constructor|]. intros c []. }
  exact (groupInto_state classes [] [] H0).
Qed.

Lemma groupClassesByModifier_as_map (classes : list jsstring) :
  groupClassesByModifier classes
  = List.map (fun k => (k, classesOfModifier k classes))
             (firstSeen (List.map modifierOf classes)).
Proof.
  destruct (groupClassesByModifier_state classes) as [(_ & Hall & _) Hkeys].
  rewrite <- Hkeys. clear Hkeys.
  induction Hall as [|[k v] m He _ IH]; simpl; [reflexivity|].
  simpl in He. rewrite He, <- IH. reflexivity.
Qed.

(** X5.  [groupClassesByModifier] is a stable partition: its keys are the
    distinct modifiers of the classes in the order in which they are first
    seen, and under each key stand the classes that parse to it, in their
    input order. *)
Theorem groupClassesByModifier_stable_partition (classes : list jsstring) :
  groupClassesByModifier classes
  = List.map (fun k => (k, classesOfModifier k classes))
             (firstSeen (List.map modifierOf classes)).
Proof. apply groupClassesByModifier_as_map. Qed.

(** ** class-grouper: the predicates on one class string *)

Lemma fold_pushToGroup_parsed (parsed : list ParsedClass) :
  Forall (fun p => parseClass (full p) = p) parsed ->
  forall m,
    fold_left
      (fun groups p => pushToGroup groups (modifier p) (full p)) parsed m
    = fold_left
        (fun groups className =>
           pushToGroup groups (modifier (parseClass className)) className)
        (List.map full parsed) m.
Proof.
  induction 1 as [|p parsed Hp _ IH]; intros m; simpl; [reflexivity|].
  rewrite Hp. apply IH.
Qed.

Lemma parseClasses_parsed (classString : jsstring) :
  Forall (fun p => parseClass (full p) = p) (parseClasses classString).
Proof.
  unfold parseClasses.
  destruct (negb (truthy classString) || negb (truthy (trim classString)));
    [constructor|].
  apply Forall_map. apply Forall_forall. intros t _.
  rewrite parseClass_full. reflexivity.
Qed.

(** [groupClassString] groups the class names of the string as
    [groupClassesByModifier] does. *)
Lemma groupClassString_groups (classString : jsstring) :
  groupClassString classString
  = List.map (fun e => ModifierGroup.mk (fst e) (snd e))
             (groupClassesByModifier
                (List.map full (parseClasses classString))).
Proof.
  unfold groupClassString, createModifierGroups, groupClassesByModifier.
  rewrite (fold_pushToGroup_parsed _ (parseClasses_parsed classString)).
  reflexivity.
Qed.

Lemma modifierOf_full (classString : jsstring) :
  List.map modifierOf (List.map full (parseClasses classString))
  = modifiersIn classString.
Proof.
  unfold modifiersIn. rewrite map_map.
  pose proof (parseClasses_parsed classString) as H.
  induction H as [|p parsed Hp _ IH]; simpl; [reflexivity|].
  unfold modifierOf at 1. rewrite Hp, IH. reflexivity.
Qed.

Lemma slotKeys_eq (classString : jsstring) :
  List.map ModifierGroup.modifier (groupClassString classString)
  = List.map fst
      (groupClassesByModifier (List.map full (parseClasses classString))).
Proof. rewrite groupClassString_groups, map_map. reflexivity. Qed.

Lemma slotKeys_NoDup (classString : jsstring) :
  NoDup (List.map ModifierGroup.modifier (groupClassString classString)).
Proof.
  rewrite slotKeys_eq.
  apply (groupClassesByModifier_invariant
           (List.map full (parseClasses classString))).
Qed.

(** The keys of the groups of a class string are the modifiers of its
    classes. *)
Lemma slotKeys_In (classString : jsstring) (k : option jsstring) :
  In k (List.map ModifierGroup.modifier (groupClassString classString))
  <-> In k (modifiersIn classString).
Proof.
  rewrite slotKeys_eq, <- modifierOf_full.
  set (names := List.map full (parseClasses classString)).
  destruct (groupClassesByModifier_state names) as [(_ & Hall & Hkeys) _].
  destruct (groupClassesByModifier_invariant names) as [_ Hok].
  split.
  - intros Hin. apply in_map_iff in Hin. destruct Hin as ([k' v] & Hk & He).
    simpl in Hk. subst k'.
    rewrite Forall_forall in Hall, Hok.
    pose proof (Hall _ He) as Hv. destruct (Hok _ He) as [Hne _].
    simpl in Hv, Hne. destruct v as [|c v]; [congruence|].
    assert (In c (classesOfModifier k names)) as Hc
      by (rewrite <- Hv; left; reflexivity).
    apply filter_In in Hc. destruct Hc as [Hc Hk].
    apply opt_eqb_eq in Hk. rewrite <- Hk. apply in_map, Hc.
  - intros Hin. apply in_map_iff in Hin. destruct Hin as (c & Hk & Hc).
    rewrite <- Hk. apply Hkeys, Hc.
Qed.

Lemma NoDup_two {A : Type} (l : list A) :
  NoDup l ->
  ((1 < List.length l)%nat <-> exists a b, In a l /\ In b l /\ a <> b).
Proof.
  intros Hnd. split.
  - destruct l as [|a [|b l]]; simpl; try lia. intros _.
    exists a, b. split; [left; reflexivity|].
    split; [right; left; reflexivity|].
    inversion Hnd as [|? ? Hnotin _]; subst. intros ->.
    apply Hnotin. left. reflexivity.
  - intros (a & b & Ha & Hb & Hne).
    destruct l as [|x [|y l]]; simpl in *; [destruct Ha| |lia].
    destruct Ha as [<- | []], Hb as [<- | []]. congruence.
Qed.

Lemma hasMultipleModifierGroups_spec (classString : jsstring) :
  hasMultipleModifierGroups classString = true
  <-> exists p q,
        In p (parseClasses classString) /\ In q (parseClasses classString)
        /\ modifier p <> modifier q.
Proof.
  unfold hasMultipleModifierGroups.
  rewrite Nat.ltb_lt.
  rewrite <- (length_map ModifierGroup.modifier).
  rewrite (NoDup_two _ (slotKeys_NoDup classString)).
  split.
  - intros (a & b & Ha & Hb & Hne).
    apply slotKeys_In, in_map_iff in Ha. destruct Ha as (p & Hp & Hpin).
    apply slotKeys_In, in_map_iff in Hb. destruct Hb as (q & Hq & Hqin).
    exists p, q. repeat split; try assumption. congruence.
  - intros (p & q & Hp & Hq & Hne).
    exists (modifier p), (modifier q).
    split; [apply slotKeys_In, in_map, Hp|].
    split; [apply slotKeys_In, in_map, Hq|exact Hne].
Qed.

(** X6.  [hasMultipleModifierGroups] holds of a class string exactly when
    two of its classes parse to different modifiers (a class without a
    modifier counts as one of its own kind). *)
Theorem hasMultipleModifierGroups_iff (classString : jsstring) :
  hasMultipleModifierGroups classString = true
  <-> exists p q,
        In p (parseClasses classString) /\ In q (parseClasses classString)
        /\ modifier p <> modifier q.
Proof. apply hasMultipleModifierGroups_spec. Qed.

Lemma existsb_isNull_iff (classString : jsstring) :
  existsb (fun g => isNull (ModifierGroup.modifier g))
          (groupClassString classString) = true
  <-> In None (modifiersIn classString).
Proof.
  rewrite <- slotKeys_In, existsb_exists. split.
  - intros (g & Hg & Hn). destruct (ModifierGroup.modifier g) eqn:E;
      [discriminate|]. rewrite <- E. apply in_map, Hg.
  - intros H. apply in_map_iff in H. destruct H as (g & Hk & Hg).
    exists g. split; [exact Hg|]. rewrite Hk. reflexivity.
Qed.

Lemma existsb_notNull_iff (classString : jsstring) :
  existsb (fun g => negb (isNull (ModifierGroup.modifier g)))
          (groupClassString classString) = true
  <-> exists m, In (Some m) (modifiersIn classString).
Proof.
  rewrite existsb_exists. split.
  - intros (g & Hg & Hn). destruct (ModifierGroup.modifier g) as [m|] eqn:E;
      [|discriminate].
    exists m. apply slotKeys_In. rewrite <- E. apply in_map, Hg.
  - intros (m & H). apply slotKeys_In, in_map_iff in H.
    destruct H as (g & Hk & Hg).
    exists g. split; [exact Hg|]. rewrite Hk. reflexivity.
Qed.

Lemma mixesBaseAndModifiers_spec (classString : jsstring) :
  mixesBaseAndModifiers classString = true
  <-> In None (modifiersIn classString)
      /\ exists m, In (Some m) (modifiersIn classString).
Proof.
  unfold mixesBaseAndModifiers.
  rewrite andb_true_iff, existsb_isNull_iff, existsb_notNull_iff.
  reflexivity.
Qed.

(** X7.  [mixesBaseAndModifiers] holds of a class string exactly when one
    of its classes has no modifier and another has one; whenever it holds,
    [hasMultipleModifierGroups] holds too, so the third check of the rule
    can only fire on strings whose classes all have modifiers. *)
Theorem mixesBaseAndModifiers_iff (classString : jsstring) :
  (mixesBaseAndModifiers classString = true
   <-> (exists p, In p (parseClasses classString) /\ modifier p = None)
       /\ (exists q m, In q (parseClasses classString)
                       /\ modifier q = Some m))
  /\ (mixesBaseAndModifiers classString = true ->
      hasMultipleModifierGroups classString = true)
  /\ (hasMultipleModifierGroups classString = true ->
      mixesBaseAndModifiers classString = false ->
      forall p, In p (parseClasses classString) -> modifier p <> None).
Proof.
  assert (mixesBaseAndModifiers classString = true
          <-> (exists p, In p (parseClasses classString) /\ modifier p = None)
              /\ (exists q m, In q (parseClasses classString)
                              /\ modifier q = Some m)) as Hiff.
  { rewrite mixesBaseAndModifiers_spec. unfold modifiersIn. split.
    - intros [Hn (m & Hm)].
      apply in_map_iff in Hn. destruct Hn as (p & Hp & Hpin).
      apply in_map_iff in Hm. destruct Hm as (q & Hq & Hqin).
      split; [exists p|exists q, m]; split; assumption.
    - intros [(p & Hpin & Hp) (q & m & Hqin & Hq)]. split.
      + rewrite <- Hp. apply in_map, Hpin.
      + exists m. rewrite <- Hq. apply in_map, Hqin. }
  assert (forall p q,
            In p (parseClasses classString) ->
            In q (parseClasses classString) -> modifier p <> modifier q ->
            hasMultipleModifierGroups classString = true) as Hmul.
  { intros p q Hp Hq Hne. unfold hasMultipleModifierGroups.
    rewrite Nat.ltb_lt, <- (length_map ModifierGroup.modifier).
    apply (NoDup_two _ (slotKeys_NoDup classString)).
    exists (modifier p), (modifier q).
    split; [apply slotKeys_In, in_map, Hp|].
    split; [apply slotKeys_In, in_map, Hq|exact Hne]. }
  split; [exact Hiff|]. split.
  - intros H. apply Hiff in H.
    destruct H as [(p & Hpin & Hp) (q & m & Hqin & Hq)].
    apply (Hmul p q Hpin Hqin). congruence.
  - intros Hm Hmix p Hp Hnone.
    unfold hasMultipleModifierGroups in Hm.
    rewrite Nat.ltb_lt, <- (length_map ModifierGroup.modifier) in Hm.
    apply (NoDup_two _ (slotKeys_NoDup classString)) in Hm.
    destruct Hm as (a & b & Ha & Hb & Hne).
    assert (exists m, In (Some m) (modifiersIn classString)) as Hsome.
    { destruct a as [m|]; [exists m; apply slotKeys_In, Ha|].
      destruct b as [m|]; [exists m; apply slotKeys_In, Hb|congruence]. }
    assert (mixesBaseAndModifiers classString = true) as Hc.
    { apply mixesBaseAndModifiers_spec. split; [|exact Hsome].
      unfold modifiersIn. rewrite <- Hnone. apply in_map, Hp. }
    congruence.
Qed.

(** ** class-grouper: the modifiers named in the messages *)

Lemma getFirstModifier_of_mixed (classString : jsstring) :
  mixesBaseAndModifiers classString = true ->
  exists m, getFirstModifier classString = Some m
            /\ In (Some m) (modifiersIn classString).
Proof.
  unfold mixesBaseAndModifiers, getFirstModifier.
  intros H. apply andb_true_iff in H. destruct H as [_ H].
  apply existsb_exists in H. destruct H as (g0 & Hg0 & Hn0).
  destruct (find (fun g => negb (isNull (ModifierGroup.modifier g)))
                 (groupClassString classString)) as [g|] eqn:E.
  - apply find_some in E. destruct E as [Hg Hn].
    destruct (ModifierGroup.modifier g) as [m|] eqn:Em; [|discriminate].
    exists m. split; [reflexivity|].
    apply slotKeys_In. rewrite <- Em. apply in_map, Hg.
  - pose proof (find_none _ _ E g0 Hg0) as Hc. congruence.
Qed.

Lemma all_some_keys (keys : list (option jsstring)) :
  ~ In None keys -> exists ms, keys = List.map Some ms.
Proof.
  induction keys as [|[m|] keys IH]; intros H.
  - exists []. reflexivity.
  - destruct IH as (ms & ->); [intros Hin; apply H; right; exact Hin|].
    exists (m :: ms). reflexivity.
  - exfalso. apply H. left. reflexivity.
Qed.

Lemma getFirstTwoModifiers_of_multiple (classString : jsstring) :
  hasMultipleModifierGroups classString = true ->
  mixesBaseAndModifiers classString = false ->
  exists m1 m2,
    getFirstTwoModifiers classString = Some (m1, m2)
    /\ m1 <> m2
    /\ In (Some m1) (modifiersIn classString)
    /\ In (Some m2) (modifiersIn classString).
Proof.
  intros Hmul Hmix.
  pose proof (slotKeys_NoDup classString) as Hnd.
  assert (1 < List.length
                (List.map ModifierGroup.modifier
                          (groupClassString classString)))%nat as Hlen.
  { rewrite length_map. apply Nat.ltb_lt. exact Hmul. }
  assert (~ In None (List.map ModifierGroup.modifier
                              (groupClassString classString))) as Hnone.
  { intros Hin. apply slotKeys_In in Hin.
    pose proof (proj1 (NoDup_two _ Hnd) Hlen) as (a & b & Ha & Hb & Hne).
    assert (exists m, In (Some m) (modifiersIn classString)) as Hsome.
    { destruct a as [m|]; [exists m; apply slotKeys_In, Ha|].
      destruct b as [m|]; [exists m; apply slotKeys_In, Hb|congruence]. }
    assert (mixesBaseAndModifiers classString = true) as Hc
      by (apply mixesBaseAndModifiers_spec; split; assumption).
    congruence. }
  destruct (all_some_keys _ Hnone) as (ms & Hms).
  assert (flat_map (fun g => match ModifierGroup.modifier g with
                             | Some m => [m]
                             | None => []
                             end) (groupClassString classString) = ms) as Hfm.
  { clear - Hms. revert ms Hms.
    induction (groupClassString classString) as [|g gs IH]; intros ms Hms.
    - destruct ms; [reflexivity|discriminate].
    - destruct ms as [|m ms]; [discriminate|]. simpl in Hms.
      inversion Hms as [[Hm Hrest]]. simpl. rewrite Hm. simpl.
      rewrite (IH ms Hrest). reflexivity. }
  unfold getFirstTwoModifiers. rewrite Hfm.
  rewrite Hms, length_map in Hlen.
  destruct ms as [|m1 [|m2 ms]]; simpl in Hlen; try lia.
  exists m1, m2. simpl. split; [reflexivity|].
  rewrite Hms in Hnd. simpl in Hnd.
  inversion Hnd as [|? ? Hnotin _]; subst.
  split; [intros ->; apply Hnotin; left; reflexivity|].
  split; apply slotKeys_In; rewrite Hms; simpl; tauto.
Qed.

Section ReportData.

Variable localeCompare : jsstring -> jsstring -> Z.

(** What a per-slot report says about the slot it is made for. *)
Lemma checkArguments_data (node : CallExpressionNode)
  (argumentInfo : list ArgumentInfo) (preferredFunction : jsstring)
  (infos : list ArgumentInfo) :
  forall i r,
    checkArguments localeCompare node argumentInfo preferredFunction infos i
    = Some r ->
    exists info,
      In info infos
      /\ ((messageId r = mixedBaseAndModifiers
           /\ exists m,
                data r = [(js "modifier", m)]
                /\ In (Some m) (modifiersIn (orEmpty (classString info))))
          \/ (messageId r = multipleModifierGroups
              /\ exists m1 m2,
                   data r = [(js "modifier1", m1); (js "modifier2", m2)]
                   /\ m1 <> m2
                   /\ In (Some m1) (modifiersIn (orEmpty (classString info)))
                   /\ In (Some m2)
                         (modifiersIn (orEmpty (classString info))))).
Proof.
  induction infos as [|info rest IH]; intros i r; simpl; [discriminate|].
  assert (checkArguments localeCompare node argumentInfo preferredFunction
            rest (S i) = Some r ->
          exists info0,
            In info0 (info :: rest)
            /\ ((messageId r = mixedBaseAndModifiers
                 /\ exists m,
                      data r = [(js "modifier", m)]
                      /\ In (Some m)
                            (modifiersIn (orEmpty (classString info0))))
                \/ (messageId r = multipleModifierGroups
                    /\ exists m1 m2,
                         data r = [(js "modifier1", m1); (js "modifier2", m2)]
                         /\ m1 <> m2
                         /\ In (Some m1)
                               (modifiersIn (orEmpty (classString info0)))
                         /\ In (Some m2)
                               (modifiersIn (orEmpty (classString info0))))))
    as Hrest.
  { intros H. destruct (IH _ _ H) as (info0 & Hin & Hd).
    exists info0. split; [right; exact Hin|exact Hd]. }
  destruct (hasClassString info); simpl; [|exact Hrest].
  destruct (mixesBaseAndModifiers (orEmpty (classString info))) eqn:Hmix.
  - intros H. inversion H; subst r; clear H. simpl.
    exists info. split; [left; reflexivity|]. left. split; [reflexivity|].
    destruct (getFirstModifier_of_mixed _ Hmix) as (m & Hm & Hin).
    exists m. rewrite Hm. split; [reflexivity|exact Hin].
  - destruct (hasMultipleModifierGroups (orEmpty (classString info)))
      eqn:Hmul; [|exact Hrest].
    intros H. inversion H; subst r; clear H. simpl.
    exists info. split; [left; reflexivity|]. right. split; [reflexivity|].
    destruct (getFirstTwoModifiers_of_multiple _ Hmul Hmix)
      as (m1 & m2 & Hm & Hne & H1 & H2).
    exists m1, m2. rewrite Hm. repeat split; assumption.
Qed.

(** X8.  A report that [handleStandardFunctionCall] makes for one argument
    always names real modifiers of that argument: a mixedBaseAndModifiers
    report names a modifier of one of its classes, a
    multipleModifierGroups report names two different modifiers of its
    classes. *)
Theorem per_slot_reports_name_modifiers (node : CallExpressionNode)
  (preferredFunction : jsstring) :
  match handleStandardFunctionCall localeCompare node preferredFunction with
  | None => True
  | Some r =>
      messageId r = splitModifier
      \/ exists info,
           In info (extractArgumentInfo node)
           /\ ((messageId r = mixedBaseAndModifiers
                /\ exists m,
                     data r = [(js "modifier", m)]
                     /\ In (Some m)
                           (modifiersIn (orEmpty (classString info))))
               \/ (messageId r = multipleModifierGroups
                   /\ exists m1 m2,
                        data r = [(js "modifier1", m1); (js "modifier2", m2)]
                        /\ m1 <> m2
                        /\ In (Some m1)
                              (modifiersIn (orEmpty (classString info)))
                        /\ In (Some m2)
                              (modifiersIn (orEmpty (classString info)))))
  end.
Proof.
  unfold handleStandardFunctionCall.
  destruct (List.length _ =? 0)%nat; [exact I|].
  destruct (hasSplitModifiers _).
  - left. reflexivity.
  - destruct (checkArguments localeCompare node (extractArgumentInfo node)
                preferredFunction (extractArgumentInfo node) 0) as [r|] eqn:E;
      [|exact I].
    right. exact (checkArguments_data _ _ _ _ _ _ E).
Qed.

End ReportData.

(** ** class-grouper: modifiers split across strings *)

Lemma mapGet_mapSet {V : Type} (m : JsMap V) (k k' : option jsstring) (v : V) :
  mapGet (mapSet m k v) k'
  = if opt_eqb k k' then Some v else mapGet m k'.
Proof.
  induction m as [|[k0 v0] m IH]; simpl.
  - destruct (opt_eqb k k'); reflexivity.
  - destruct (opt_eqb k0 k) eqn:E0; simpl.
    + apply opt_eqb_eq in E0. subst k0.
      destruct (opt_eqb k k'); reflexivity.
    + rewrite IH. destruct (opt_eqb k0 k') eqn:E1; [|reflexivity].
      apply opt_eqb_eq in E1. subst k0. rewrite opt_eqb_neq in E0.
      destruct (opt_eqb k k') eqn:E2; [|reflexivity].
      apply opt_eqb_eq in E2. congruence.
Qed.

Lemma mapGet_mapMutate {V : Type} (m : JsMap V) (k k' : option jsstring)
  (f : V -> V) :
  mapGet (mapMutate m k f) k'
  = if opt_eqb k k' then option_map f (mapGet m k) else mapGet m k'.
Proof.
  induction m as [|[k0 v0] m IH]; simpl.
  - destruct (opt_eqb k k'); reflexivity.
  - destruct (opt_eqb k0 k) eqn:E0; simpl.
    + apply opt_eqb_eq in E0. subst k0.
      destruct (opt_eqb k k'); reflexivity.
    + rewrite IH. destruct (opt_eqb k0 k') eqn:E1; [|reflexivity].
      apply opt_eqb_eq in E1. subst k0. rewrite opt_eqb_neq in E0.
      destruct (opt_eqb k k') eqn:E2; [|reflexivity].
      apply opt_eqb_eq in E2. congruence.
Qed.

Lemma keys_mapMutate {V : Type} (m : JsMap V) (k : option jsstring)
  (f : V -> V) :
  List.map fst (mapMutate m k f) = List.map fst m.
Proof.
  induction m as [|[k0 v0] m IH]; simpl; [reflexivity|].
  destruct (opt_eqb k0 k); simpl; [reflexivity|]. rewrite IH. reflexivity.
Qed.

Lemma mapHas_mapGet {V : Type} (m : JsMap V) (k : option jsstring) :
  mapHas m k = match mapGet m k with Some _ => true | None => false end.
Proof.
  unfold mapHas. induction m as [|[k0 v0] m IH]; simpl; [reflexivity|].
  destruct (opt_eqb k0 k); simpl; [reflexivity|exact IH].
Qed.

Lemma In_mapGet {V : Type} (m : JsMap V) (k : option jsstring) (v : V) :
  NoDup (List.map fst m) -> (In (k, v) m <-> mapGet m k = Some v).
Proof.
  induction m as [|[k0 v0] m IH]; simpl; intros Hnd.
  - split; [intros []|discriminate].
  - inversion Hnd as [|? ? Hnotin Hnd']; subst.
    destruct (opt_eqb k0 k) eqn:E.
    + apply opt_eqb_eq in E. subst k0. split.
      * intros [H | H]; [congruence|].
        exfalso. apply Hnotin.
        apply (in_map fst) in H. exact H.
      * intros H. left. congruence.
    + apply opt_eqb_neq in E. rewrite <- (IH Hnd'). split.
      * intros [H | H]; [congruence|exact H].
      * intros H. right. exact H.
Qed.

Lemma In_setAdd_nat (s : list nat) (x y : nat) :
  In x (setAdd Nat.eqb s y) <-> In x s \/ x = y.
Proof.
  unfold setAdd, setHas. destruct (existsb (Nat.eqb y) s) eqn:E.
  - apply existsb_exists in E. destruct E as (z & Hz & Hyz).
    apply Nat.eqb_eq in Hyz. subst z. split; [tauto|].
    intros [H | ->]; assumption.
  - rewrite in_app_iff. simpl. split; intros [H | H]; auto.
    destruct H as [<- | []]. right. reflexivity.
Qed.

Lemma NoDup_setAdd_nat (s : list nat) (y : nat) :
  NoDup s -> NoDup (setAdd Nat.eqb s y).
Proof.
  intros H. unfold setAdd, setHas.
  destruct (existsb (Nat.eqb y) s) eqn:E; [exact H|].
  apply NoDup_app_remove_l with (l := []). simpl.
  apply Permutation_NoDup with (l := y :: s);
    [apply Permutation_cons_append|].
  constructor; [|exact H]. intros Hin.
  assert (existsb (Nat.eqb y) s = true) as E'.
  { apply existsb_exists. exists y. split; [exact Hin|apply Nat.eqb_refl]. }
  congruence.
Qed.

Lemma addSource_state (m : JsMap (list nat)) (done : list jsstring)
  (i : nat) (ks : list (option jsstring)) (k : option jsstring) :
  sourcesState m done i ks -> sourcesState (addSource i m k) done i (ks ++ [k]).
Proof.
  intros [Hnd Hget]. unfold addSource. split.
  - rewrite keys_mapMutate.
    destruct (mapHas m k) eqn:E; simpl; [exact Hnd|].
    rewrite (mapSet_absent _ _ _ E), map_app. simpl.
    apply NoDup_app_remove_l with (l := []). simpl.
    apply Permutation_NoDup with (l := k :: List.map fst m);
      [apply Permutation_cons_append|].
    constructor; [apply mapHas_false_iff, E|exact Hnd].
  - intros k'. rewrite mapGet_mapMutate.
    pose proof (Hget k') as Hk'. pose proof (Hget k) as Hk.
    rewrite mapHas_mapGet.
    destruct (opt_eqb k k') eqn:E.
    + apply opt_eqb_eq in E. subst k'.
      destruct (mapGet m k) as [sources|] eqn:Eg; simpl.
      * rewrite Eg. simpl. destruct Hk as [Hs Hin]. split.
        -- apply NoDup_setAdd_nat, Hs.
        -- intros j. rewrite In_setAdd_nat, Hin, in_app_iff. simpl.
           tauto.
      * rewrite mapGet_mapSet, opt_eqb_refl. simpl.
        destruct Hk as [Hno Hnk]. split.
        -- constructor; [intros []|constructor].
        -- intros j. rewrite in_app_iff. simpl. split.
           ++ intros [<- | []]. right. split; [reflexivity|].
              right. left. reflexivity.
           ++ intros [H | [-> _]]; [exfalso; apply (Hno j H)|].
              left. reflexivity.
    + assert (mapGet (if negb match mapGet m k with
                                 | Some _ => true
                                 | None => false
                                 end
                         then mapSet m k [] else m) k' = mapGet m k') as Hsame.
      { destruct (mapGet m k); simpl; [reflexivity|].
        rewrite mapGet_mapSet, E. reflexivity. }
      rewrite Hsame. apply opt_eqb_neq in E.
      destruct (mapGet m k') as [sources|].
      * destruct Hk' as [Hs Hin]. split; [exact Hs|].
        intros j. rewrite Hin, in_app_iff. simpl. split.
        -- intros [H | [H1 H2]]; [left; exact H|right; tauto].
        -- intros [H | [H1 [H2 | [H2 | []]]]];
             [left; exact H|right; tauto|congruence].
      * destruct Hk' as [Hno Hnk]. split; [exact Hno|].
        rewrite in_app_iff. simpl. intros [H | [H | []]];
          [apply Hnk, H|congruence].
Qed.

Lemma addSources_state (groups : list ModifierGroup.t) :
  forall m done i ks,
    sourcesState m done i ks ->
    sourcesState
      (fold_left
         (fun m group =>
            let k := ModifierGroup.modifier group in
            let m := if negb (mapHas m k) then mapSet m k [] else m in
            mapMutate m k (fun sources => setAdd Nat.eqb sources i))
         groups m)
      done i (ks ++ List.map ModifierGroup.modifier groups).
Proof.
  induction groups as [|g groups IH]; intros m done i ks Hst; simpl.
  - rewrite app_nil_r. exact Hst.
  - pose proof (addSource_state m done i ks (ModifierGroup.modifier g) Hst)
      as Hst'.
    apply IH in Hst'. rewrite <- app_assoc in Hst'. exact Hst'.
Qed.

Lemma occursIn_snoc (done : list jsstring) (s : jsstring)
  (k : option jsstring) (j : nat) :
  occursIn (done ++ [s]) k j
  <-> occursIn done k j \/ (j = List.length done /\ In k (modifiersIn s)).
Proof.
  unfold occursIn. split.
  - intros (s' & Hn & Hk).
    destruct (Nat.lt_ge_cases j (List.length done)) as [Hlt | Hge].
    + rewrite nth_error_app1 in Hn by exact Hlt.
      left. exists s'. split; assumption.
    + rewrite nth_error_app2 in Hn by exact Hge.
      destruct (j - List.length done)%nat as [|n] eqn:E; simpl in Hn.
      * inversion Hn. subst s'. right. split; [lia|exact Hk].
      * destruct n; discriminate.
  - intros [(s' & Hn & Hk) | [-> Hk]].
    + exists s'. split; [|exact Hk].
      rewrite nth_error_app1; [exact Hn|].
      apply nth_error_Some. congruence.
    + exists s. split; [|exact Hk].
      rewrite nth_error_app2, Nat.sub_diag by lia. reflexivity.
Qed.

Lemma collectSources_state (rest : list jsstring) :
  forall m done,
    sourcesState m done (List.length done) [] ->
    sourcesState (collectSources rest (List.length done) m)
                 (done ++ rest) (List.length (done ++ rest)) [].
Proof.
  induction rest as [|s rest IH]; intros m done Hst; simpl.
  - rewrite app_nil_r. exact Hst.
  - pose proof (addSources_state (groupClassString s) m done
                  (List.length done) [] Hst) as Hst'.
    simpl in Hst'.
    set (m' := fold_left _ (groupClassString s) m) in *.
    assert (sourcesState m' (done ++ [s]) (List.length (done ++ [s])) [])
      as Hnext.
    { destruct Hst' as [Hnd Hget]. split; [exact Hnd|].
      intros k. specialize (Hget k).
      destruct (mapGet m' k) as [sources|].
      - destruct Hget as [Hs Hin]. split; [exact Hs|].
        intros j. rewrite Hin, occursIn_snoc, slotKeys_In. simpl. tauto.
      - destruct Hget as [Hno Hnk]. split; [|intros []].
        intros j Hj. apply occursIn_snoc in Hj.
        destruct Hj as [Hj | [_ Hj]]; [apply (Hno j Hj)|].
        apply Hnk, slotKeys_In, Hj. }
    replace (S (List.length done)) with (List.length (done ++ [s]))
      by (rewrite length_app; simpl; lia).
    specialize (IH m' (done ++ [s]) Hnext).
    rewrite <- app_assoc in IH. exact IH.
Qed.

(** The map that both functions build: distinct keys, and under each key
    the indices of the strings in which it occurs, each once. *)
Lemma collectSources_spec (classStrings : list jsstring) :
  NoDup (List.map fst (collectSources classStrings 0 []))
  /\ forall k,
       match mapGet (collectSources classStrings 0 []) k with
       | Some sources =>
           NoDup sources /\ forall j, In j sources <-> occursIn classStrings k j
       | None => forall j, ~ occursIn classStrings k j
       end.
Proof.
  assert (sourcesState [] [] 0 []) as H0.
  { split; [constructor|]. intros k. simpl. split; [|intros []].
    intros j (s & Hn & _). destruct j; discriminate. }
  destruct (collectSources_state classStrings [] [] H0) as [Hnd Hget].
  simpl in Hnd, Hget. split; [exact Hnd|].
  intros k. specialize (Hget k).
  destruct (mapGet (collectSources classStrings 0 []) k) as [sources|].
  - destruct Hget as [Hs Hin]. split; [exact Hs|].
    intros j. rewrite Hin. tauto.
  - apply Hget.
Qed.

Lemma hasSplitModifiers_spec (classStrings : list jsstring) :
  hasSplitModifiers classStrings = true
  <-> exists k i j,
        i <> j /\ occursIn classStrings k i /\ occursIn classStrings k j.
Proof.
  destruct (collectSources_spec classStrings) as [Hnd Hget].
  unfold hasSplitModifiers. rewrite existsb_exists. split.
  - intros ([k sources] & Hin & Hlen). simpl in Hlen.
    apply Nat.ltb_lt in Hlen.
    apply (In_mapGet _ _ _ Hnd) in Hin.
    specialize (Hget k). rewrite Hin in Hget. destruct Hget as [Hs Hocc].
    apply (NoDup_two _ Hs) in Hlen. destruct Hlen as (i & j & Hi & Hj & Hne).
    exists k, i, j. split; [exact Hne|]. split; apply Hocc; assumption.
  - intros (k & i & j & Hne & Hi & Hj).
    specialize (Hget k).
    destruct (mapGet (collectSources classStrings 0 []) k) as [sources|]
      eqn:E; [|exfalso; apply (Hget i Hi)].
    destruct Hget as [Hs Hocc].
    exists (k, sources). split; [apply (In_mapGet _ _ _ Hnd), E|].
    simpl. apply Nat.ltb_lt. apply (NoDup_two _ Hs).
    exists i, j. split; [apply Hocc, Hi|]. split; [apply Hocc, Hj|exact Hne].
Qed.

(** X9.  [hasSplitModifiers] holds exactly when some group key, the null
    key of the classes without modifier included, is the modifier of a
    class in two strings at different positions. *)
Theorem hasSplitModifiers_iff (classStrings : list jsstring) :
  hasSplitModifiers classStrings = true
  <-> exists k i j,
        i <> j /\ occursIn classStrings k i /\ occursIn classStrings k j.
Proof. apply hasSplitModifiers_spec. Qed.

(** X10.  When [getSplitModifier] returns a modifier, that modifier is the
    modifier of a class in two strings at different positions; it returns
    null exactly when no modifier is, whatever the classes without modifier
    do. *)
Theorem getSplitModifier_spec (classStrings : list jsstring) :
  match getSplitModifier classStrings with
  | Some m =>
      exists i j,
        i <> j /\ occursIn classStrings (Some m) i
        /\ occursIn classStrings (Some m) j
  | None =>
      forall m i j,
        occursIn classStrings (Some m) i ->
        occursIn classStrings (Some m) j -> i = j
  end.
Proof.
  destruct (collectSources_spec classStrings) as [Hnd Hget].
  unfold getSplitModifier.
  destruct (find _ (collectSources classStrings 0 [])) as [[k sources]|] eqn:E.
  - apply find_some in E. destruct E as [Hin Hp]. simpl in Hp.
    apply andb_true_iff in Hp. destruct Hp as [Hlen Hnn].
    destruct k as [m|]; [|discriminate]. simpl.
    apply Nat.ltb_lt in Hlen. apply (In_mapGet _ _ _ Hnd) in Hin.
    specialize (Hget (Some m)). rewrite Hin in Hget.
    destruct Hget as [Hs Hocc].
    apply (NoDup_two _ Hs) in Hlen. destruct Hlen as (i & j & Hi & Hj & Hne).
    exists i, j. split; [exact Hne|]. split; apply Hocc; assumption.
  - intros m i j Hi Hj.
    destruct (Nat.eq_dec i j) as [Heq | Hne]; [exact Heq|]. exfalso.
    specialize (Hget (Some m)).
    destruct (mapGet (collectSources classStrings 0 []) (Some m))
      as [sources|] eqn:Eg; [|apply (Hget i Hi)].
    destruct Hget as [Hs Hocc].
    apply (In_mapGet _ _ _ Hnd) in Eg.
    pose proof (find_none _ _ E _ Eg) as Hf. simpl in Hf.
    rewrite andb_true_r in Hf. apply Nat.ltb_ge in Hf.
    assert (1 < List.length sources)%nat; [|lia].
    apply (NoDup_two _ Hs). exists i, j.
    split; [apply Hocc, Hi|]. split; [apply Hocc, Hj|exact Hne].
Qed.

(** ** class-sorter: the order of the groups *)

Section SortedByKey.

Context {A : Type}.
Variable cmp : A -> A -> Z.
Variable key : A -> Z.

(** The comparator decides by the key when the keys differ. *)
Hypothesis cmp_key_lt : forall a b, key a < key b -> cmp a b < 0.
Hypothesis cmp_key_gt : forall a b, key b < key a -> 0 < cmp a b.

Lemma sortInsert_by_key (x : A) (l : list A) :
  Sorted (fun a b => key a <= key b) l ->
  Sorted (fun a b => key a <= key b) (sortInsert cmp x l).
Proof.
  induction 1 as [|y l Hs IH Hhd]; simpl.
  - repeat constructor.
  - destruct (cmp x y <=? 0) eqn:E.
    + apply Z.leb_le in E. constructor; [constructor; assumption|].
      constructor. destruct (Z.lt_ge_cases (key y) (key x)) as [Hlt | Hge];
        [pose proof (cmp_key_gt x y Hlt); lia|lia].
    + apply Z.leb_gt in E.
      assert (key y <= key x) as Hyx.
      { destruct (Z.lt_ge_cases (key x) (key y)) as [Hlt | Hge];
          [pose proof (cmp_key_lt x y Hlt); lia|lia]. }
      constructor; [exact IH|].
      destruct Hhd as [|z l Hyz]; simpl.
      * constructor. exact Hyx.
      * destruct (cmp x z <=? 0); constructor; assumption.
Qed.

Lemma arraySort_by_key (l : list A) :
  StronglySorted (fun a b => key a <= key b) (arraySort cmp l).
Proof.
  apply Sorted_StronglySorted; [intros a b c; lia|].
  induction l as [|x l IH]; simpl; [constructor|].
  apply sortInsert_by_key, IH.
Qed.

End SortedByKey.

Lemma priorityValue_nonneg (p : ModifierPriority) : 0 <= priorityValue p.
Proof. destruct p; simpl; lia. Qed.

Lemma priorityValue_zero (p : ModifierPriority) :
  priorityValue p = 0 -> p = BASE.
Proof. destruct p; simpl; intros H; try discriminate; reflexivity. Qed.

(** Only the null modifier is in the base tier. *)
Lemma getModifierPriority_base (m : option jsstring) :
  getModifierPriority m = BASE <-> m = None.
Proof.
  split; [|intros ->; reflexivity].
  destruct m as [m|]; [|reflexivity].
  unfold getModifierPriority.
  repeat match goal with
         | |- context [if ?b then _ else _] => destruct b
         end; discriminate.
Qed.

Section TierOrder.

Variable localeCompare : jsstring -> jsstring -> Z.

Lemma compareModifiers_tier_lt (a b : option jsstring) :
  priorityValue (getModifierPriority a) < priorityValue (getModifierPriority b)
  -> compareModifiers localeCompare a b < 0.
Proof.
  intros H. unfold compareModifiers.
  destruct (Z.eqb_spec (priorityValue (getModifierPriority a))
                       (priorityValue (getModifierPriority b)));
    simpl; lia.
Qed.

Lemma compareModifiers_tier_gt (a b : option jsstring) :
  priorityValue (getModifierPriority b) < priorityValue (getModifierPriority a)
  -> 0 < compareModifiers localeCompare a b.
Proof.
  intros H. unfold compareModifiers.
  destruct (Z.eqb_spec (priorityValue (getModifierPriority a))
                       (priorityValue (getModifierPriority b)));
    simpl; lia.
Qed.

(** X11.  Whatever the collation does, [sortModifierGroups] returns the
    groups in the order of their tiers: a group never stands before a group
    of a lower tier.  The collation and the rank within a tier only order
    groups of one tier. *)
Theorem sortModifierGroups_tier_order (groups : list ModifierGroup.t) :
  StronglySorted (fun g1 g2 => groupPriority g1 <= groupPriority g2)
                 (sortModifierGroups localeCompare groups)
  /\ Permutation (sortModifierGroups localeCompare groups) groups.
Proof.
  split; [|apply arraySort_perm].
  unfold sortModifierGroups. apply arraySort_by_key.
  - intros a b. apply compareModifiers_tier_lt.
  - intros a b. apply compareModifiers_tier_gt.
Qed.

Lemma sortClassesByModifierGroups_keys (classes : list jsstring) :
  Permutation
    (List.map ModifierGroup.modifier
              (sortClassesByModifierGroups localeCompare classes))
    (List.map fst (groupClassesByModifier classes)).
Proof.
  unfold sortClassesByModifierGroups, sortModifierGroups.
  eapply perm_trans; [apply Permutation_map, arraySort_perm|].
  rewrite map_map. simpl. apply Permutation_refl.
Qed.

(** X12.  When some class has no modifier, the group of the classes
    without modifier is the first group of the canonical result, whatever
    the collation does, and it is the only group without modifier. *)
Theorem base_group_first (classes : list jsstring) (className : jsstring) :
  In className classes -> modifierOf className = None ->
  exists g rest,
    sortClassesByModifierGroups localeCompare classes = g :: rest
    /\ ModifierGroup.modifier g = None
    /\ Forall (fun g' => ModifierGroup.modifier g' <> None) rest.
Proof.
  intros Hin Hnone.
  pose proof (sortClassesByModifierGroups_keys classes) as Hkeys.
  destruct (groupClassesByModifier_state classes) as [(Hnd & _ & Hcov) _].
  assert (In None (List.map ModifierGroup.modifier
                     (sortClassesByModifierGroups localeCompare classes)))
    as Hn.
  { apply (Permutation_in _ (Permutation_sym Hkeys)).
    rewrite <- Hnone. apply Hcov, Hin. }
  assert (NoDup (List.map ModifierGroup.modifier
                   (sortClassesByModifierGroups localeCompare classes)))
    as Hnd'
    by (apply (Permutation_NoDup (Permutation_sym Hkeys)); exact Hnd).
  assert (StronglySorted
            (fun g1 g2 => groupPriority g1 <= groupPriority g2)
            (sortClassesByModifierGroups localeCompare classes)) as Hs.
  { unfold sortClassesByModifierGroups, sortModifierGroups.
    apply arraySort_by_key.
    - intros a b. apply compareModifiers_tier_lt.
    - intros a b. apply compareModifiers_tier_gt. }
  destruct (sortClassesByModifierGroups localeCompare classes) as [|g rest];
    [destruct Hn|].
  exists g, rest. split; [reflexivity|].
  inversion Hs as [|? ? _ Hall]; subst.
  simpl in Hnd'. inversion Hnd' as [|? ? Hnotin _]; subst.
  assert (ModifierGroup.modifier g = None) as Hg.
  { destruct Hn as [Hn | Hn]; [exact Hn|].
    apply in_map_iff in Hn. destruct Hn as (g0 & Hg0 & Hin0).
    rewrite Forall_forall in Hall. specialize (Hall g0 Hin0).
    unfold groupPriority in Hall. rewrite Hg0 in Hall. simpl in Hall.
    pose proof (priorityValue_nonneg
                  (getModifierPriority (ModifierGroup.modifier g))) as Hge.
    apply getModifierPriority_base, priorityValue_zero. lia. }
  split; [exact Hg|].
  apply Forall_forall. intros g' Hg' Heq. apply Hnotin.
  rewrite Hg, <- Heq. apply in_map, Hg'.
Qed.

End TierOrder.

Lemma base_group_first_witness :
  exists g rest,
    sortClassesByModifierGroups codeUnitCompare
      [js "md:p-4"; js "hover:bg-blue"; js "bg-red"] = g :: rest
    /\ ModifierGroup.modifier g = None
    /\ Forall (fun g' => ModifierGroup.modifier g' <> None) rest.
Proof.
  apply (base_group_first codeUnitCompare
           [js "md:p-4"; js "hover:bg-blue"; js "bg-red"] (js "bg-red")).
  - simpl. tauto.
  - reflexivity.
Defined.

(** ** class-sorter: the canonical result *)

Lemma groupKeys_In (classes : list jsstring) (k : option jsstring) :
  In k (List.map fst (groupClassesByModifier classes))
  <-> In k (List.map modifierOf classes).
Proof.
  destruct (groupClassesByModifier_state classes) as [(_ & Hall & Hkeys) _].
  destruct (groupClassesByModifier_invariant classes) as [_ Hok].
  split.
  - intros Hin. apply in_map_iff in Hin. destruct Hin as ([k' v] & Hk & He).
    simpl in Hk. subst k'.
    rewrite Forall_forall in Hall, Hok.
    pose proof (Hall _ He) as Hv. destruct (Hok _ He) as [Hne _].
    simpl in Hv, Hne. destruct v as [|c v]; [congruence|].
    assert (In c (classesOfModifier k classes)) as Hc
      by (rewrite <- Hv; left; reflexivity).
    apply filter_In in Hc. destruct Hc as [Hc Hk].
    apply opt_eqb_eq in Hk. rewrite <- Hk. apply in_map, Hc.
  - intros Hin. apply in_map_iff in Hin. destruct Hin as (c & Hk & Hc).
    rewrite <- Hk. apply Hkeys, Hc.
Qed.

Section CanonicalResult.

Variable localeCompare : jsstring -> jsstring -> Z.

(** The groups of the canonical result partition the input. *)
Lemma sortedGroups_partition (classes : list jsstring) :
  let groups := sortClassesByModifierGroups localeCompare classes in
  Permutation (flattenGroups groups) classes
  /\ NoDup (List.map ModifierGroup.modifier groups)
  /\ Forall groupHoldsOwnClasses groups
  /\ (forall k, In k (List.map ModifierGroup.modifier groups)
                <-> In k (List.map modifierOf classes)).
Proof.
  intros groups.
  pose proof (sortClassesByModifierGroups_keys localeCompare classes) as Hkeys.
  destruct (groupClassesByModifier_invariant classes) as [Hnd Hok].
  split; [apply sortClassesByModifierGroups_perm|]. split; [|split].
  - apply (Permutation_NoDup (Permutation_sym Hkeys)). exact Hnd.
  - unfold groups, sortClassesByModifierGroups, sortModifierGroups.
    eapply Permutation_Forall; [apply Permutation_sym, arraySort_perm|].
    apply Forall_map. eapply Forall_impl; [|exact Hok].
    intros e [Hne Hall]. unfold groupHoldsOwnClasses. simpl.
    pose proof (arraySort_perm localeCompare (snd e)) as Hp.
    fold (sortClassesInGroup localeCompare (snd e)) in Hp. split.
    + intros E. rewrite E in Hp. apply Permutation_nil in Hp. congruence.
    + apply (Permutation_Forall (Permutation_sym Hp)). exact Hall.
  - intros k. rewrite <- groupKeys_In. split; intros H.
    + apply (Permutation_in _ Hkeys), H.
    + apply (Permutation_in _ (Permutation_sym Hkeys)), H.
Qed.

(** X13.  Whatever the collation does, the groups that
    [sortClassesByModifierGroups] returns partition the input: together
    they hold the input classes, each as often as the input does; no two
    groups have the same modifier; no group is empty; every class stands in
    the group of the modifier it parses to; and there is one group for
    each modifier that occurs. *)
Theorem sortClassesByModifierGroups_partition (classes : list jsstring) :
  let groups := sortClassesByModifierGroups localeCompare classes in
  Permutation (flattenGroups groups) classes
  /\ NoDup (List.map ModifierGroup.modifier groups)
  /\ Forall groupHoldsOwnClasses groups
  /\ (forall k, In k (List.map ModifierGroup.modifier groups)
                <-> In k (List.map modifierOf classes)).
Proof. apply sortedGroups_partition. Qed.

Section Connected.

Hypothesis localeCompare_connected :
  forall a b, 0 < localeCompare a b -> localeCompare b a <= 0.

(** X14.  Provided the collation lets one of any two strings stand before
    the other, the canonical result is sorted: each group may stand before
    the next by [compareModifiers], and within each group each class may
    stand before the next by the collation. *)
Theorem sortClassesByModifierGroups_sorted (classes : list jsstring) :
  Sorted (fun g1 g2 =>
            compareModifiers localeCompare (ModifierGroup.modifier g1)
                             (ModifierGroup.modifier g2) <= 0)
         (sortClassesByModifierGroups localeCompare classes)
  /\ Forall (fun g => Sorted (fun a b => localeCompare a b <= 0)
                             (ModifierGroup.classes g))
            (sortClassesByModifierGroups localeCompare classes).
Proof.
  split.
  - unfold sortClassesByModifierGroups, sortModifierGroups.
    apply (arraySort_sorted
             (fun a b =>
                compareModifiers localeCompare (ModifierGroup.modifier a)
                                 (ModifierGroup.modifier b))).
    intros a b. apply compareModifiers_connected.
    exact localeCompare_connected.
  - destruct (sortClassesByModifierGroups_canonical localeCompare
                localeCompare_connected classes) as [Hcan _].
    eapply Forall_impl; [|exact Hcan].
    intros g [_ Hs]. exact Hs.
Qed.

End Connected.

End CanonicalResult.

Lemma sortClassesByModifierGroups_sorted_witness :
  Sorted (fun g1 g2 =>
            compareModifiers codeUnitCompare (ModifierGroup.modifier g1)
                             (ModifierGroup.modifier g2) <= 0)
         (sortClassesByModifierGroups codeUnitCompare
            [js "md:p-4"; js "hover:text-white"; js "hover:bg-blue"])
  /\ Forall (fun g => Sorted (fun a b => codeUnitCompare a b <= 0)
                             (ModifierGroup.classes g))
            (sortClassesByModifierGroups codeUnitCompare
               [js "md:p-4"; js "hover:text-white"; js "hover:bg-blue"]).
Proof.
  apply (sortClassesByModifierGroups_sorted codeUnitCompare
           codeUnitCompare_connected).
Defined.

(** ** class-sorter: the canonical result does not depend on the order of
    the input *)

Lemma Permutation_filter {A : Type} (f : A -> bool) (l l' : list A) :
  Permutation l l' -> Permutation (filter f l) (filter f l').
Proof.
  induction 1 as [|x l l' _ IH|x y l|l l' l'' _ IH1 _ IH2]; simpl.
  - constructor.
  - destruct (f x); [apply perm_skip|]; exact IH.
  - destruct (f x), (f y); try apply Permutation_refl. apply perm_swap.
  - eapply perm_trans; eassumption.
Qed.

Lemma arraySort_ext {A : Type} (cmp cmp' : A -> A -> Z) (l : list A) :
  (forall a b, cmp a b = cmp' a b) -> arraySort cmp l = arraySort cmp' l.
Proof.
  intros H. induction l as [|x l IH]; simpl; [reflexivity|].
  rewrite IH. generalize (arraySort cmp' l). intros s.
  induction s as [|y s IHs]; simpl; [reflexivity|].
  rewrite H, IHs. reflexivity.
Qed.

Section OrderIndependence.

Variable localeCompare : jsstring -> jsstring -> Z.

Hypothesis localeCompare_antisym :
  forall a b, Z.sgn (localeCompare a b) = - Z.sgn (localeCompare b a).
Hypothesis localeCompare_trans :
  forall a b c,
    localeCompare a b < 0 -> localeCompare b c < 0 -> localeCompare a c < 0.

(** The canonical result, written from the distinct modifiers. *)
Lemma sortClassesByModifierGroups_from_keys (classes : list jsstring) :
  sortClassesByModifierGroups localeCompare classes
  = List.map
      (fun k => ModifierGroup.mk
                  k (sortClassesInGroup localeCompare
                       (classesOfModifier k classes)))
      (arraySort (compareModifiers localeCompare)
                 (firstSeen (List.map modifierOf classes))).
Proof.
  unfold sortClassesByModifierGroups, sortModifierGroups.
  rewrite groupClassesByModifier_as_map, map_map. simpl.
  set (H := fun k => ModifierGroup.mk
                       k (sortClassesInGroup localeCompare
                            (classesOfModifier k classes))).
  rewrite <- (map_arraySort
                (fun a b =>
                   compareModifiers localeCompare (ModifierGroup.modifier a)
                                    (ModifierGroup.modifier b)) H).
  f_equal.
Qed.

(** X15.  Provided the collation is a consistent comparison (opposite
    signs, transitive strict order) and tells the classes of the input
    apart, and the texts of their modifiers, the canonical result depends
    on the classes only, not on their order: a second input that holds the
    same classes equally often gives the same groups, in the same order,
    with the same classes in the same order. *)
Theorem sortClassesByModifierGroups_order_independent
  (classes classes' : list jsstring) :
  separatedBy localeCompare classes ->
  separatedBy localeCompare
    (List.map (fun className => orEmpty (modifierOf className)) classes) ->
  Permutation classes classes' ->
  sortClassesByModifierGroups localeCompare classes
  = sortClassesByModifierGroups localeCompare classes'.
Proof.
  intros Hclasses Hmodifiers Hp.
  rewrite !sortClassesByModifierGroups_from_keys.
  destruct (groupClassesByModifier_state classes) as [(Hnd & _) Hk].
  destruct (groupClassesByModifier_state classes') as [(Hnd' & _) Hk'].
  assert (arraySort (compareModifiers localeCompare)
                    (firstSeen (List.map modifierOf classes))
          = arraySort (compareModifiers localeCompare)
                      (firstSeen (List.map modifierOf classes'))) as Hkeys.
  { apply arraySort_permutation_invariant.
    - apply compareModifiers_antisym, localeCompare_antisym.
    - intros a b c.
      apply (compareModifiers_trans localeCompare localeCompare_trans).
    - apply compareModifiers_separated.
      intros a b Ha Hb. apply Hmodifiers.
      + apply in_map_iff in Ha. destruct Ha as (k & <- & Hin).
        rewrite <- Hk in Hin. apply groupKeys_In, in_map_iff in Hin.
        destruct Hin as (c & <- & Hc).
        apply in_map_iff. exists c. split; [reflexivity|exact Hc].
      + apply in_map_iff in Hb. destruct Hb as (k & <- & Hin).
        rewrite <- Hk in Hin. apply groupKeys_In, in_map_iff in Hin.
        destruct Hin as (c & <- & Hc).
        apply in_map_iff. exists c. split; [reflexivity|exact Hc].
    - rewrite <- Hk, <- Hk'.
      apply NoDup_Permutation; [exact Hnd|exact Hnd'|].
      intros k. rewrite !groupKeys_In. split; intros H.
      + apply (Permutation_in _ (Permutation_map modifierOf Hp)), H.
      + apply (Permutation_in _
                 (Permutation_sym (Permutation_map modifierOf Hp))), H. }
  rewrite Hkeys. apply map_ext. intros k. f_equal.
  unfold sortClassesInGroup.
  apply (arraySort_permutation_invariant localeCompare localeCompare_antisym
           localeCompare_trans).
  - intros a b Ha Hb. apply Hclasses.
    + unfold classesOfModifier in Ha. apply filter_In in Ha. apply Ha.
    + unfold classesOfModifier in Hb. apply filter_In in Hb. apply Hb.
  - apply Permutation_filter, Hp.
Qed.

End OrderIndependence.

Lemma sortClassesByModifierGroups_order_independent_witness :
  sortClassesByModifierGroups canonicalCompare
    [js "md:p-4"; js "bg-red"; js "hover:bg-blue"]
  = sortClassesByModifierGroups canonicalCompare
      [js "bg-red"; js "md:p-4"; js "hover:bg-blue"].
Proof.
  apply (sortClassesByModifierGroups_order_independent canonicalCompare
           canonicalCompare_antisym canonicalCompare_trans).
  - apply canonicalCompare_separates_plain.
    repeat constructor; simpl; intuition discriminate.
  - apply canonicalCompare_separates_plain.
    repeat constructor; simpl; intuition discriminate.
  - apply perm_swap.
Defined.

(** ** fix-generator: the new string arguments *)


Lemma collectAllClasses_tokens (argumentInfo : list ArgumentInfo) :
  Forall isToken (collectAllClasses argumentInfo).
Proof. rewrite collectAllClasses_classNames. apply classNamesOf_tokens. Qed.

Section NewStringArguments.

Variable localeCompare : jsstring -> jsstring -> Z.

(** The groups of a list of tokens: no group is empty, every class is a
    token that parses to the modifier of its group. *)
Lemma groups_of_tokens (classes : list jsstring) :
  Forall isToken classes ->
  Forall (fun g => groupHoldsOwnClasses g
                   /\ Forall isToken (ModifierGroup.classes g))
         (sortClassesByModifierGroups localeCompare classes).
Proof.
  intros Htok.
  destruct (sortedGroups_partition localeCompare classes)
    as (Hp & _ & Hown & _).
  apply (Permutation_Forall (Permutation_sym Hp)) in Htok.
  apply Forall_flat_map_inv in Htok.
  rewrite Forall_forall in *. intros g Hg.
  split; [apply Hown|apply Htok]; exact Hg.
Qed.

Lemma sorted_group_tokens (g : ModifierGroup.t) :
  groupHoldsOwnClasses g -> Forall isToken (ModifierGroup.classes g) ->
  let sorted := sortClassesInGroup localeCompare (ModifierGroup.classes g) in
  sorted <> [] /\ Forall isToken sorted
  /\ Forall (fun c => modifierOf c = ModifierGroup.modifier g) sorted.
Proof.
  intros [Hne Hown] Htok sorted.
  assert (Permutation sorted (ModifierGroup.classes g)) as Hp
    by apply arraySort_perm.
  split; [|split].
  - intros E. rewrite E in Hp. apply Permutation_nil in Hp. congruence.
  - apply (Permutation_Forall (Permutation_sym Hp)), Htok.
  - apply (Permutation_Forall (Permutation_sym Hp)), Hown.
Qed.

(** Every group gives one new string argument: its sorted classes joined
    by single spaces. *)
Lemma newStringArgumentsOf_all (groups : list ModifierGroup.t) :
  Forall (fun g => groupHoldsOwnClasses g
                   /\ Forall isToken (ModifierGroup.classes g)) groups ->
  newStringArgumentsOf localeCompare groups
  = List.map (fun g => join [space]
                         (sortClassesInGroup localeCompare
                            (ModifierGroup.classes g)))
             groups.
Proof.
  unfold newStringArgumentsOf.
  induction 1 as [|g groups [Hown Htok] _ IH]; simpl; [reflexivity|].
  destruct (sorted_group_tokens g Hown Htok) as (Hsne & Hstok & _).
  destruct Hown as [Hne _].
  destruct (ModifierGroup.classes g) as [|c cs] eqn:Ec; [congruence|].
  set (sorted := sortClassesInGroup localeCompare (c :: cs)) in *.
  assert (truthy (join [space] sorted) = true) as Htr.
  { destruct sorted as [|t ts]; [congruence|].
    inversion Hstok as [|? ? Ht _]; subst.
    destruct (join_tokens_head t ts Ht) as (x & s' & -> & _). reflexivity. }
  rewrite Htr. simpl. rewrite IH. reflexivity.
Qed.





End NewStringArguments.

(** ** fix-generator: a second fix changes nothing *)

Section SecondFix.

Variable localeCompare : jsstring -> jsstring -> Z.

Hypothesis localeCompare_connected :
  forall a b, 0 < localeCompare a b -> localeCompare b a <= 0.



End SecondFix.

(** ** fix-generator: processClassesIntoArguments *)

Section ProcessClasses.

Variable localeCompare : jsstring -> jsstring -> Z.

Lemma processClasses_arguments (groups : list ModifierGroup.t) :
  flat_map
    (fun group =>
       let groupString :=
         join [space]
           (sortClassesInGroup localeCompare (ModifierGroup.classes group)) in
       if truthy groupString then [quoted groupString] else [])
    (filter
       (fun group => (0 <? List.length (ModifierGroup.classes group))%nat)
       groups)
  = List.map quoted (newStringArgumentsOf localeCompare groups).
Proof.
  unfold newStringArgumentsOf.
  induction groups as [|g groups IH]; simpl; [reflexivity|].
  destruct (ModifierGroup.classes g) as [|c cs] eqn:Ec; simpl.
  - exact IH.
  - rewrite Ec, map_app, <- IH.
    destruct (truthy (join [space] (sortClassesInGroup localeCompare (c :: cs))));
      reflexivity.
Qed.

(** On a string that holds a class, [processClassesIntoArguments] returns
    the quoted new string arguments of its classes. *)
Lemma processClassesIntoArguments_nonblank (classString : jsstring) :
  forallb isWhiteSpace classString = false ->
  processClassesIntoArguments localeCompare classString
  = Some (List.map quoted
            (newStringArgumentsOf localeCompare
               (sortClassesByModifierGroups localeCompare
                  (List.map full (parseClasses classString))))).
Proof.
  intros Eb.
  set (names := List.map full (parseClasses classString)).
  assert (names <> []) as Hne.
  { intros E. unfold names in E. apply map_eq_nil in E.
    apply parseClasses_empty_gives_blank in E. congruence. }
  pose proof (groups_of_tokens localeCompare names
                (parseClasses_tokens classString)) as Hgroups.
  set (groups := sortClassesByModifierGroups localeCompare names) in *.
  assert (Permutation (flattenGroups groups) names) as Hp
    by apply sortClassesByModifierGroups_perm.
  assert (groups <> []) as Hg.
  { intros E. rewrite E in Hp. simpl in Hp.
    apply Permutation_nil in Hp. congruence. }
  assert (newStringArgumentsOf localeCompare groups <> []) as Hn.
  { rewrite (newStringArgumentsOf_all localeCompare _ Hgroups).
    destruct groups; [congruence|discriminate]. }
  assert (negb (truthy classString)
          || (strLength (trim classString) =? 0) = false) as Hguard.
  { rewrite strLength_zero.
    destruct classString as [|c0 cs0]; [discriminate|].
    destruct (trim (c0 :: cs0)) eqn:Et; [|reflexivity].
    exfalso. apply Hne. unfold names, parseClasses. rewrite Et.
    reflexivity. }
  unfold processClassesIntoArguments. rewrite Hguard.
  fold names. fold groups. rewrite processClasses_arguments.
  rewrite length_map.
  destruct names as [|n0 ns]; [congruence|].
  destruct groups as [|g0 gs]; [congruence|].
  destruct (newStringArgumentsOf localeCompare (g0 :: gs)) as [|a0 as_];
    [congruence|].
  reflexivity.
Qed.

(** X18.  [processClassesIntoArguments] returns null exactly on the empty
    and whitespace-only strings.  Otherwise it returns one quoted argument
    for each modifier that occurs in the string, and the contents of the
    arguments, read back, hold the classes of the string, each as often as
    the string does. *)
Theorem processClassesIntoArguments_spec (classString : jsstring) :
  if forallb isWhiteSpace classString
  then processClassesIntoArguments localeCompare classString = None
  else
    exists contents,
      processClassesIntoArguments localeCompare classString
      = Some (List.map quoted contents)
      /\ List.length contents
         = List.length (firstSeen (modifiersIn classString))
      /\ Permutation (classNamesOf contents)
                     (List.map full (parseClasses classString)).
Proof.
  destruct (forallb isWhiteSpace classString) eqn:Eb.
  - unfold processClassesIntoArguments.
    rewrite (trim_blank _ Eb). simpl. rewrite orb_true_r. reflexivity.
  - set (names := List.map full (parseClasses classString)).
    assert (names <> []) as Hne.
    { intros E. unfold names in E. apply map_eq_nil in E.
      apply parseClasses_empty_gives_blank in E. congruence. }
    assert (Forall isToken names) as Htok by apply parseClasses_tokens.
    pose proof (groups_of_tokens localeCompare names Htok) as Hgroups.
    set (groups := sortClassesByModifierGroups localeCompare names) in *.
    exists (newStringArgumentsOf localeCompare groups).
    assert (List.length (newStringArgumentsOf localeCompare groups)
            = List.length (firstSeen (modifiersIn classString))) as Hlen.
    { rewrite (newStringArgumentsOf_all localeCompare _ Hgroups), length_map.
      rewrite <- modifierOf_full. fold names.
      destruct (groupClassesByModifier_state names) as [_ Hk].
      rewrite <- Hk, length_map.
      unfold groups, sortClassesByModifierGroups, sortModifierGroups.
      rewrite (Permutation_length (arraySort_perm _ _)), length_map.
      reflexivity. }
    assert (Permutation (flattenGroups groups) names) as Hp
      by apply sortClassesByModifierGroups_perm.
    split; [|split; [exact Hlen|]].
    + apply processClassesIntoArguments_nonblank, Eb.
    + eapply perm_trans; [|exact Hp].
      apply newStringArgumentsOf_classNames.
      eapply Forall_impl; [|exact Hgroups].
      intros g [[Hgne _] Hgtok]. split; assumption.
Qed.

End ProcessClasses.

(** ** ast-traverser: the argument information *)

Lemma extractArgumentInfoFrom_nth (args : list Node) :
  forall k i arg,
    nth_error args i = Some arg ->
    nth_error (extractArgumentInfoFrom k args) i
    = Some (argumentInfoOf (k + i) arg).
Proof.
  induction args as [|a args IH]; intros k i arg H.
  - destruct i; discriminate.
  - destruct i as [|i]; simpl in *.
    + inversion H. rewrite Nat.add_0_r. reflexivity.
    + rewrite (IH (S k) i arg H). f_equal. f_equal. lia.
Qed.

Lemma argumentInfoOf_fields (i : nat) (arg : Node) :
  index (argumentInfoOf i arg) = i
  /\ node (argumentInfoOf i arg) = arg
  /\ (isStringLiteral (argumentInfoOf i arg) = true
      <-> classString (argumentInfoOf i arg) <> None).
Proof.
  unfold argumentInfoOf.
  destruct (nodeType arg) as [[v|]|[|n]|]; simpl;
    repeat split; try congruence; try discriminate.
Qed.

Lemma extractStringArguments_infos (args : list Node) :
  forall k,
    flat_map
      (fun arg =>
         match nodeType arg with
         | Literal (Some value) => [value]
         | TemplateLiteral expressions =>
             if (expressions =? 0)%nat then [slice (sourceText arg) 1 (-1)]
             else []
         | _ => []
         end) args
    = flat_map (fun info => match classString info with
                            | Some s => [s]
                            | None => []
                            end)
               (extractArgumentInfoFrom k args).
Proof.
  induction args as [|a args IH]; intros k; simpl; [reflexivity|].
  rewrite (IH (S k)). f_equal. unfold argumentInfoOf.
  destruct (nodeType a) as [[v|]|[|n]|]; reflexivity.
Qed.

Lemma literalContents_filter (args : list Node) :
  forall k,
    literalContents (extractArgumentInfoFrom k args)
    = filter truthy
        (flat_map (fun info => match classString info with
                               | Some s => [s]
                               | None => []
                               end)
                  (extractArgumentInfoFrom k args)).
Proof.
  unfold literalContents.
  induction args as [|a args IH]; intros k; simpl; [reflexivity|].
  rewrite filter_app, <- (IH (S k)).
  unfold argumentInfoOf, hasClassString.
  destruct (nodeType a) as [[v|]|[|n]|]; simpl; try reflexivity.
  - destruct (truthy v); reflexivity.
  - destruct (truthy (slice (sourceText a) 1 (-1))); reflexivity.
Qed.

(** X19.  [extractArgumentInfo] describes the arguments one by one: the
    information at position [i] has index [i] and holds the [i]-th
    argument, and it has a class string exactly when it is marked as a
    string literal.  Its class strings are the strings that
    [extractStringArguments] returns, in the same order, and the strings
    that the rule checks are the non-empty ones among them. *)
Theorem extractArgumentInfo_describes_arguments (call : CallExpressionNode) :
  List.length (extractArgumentInfo call) = List.length (arguments call)
  /\ (forall i arg,
        nth_error (arguments call) i = Some arg ->
        exists info,
          nth_error (extractArgumentInfo call) i = Some info
          /\ index info = i /\ node info = arg
          /\ (isStringLiteral info = true <-> classString info <> None))
  /\ extractStringArguments call
     = flat_map (fun info => match classString info with
                             | Some s => [s]
                             | None => []
                             end)
                (extractArgumentInfo call)
  /\ literalContents (extractArgumentInfo call)
     = filter truthy (extractStringArguments call).
Proof.
  unfold extractArgumentInfo. split; [apply length_extractArgumentInfoFrom|].
  split; [|split].
  - intros i arg H. exists (argumentInfoOf i arg).
    split; [apply (extractArgumentInfoFrom_nth _ 0 i arg H)|].
    apply argumentInfoOf_fields.
  - apply extractStringArguments_infos.
  - unfold extractStringArguments.
    rewrite (extractStringArguments_infos _ 0). apply literalContents_filter.
Qed.

(** ** fix-generator: the checker accepts the fixes *)

Lemma scanQuoted_run (content : jsstring) :
  quoteFree content ->
  forall run rest,
    run ++ content <> [] ->
    scanQuoted (Some run) (content ++ dquote :: rest)
    = (run ++ content) :: scanQuoted None rest.
Proof.
  induction 1 as [|c content Hc _ IH]; intros run rest Hne; simpl.
  - rewrite app_nil_r in *. destruct run; [congruence|reflexivity].
  - rewrite Hc. rewrite IH by (rewrite <- app_assoc; exact Hne).
    rewrite <- app_assoc. reflexivity.
Qed.

Lemma scanQuoted_skip (s : jsstring) :
  quoteFree s -> forall rest, scanQuoted None (s ++ rest) = scanQuoted None rest.
Proof.
  induction 1 as [|c s Hc _ IH]; intros rest; simpl; [reflexivity|].
  rewrite Hc. apply IH.
Qed.

Lemma escapeQuotes_quoteFree (s : jsstring) :
  quoteFree s -> escapeQuotes s = s.
Proof.
  induction 1 as [|c s Hc _ IH]; simpl; [reflexivity|].
  unfold isQuote in Hc. apply orb_false_iff in Hc. destruct Hc as [Hd _].
  rewrite Hd, IH. reflexivity.
Qed.

(** The matches of the pattern in a rendered argument followed by more
    text. *)
Lemma scanQuoted_rendered (item : jsstring + jsstring) (rest : jsstring) :
  match item with
  | inl t => quoteFree t
  | inr c => quoteFree c /\ c <> []
  end ->
  scanQuoted None (renderArgument item ++ rest)
  = match item with inl _ => [] | inr c => [c] end ++ scanQuoted None rest.
Proof.
  destruct item as [t | c]; simpl.
  - intros Hq. apply scanQuoted_skip, Hq.
  - intros [Hq Hne]. unfold quoted. rewrite (escapeQuotes_quoteFree _ Hq).
    cbn [app scanQuoted]. replace (isQuote dquote) with true by reflexivity.
    rewrite <- app_assoc. cbn [app].
    rewrite (scanQuoted_run c Hq [] rest) by exact Hne. reflexivity.
Qed.

Lemma scanQuoted_joined (items : list (jsstring + jsstring)) :
  Forall (fun item => match item with
                      | inl t => quoteFree t
                      | inr c => quoteFree c /\ c <> []
                      end) items ->
  scanQuoted None (join (js ", ") (List.map renderArgument items))
  = flat_map (fun item => match item with inl _ => [] | inr c => [c] end)
             items.
Proof.
  induction 1 as [|item items Hitem Hitems IH]; [reflexivity|].
  destruct items as [|item' items].
  - simpl. rewrite <- (app_nil_r (renderArgument item)).
    rewrite (scanQuoted_rendered item [] Hitem). reflexivity.
  - change (join (js ", ") (List.map renderArgument (item :: item' :: items)))
      with (renderArgument item
            ++ js ", " ++ join (js ", ")
                               (List.map renderArgument (item' :: items))).
    rewrite (scanQuoted_rendered item _ Hitem).
    rewrite (scanQuoted_skip (js ", ")) by (repeat constructor).
    rewrite IH. reflexivity.
Qed.

Lemma verifyFixNonDestructive_same_sets (inputClasses : list jsstring)
  (outputCode : jsstring) :
  (forall className,
     In className (classNamesOf inputClasses)
     <-> In className (classNamesOf (classPatternMatches outputCode))) ->
  verifyFixNonDestructive inputClasses outputCode = true.
Proof.
  intros H. unfold verifyFixNonDestructive.
  assert (forallb
            (fun className =>
               setHas str_eqb
                 (addAllClasses [] (classPatternMatches outputCode)) className)
            (addAllClasses [] inputClasses) = true) as ->.
  { apply forallb_setHas. intros x Hx.
    apply In_addAllClasses in Hx. apply In_addAllClasses.
    destruct Hx as [[] | Hx]. right. apply H, Hx. }
  assert (forallb
            (fun className =>
               setHas str_eqb (addAllClasses [] inputClasses) className)
            (addAllClasses [] (classPatternMatches outputCode)) = true) as ->.
  { apply forallb_setHas. intros x Hx.
    apply In_addAllClasses in Hx. apply In_addAllClasses.
    destruct Hx as [[] | Hx]. right. apply H, Hx. }
  reflexivity.
Qed.

Section CheckerAcceptsFix.

Variable localeCompare : jsstring -> jsstring -> Z.

Lemma joined_quoteFree (tokens : list jsstring) :
  Forall quoteFree tokens -> quoteFree (join [space] tokens).
Proof.
  unfold quoteFree.
  induction 1 as [|t tokens Ht _ IH]; [constructor|].
  destruct tokens as [|t' tokens]; [exact Ht|].
  change (join [space] (t :: t' :: tokens))
    with (t ++ [space] ++ join [space] (t' :: tokens)).
  apply Forall_app. split; [exact Ht|].
  apply Forall_app. split; [repeat constructor|exact IH].
Qed.

(** X20.  [verifyFixNonDestructive] accepts the fixes of
    [generateFunctionCallFix]: when no class of the string literal
    arguments and no text of the other arguments holds a quote character,
    the checker applied to the contents of the literals and to the text of
    the fix returns true. *)
Theorem verifyFixNonDestructive_accepts_fix (node : CallExpressionNode)
  (argumentInfo : list ArgumentInfo) (preferredFunction : jsstring)
  (f : Fix) :
  generateFunctionCallFix localeCompare node argumentInfo preferredFunction
  = Some f ->
  Forall quoteFree (classNamesOf (literalContents argumentInfo)) ->
  Forall quoteFree (preservedTexts argumentInfo) ->
  verifyFixNonDestructive (literalContents argumentInfo) (text f) = true.
Proof.
  intros Hfix Hclasses Htexts.
  set (groups := sortClassesByModifierGroups localeCompare
                   (collectAllClasses argumentInfo)).
  set (news := newStringArgumentsOf localeCompare groups).
  assert (text f = join (js ", ") (buildAllArguments argumentInfo news))
    as Htext.
  { revert Hfix. unfold generateFunctionCallFix. fold groups. fold news.
    destruct (List.length (collectAllClasses argumentInfo) =? 0)%nat;
      [discriminate|].
    destruct (List.length groups =? 0)%nat; [discriminate|].
    destruct (List.length news =? 0)%nat; [discriminate|].
    destruct (arraysEqual _ _); [discriminate|].
    destruct (nth_error (arguments node) 0) as [n0|]; [|discriminate].
    destruct (option_map fst (range n0)) as [start|]; [|discriminate].
    destruct (nth_error (arguments node) _) as [n1|]; [|discriminate].
    destruct (option_map snd (range n1)) as [end_|]; [|discriminate].
    intros H. inversion H. reflexivity. }
  destruct (buildAllArguments_shape argumentInfo news)
    as (before & after & Hshape & Hba).
  pose proof (groups_of_tokens localeCompare _
                (collectAllClasses_tokens argumentInfo)) as Hgroups.
  fold groups in Hgroups.
  assert (Forall (fun c => quoteFree c /\ c <> []) news) as Hnews.
  { unfold news. rewrite (newStringArgumentsOf_all localeCompare _ Hgroups).
    apply Forall_map. apply Forall_forall. intros g Hg.
    rewrite Forall_forall in Hgroups. destruct (Hgroups g Hg) as [Hown Htok].
    destruct (sorted_group_tokens localeCompare g Hown Htok)
      as (Hsne & Hstok & _).
    split.
    - apply joined_quoteFree.
      apply Forall_forall. intros c Hc.
      rewrite Forall_forall in Hclasses. apply Hclasses.
      rewrite <- collectAllClasses_classNames.
      apply (Permutation_in _
               (sortClassesByModifierGroups_perm localeCompare
                  (collectAllClasses argumentInfo))).
      unfold flattenGroups. apply in_flat_map. exists g. split; [exact Hg|].
      apply (Permutation_in _ (arraySort_perm localeCompare _)), Hc.
    - destruct (sortClassesInGroup localeCompare (ModifierGroup.classes g))
        as [|t ts]; [congruence|].
      inversion Hstok as [|? ? Ht _]; subst.
      destruct (join_tokens_head t ts Ht) as (x & s' & -> & _). discriminate. }
  assert (classPatternMatches (text f) = news) as Hmatches.
  { rewrite Htext, Hshape. unfold classPatternMatches.
    replace (before ++ List.map quoted news ++ after)
      with (List.map renderArgument
              (List.map inl before ++ List.map inr news ++ List.map inl after))
      by (rewrite !map_app, !map_map; simpl; rewrite !map_id; reflexivity).
    rewrite scanQuoted_joined.
    - rewrite !flat_map_app.
      replace (flat_map _ (List.map inl before)) with (@nil jsstring)
        by (clear; induction before; simpl; auto).
      replace (flat_map _ (List.map inl after)) with (@nil jsstring)
        by (clear; induction after; simpl; auto).
      rewrite app_nil_r. simpl.
      clear. induction news as [|n news IH]; simpl; [reflexivity|].
      rewrite IH. reflexivity.
    - assert (Forall quoteFree (before ++ after)) as Hba'
        by (rewrite Hba; exact Htexts).
      apply Forall_app in Hba'. destruct Hba' as [Hb Ha].
      apply Forall_app. split; [apply Forall_map; exact Hb|].
      apply Forall_app. split; apply Forall_map; assumption. }
  apply verifyFixNonDestructive_same_sets. intros className.
  rewrite Hmatches.
  pose proof (newStringArguments_perm localeCompare argumentInfo) as Hp.
  fold groups in Hp. fold news in Hp. split; intros H.
  - apply (Permutation_in _ (Permutation_sym Hp)), H.
  - apply (Permutation_in _ Hp), H.
Qed.

End CheckerAcceptsFix.

Lemma verifyFixNonDestructive_accepts_fix_witness :
  exists f,
    generateFunctionCallFix codeUnitCompare
      (mkCall [stringLiteral (js "hover:bg-blue p-4") 3 22;
               identifier (js "isActive") 24 32])
      (extractArgumentInfo
         (mkCall [stringLiteral (js "hover:bg-blue p-4") 3 22;
                  identifier (js "isActive") 24 32]))
      (js "cn")
    = Some f
    /\ verifyFixNonDestructive
         (literalContents
            (extractArgumentInfo
               (mkCall [stringLiteral (js "hover:bg-blue p-4") 3 22;
                        identifier (js "isActive") 24 32])))
         (text f)
       = true.
Proof.
  eexists. split; [vm_compute; reflexivity|].
  apply (verifyFixNonDestructive_accepts_fix codeUnitCompare
           (mkCall [stringLiteral (js "hover:bg-blue p-4") 3 22;
                    identifier (js "isActive") 24 32])
           (extractArgumentInfo
              (mkCall [stringLiteral (js "hover:bg-blue p-4") 3 22;
                       identifier (js "isActive") 24 32]))
           (js "cn")).
  - vm_compute. reflexivity.
  - vm_compute. repeat constructor.
  - vm_compute. repeat constructor.
Defined.

(** ** fix-generator: the wrapping fixes *)

Lemma mixes_gives_multiple (classString : jsstring) :
  mixesBaseAndModifiers classString = true ->
  hasMultipleModifierGroups classString = true.
Proof.
  intros H. apply mixesBaseAndModifiers_spec in H.
  destruct H as [Hn (m & Hm)]. unfold modifiersIn in *.
  apply in_map_iff in Hn. destruct Hn as (p & Hp & Hpin).
  apply in_map_iff in Hm. destruct Hm as (q & Hq & Hqin).
  apply hasMultipleModifierGroups_spec. exists p, q.
  repeat split; try assumption. congruence.
Qed.

Lemma needsWrapping_multiple (classString : jsstring) :
  mixesBaseAndModifiers classString || hasMultipleModifierGroups classString
  = hasMultipleModifierGroups classString.
Proof.
  destruct (mixesBaseAndModifiers classString) eqn:Em; [|reflexivity].
  rewrite (mixes_gives_multiple _ Em). reflexivity.
Qed.

Lemma multiple_nonblank (classString : jsstring) :
  hasMultipleModifierGroups classString = true ->
  forallb isWhiteSpace classString = false.
Proof.
  intros H. destruct (forallb isWhiteSpace classString) eqn:Eb; [|reflexivity].
  unfold hasMultipleModifierGroups in H.
  rewrite (groupClassString_blank _ Eb) in H. discriminate.
Qed.

Section WrappingFixesProperties.

Variable localeCompare : jsstring -> jsstring -> Z.


Lemma generateVariantValueFix_eq (node : ObjectMember)
  (classString preferredFunction : jsstring) :
  generateVariantValueFix localeCompare node classString preferredFunction
  = if hasMultipleModifierGroups classString
    then option_map
           (fun r =>
              {| fixRange := r;
                 text := callCode preferredFunction
                           (List.map quoted
                              (newArgumentsFor localeCompare classString)) |})
           (wrappableRange node)
    else None.
Proof.
  unfold generateVariantValueFix. rewrite needsWrapping_multiple.
  destruct (hasMultipleModifierGroups classString) eqn:Em; [|reflexivity].
  cbn [negb]. cbv iota.
  rewrite (processClassesIntoArguments_nonblank localeCompare _
             (multiple_nonblank _ Em)).
  fold (newArgumentsFor localeCompare classString).
  destruct node as [key [v s [[a b]|]|n s [[a b]|]|els s p|ps s p|s p]|];
    reflexivity.
Qed.

Lemma generateJSXAttributeFix_eq (node : JSXAttribute)
  (classString preferredFunction : jsstring) :
  generateJSXAttributeFix localeCompare node classString preferredFunction
  = if hasMultipleModifierGroups classString
    then
      match attributeValue node with
      | Some value =>
          option_map
            (fun r =>
               {| fixRange := r;
                  text := js "{"
                          ++ callCode preferredFunction
                               (List.map quoted
                                  (newArgumentsFor localeCompare classString))
                          ++ js "}" |})
            (valueRange value)
      | None => None
      end
    else None.
Proof.
  unfold generateJSXAttributeFix. rewrite needsWrapping_multiple.
  destruct (hasMultipleModifierGroups classString) eqn:Em; [|reflexivity].
  cbn [negb]. cbv iota.
  rewrite (processClassesIntoArguments_nonblank localeCompare _
             (multiple_nonblank _ Em)).
  fold (newArgumentsFor localeCompare classString).
  destruct (attributeValue node) as [value|]; [|reflexivity].
  destruct (valueRange value) as [[a b]|]; reflexivity.
Qed.


(** X22.  [generateJSXAttributeFix] returns a fix exactly when the class
    string holds classes of more than one group and the attribute has a
    value with a range.  The fix replaces that range by the call of the
    preferred function on the new arguments of the string, between braces.
    The test for arguments that are null never fires, and the first of the
    two conditions for wrapping adds nothing to the second. *)
Theorem generateJSXAttributeFix_wraps (node : JSXAttribute)
  (classString preferredFunction : jsstring) :
  (mixesBaseAndModifiers classString = true ->
   hasMultipleModifierGroups classString = true)
  /\ generateJSXAttributeFix localeCompare node classString preferredFunction
     = if hasMultipleModifierGroups classString
       then
         match attributeValue node with
         | Some value =>
             option_map
               (fun r =>
                  {| fixRange := r;
                     text := js "{"
                             ++ callCode preferredFunction
                                  (List.map quoted
                                     (newArgumentsFor localeCompare
                                        classString))
                             ++ js "}" |})
               (valueRange value)
         | None => None
         end
       else None.
Proof.
  split; [apply mixes_gives_multiple|apply generateJSXAttributeFix_eq].
Qed.

(** X23.  The handler of JSX attributes reports an attribute exactly when
    its name is one of the class attributes and its value is a string that
    holds classes of more than one group.  The report is always the same:
    the message complexJSXAttribute, the preferred function as data, and
    the wrapping fix, which is null only when the value has no range. *)
Theorem handleJSXAttribute_reports (options : RuleOptions)
  (node : JSXAttribute) :
  match handleJSXAttribute localeCompare options node with
  | Some (message, data_, fix') =>
      message = complexJSXAttribute
      /\ data_ = [(js "function", preferredFunction options)]
      /\ exists name classString value,
           attributeName node = Some name
           /\ In name (classAttributes options)
           /\ attributeValue node = Some value
           /\ extractJSXAttributeValue node = Some classString
           /\ hasMultipleModifierGroups classString = true
           /\ fix'
              = option_map
                  (fun r =>
                     {| fixRange := r;
                        text := js "{"
                                ++ callCode (preferredFunction options)
                                     (List.map quoted
                                        (newArgumentsFor localeCompare
                                           classString))
                                ++ js "}" |})
                  (valueRange value)
  | None =>
      forall name classString,
        attributeName node = Some name ->
        In name (classAttributes options) ->
        extractJSXAttributeValue node = Some classString ->
        hasMultipleModifierGroups classString = false
  end.
Proof.
  unfold handleJSXAttribute.
  destruct (attributeName node) as [name|] eqn:En; [|discriminate].
  destruct (existsb (str_eqb name) (classAttributes options)) eqn:Ein.
  - assert (In name (classAttributes options)) as Hin.
    { apply existsb_exists in Ein. destruct Ein as (x & Hx & Heq).
      apply str_eqb_eq in Heq. subst x. exact Hx. }
    destruct (extractJSXAttributeValue node) as [classString|] eqn:Ev;
      [|discriminate].
    assert (exists value, attributeValue node = Some value) as [value Hval].
    { unfold extractJSXAttributeValue in Ev.
      destruct (attributeValue node) as [value|]; [|discriminate].
      exists value. reflexivity. }
    assert (hasMultipleModifierGroups classString = true ->
            generateJSXAttributeFix localeCompare node classString
              (preferredFunction options)
            = option_map
                (fun r =>
                   {| fixRange := r;
                      text := js "{"
                              ++ callCode (preferredFunction options)
                                   (List.map quoted
                                      (newArgumentsFor localeCompare
                                         classString))
                              ++ js "}" |})
                (valueRange value)) as Hfix.
    { intros Em. rewrite generateJSXAttributeFix_eq, Em, Hval. reflexivity. }
    destruct (truthy classString) eqn:Et.
    + destruct (mixesBaseAndModifiers classString) eqn:Emix.
      * pose proof (mixes_gives_multiple _ Emix) as Em.
        split; [reflexivity|]. split; [reflexivity|].
        exists name, classString, value. repeat split; auto.
      * destruct (hasMultipleModifierGroups classString) eqn:Em.
        -- split; [reflexivity|]. split; [reflexivity|].
           exists name, classString, value. repeat split; auto.
        -- intros name' cs' Hn' _ Hcs'. congruence.
    + intros name' cs' _ _ Hcs'. inversion Hcs'; subst cs'.
      destruct classString; [reflexivity|discriminate].
  - intros name' cs' Hn' Hin' _. exfalso. inversion Hn'; subst name'.
    assert (existsb (str_eqb name) (classAttributes options) = true) as E.
    { apply existsb_exists. exists name. split; [exact Hin'|].
      apply str_eqb_eq. reflexivity. }
    congruence.
Qed.

End WrappingFixesProperties.

(** ** ast-traverser and pattern-detector: the variant functions *)

Lemma isPropertyNamed_true (name : jsstring) (prop : ObjectMember) :
  isPropertyNamed name prop = true ->
  exists value, prop = Property (IdentifierKey name) value.
Proof.
  destruct prop as [[n|v|] value|]; simpl; try discriminate.
  intros H. apply str_eqb_eq in H. subst n. exists value. reflexivity.
Qed.

Lemma find_isPropertyNamed (name : jsstring) (properties : list ObjectMember)
  (prop : ObjectMember) :
  find (isPropertyNamed name) properties = Some prop ->
  exists value, prop = Property (IdentifierKey name) value /\ In prop properties.
Proof.
  intros H. apply find_some in H. destruct H as [Hin Hn].
  destruct (isPropertyNamed_true _ _ Hn) as [value ->].
  exists value. split; [reflexivity|exact Hin].
Qed.

Lemma hasProperty_find (properties : list ObjectMember) (name : jsstring) :
  hasProperty properties name = true ->
  exists value,
    find (isPropertyNamed name) properties
    = Some (Property (IdentifierKey name) value).
Proof.
  unfold hasProperty.
  induction properties as [|prop properties IH]; simpl; [discriminate|].
  destruct (isPropertyNamed name prop) eqn:E.
  - intros _. destruct (isPropertyNamed_true _ _ E) as [value ->].
    exists value. reflexivity.
  - exact IH.
Qed.

Lemma findVariantsObject_member (properties : list ObjectMember)
  (name : jsstring) (variantsProperties : list ObjectMember) :
  findVariantsObject properties name = Some variantsProperties ->
  exists s p,
    In (Property (IdentifierKey name) (ObjectExpression variantsProperties s p))
       properties.
Proof.
  induction properties as [|prop properties IH]; simpl; [discriminate|].
  destruct (isPropertyNamed name prop) eqn:E.
  - destruct (isPropertyNamed_true _ _ E) as [value ->].
    destruct value as [v s p|n s p|els s p|ps s p|s p];
      try (intros H; destruct (IH H) as (s' & p' & Hin);
           exists s', p'; right; exact Hin).
    intros H. inversion H; subst. exists s, p. left. reflexivity.
  - intros H. destruct (IH H) as (s' & p' & Hin).
    exists s', p'. right. exact Hin.
Qed.

Lemma splitOnFrom_absent (c : N) (s : jsstring) :
  includes s c = false -> forall cur, splitOnFrom c cur s = [cur ++ s].
Proof.
  unfold includes.
  induction s as [|x s IH]; simpl; intros H cur.
  - rewrite app_nil_r. reflexivity.
  - apply orb_false_iff in H. destruct H as [Hx Hs].
    rewrite N.eqb_sym, Hx, (IH Hs). rewrite <- app_assoc. reflexivity.
Qed.

(** X24.  [findVariantPropertyNode] finds properties two levels below the
    variants object only: when it returns a property, the path holds a
    dot, the first two parts of the path are the names of an object-valued
    property of the variants object and of a property of that object, and
    the property returned is the latter.  Keys that are not identifiers are
    never found, and for a path without a dot the result is null. *)
Theorem findVariantPropertyNode_two_levels (node : CallExpression)
  (path : jsstring) (pattern : FunctionPattern) :
  match findVariantPropertyNode node path pattern with
  | Some prop =>
      includes path dot = true
      /\ exists location arg variants variant variantName subVariantName rest
                value,
           variantsLocation pattern = Some location
           /\ nth_error (callArguments node) (variantsArgumentIndex location)
              = Some arg
           /\ memberOf arg (variantsPropertyName location) variants
           /\ split path dot = variantName :: subVariantName :: rest
           /\ memberOf variants variantName variant
           /\ memberOf variant subVariantName value
           /\ prop = Property (IdentifierKey subVariantName) value
  | None => True
  end.
Proof.
  unfold findVariantPropertyNode.
  destruct (variantsLocation pattern) as [location|]; [|exact I].
  destruct (nth_error (callArguments node) (variantsArgumentIndex location))
    as [arg|] eqn:Earg; [|exact I].
  destruct arg as [v s p|n s p|els s p|properties s p|s p]; try exact I.
  destruct (findVariantsObject properties (variantsPropertyName location))
    as [variantsProperties|] eqn:Ev; [|exact I].
  destruct (findVariantsObject_member _ _ _ Ev) as (vs & vp & Hvariants).
  destruct (split path dot) as [|variantName parts] eqn:Es; [exact I|].
  cbn [nth_error].
  destruct (find (isPropertyNamed variantName) variantsProperties)
    as [variantProperty|] eqn:Ef; [|exact I].
  destruct (find_isPropertyNamed _ _ _ Ef) as (variant & -> & Hvariant).
  destruct variant as [v' s' p'|n' s' p'|els' s' p'|subProperties s' p'|s' p'];
    try exact I.
  destruct parts as [|subVariantName rest]; [exact I|].
  destruct (find (isPropertyNamed subVariantName) subProperties)
    as [prop|] eqn:Esub; [|exact I].
  destruct (find_isPropertyNamed _ _ _ Esub) as (value & -> & Hvalue).
  split.
  - destruct (includes path dot) eqn:Ei; [reflexivity|].
    unfold split in Es. rewrite (splitOnFrom_absent _ _ Ei) in Es.
    discriminate.
  - exists location, (ObjectExpression properties s p),
      (ObjectExpression variantsProperties vs vp),
      (ObjectExpression subProperties s' p'),
      variantName, subVariantName, rest, value.
    repeat split; try reflexivity; assumption.
Qed.

(** The three patterns and what the variant functions find in them. *)
Lemma detectFunctionPattern_cases (node : CallExpression) :
  let pattern := detectFunctionPattern node in
  match patternType pattern with
  | cva_like =>
      exists firstArg secondArg rest variants,
        callArguments node = firstArg :: secondArg :: rest
        /\ isFirstArgValid firstArg = true
        /\ memberOf secondArg (js "variants") variants
        /\ findBaseNode node pattern = Some (ArgumentBase firstArg)
        /\ extractBaseClasses node pattern = baseClassesOf firstArg
  | tv_like =>
      exists firstArg rest baseValue variants,
        callArguments node = firstArg :: rest
        /\ isFirstArgValid firstArg = false
        /\ memberOf firstArg (js "base") baseValue
        /\ memberOf firstArg (js "variants") variants
        /\ findBaseNode node pattern
           = Some (PropertyBase (Property (IdentifierKey (js "base"))
                                          baseValue))
  | standard =>
      findBaseNode node pattern = None
      /\ extractBaseClasses node pattern = None
      /\ extractVariantValues node pattern = []
      /\ forall path, findVariantPropertyNode node path pattern = None
  end.
Proof.
  intros pattern. unfold pattern, detectFunctionPattern.
  destruct (callArguments node) as [|firstArg args] eqn:Eargs.
  - cbn. repeat split; reflexivity.
  - destruct (match args with
              | ObjectExpression properties _ _ :: _ =>
                  isFirstArgValid firstArg
                  && hasProperty properties (js "variants")
              | _ => false
              end) eqn:Ecva.
    + destruct args as [|secondArg rest]; [discriminate|].
      destruct secondArg as [v s p|n s p|els s p|properties s p|s p];
        try discriminate.
      apply andb_true_iff in Ecva. destruct Ecva as [Hvalid Hhas].
      destruct (hasProperty_find _ _ Hhas) as [variants Hfind].
      apply find_some in Hfind. destruct Hfind as [Hin _].
      cbn [patternType].
      exists firstArg, (ObjectExpression properties s p), rest, variants.
      unfold findBaseNode, extractBaseClasses. cbn. rewrite Eargs. cbn.
      repeat split; try reflexivity; assumption.
    + destruct (match firstArg with
                | ObjectExpression properties _ _ =>
                    hasProperty properties (js "base")
                    && hasProperty properties (js "variants")
                | _ => false
                end) eqn:Etv.
      * destruct firstArg as [v s p|n s p|els s p|properties s p|s p];
          try discriminate.
        apply andb_true_iff in Etv. destruct Etv as [Hbase Hvariants].
        destruct (hasProperty_find _ _ Hbase) as [baseValue Hfb].
        destruct (hasProperty_find _ _ Hvariants) as [variants Hfv].
        cbn [patternType].
        exists (ObjectExpression properties s p), args, baseValue, variants.
        split; [reflexivity|]. split; [reflexivity|].
        split; [apply find_some in Hfb; apply Hfb|].
        split; [apply find_some in Hfv; apply Hfv|].
        unfold findBaseNode. cbn. rewrite Eargs. cbn.
        unfold js in Hfb. cbn in Hfb. rewrite Hfb. reflexivity.
      * cbn. repeat split; reflexivity.
Qed.

(** X25.  The locations of a pattern that [detectFunctionPattern] returns
    exist in the call.  In a cva-like call the first argument is a literal,
    a template literal or an array, the second is an object with a
    property variants, and [findBaseNode] returns the first argument.  In a
    tv-like call the first argument is an object with properties base and
    variants, and [findBaseNode] returns a property base of it.  So on the
    calls that the rule hands to the variant handler [findBaseNode] never
    returns null; for a standard pattern all the variant functions return
    nothing. *)
Theorem detectFunctionPattern_locations (node : CallExpression) :
  let pattern := detectFunctionPattern node in
  match patternType pattern with
  | cva_like =>
      exists firstArg secondArg rest variants,
        callArguments node = firstArg :: secondArg :: rest
        /\ isFirstArgValid firstArg = true
        /\ memberOf secondArg (js "variants") variants
        /\ findBaseNode node pattern = Some (ArgumentBase firstArg)
        /\ extractBaseClasses node pattern = baseClassesOf firstArg
  | tv_like =>
      exists firstArg rest baseValue variants,
        callArguments node = firstArg :: rest
        /\ isFirstArgValid firstArg = false
        /\ memberOf firstArg (js "base") baseValue
        /\ memberOf firstArg (js "variants") variants
        /\ findBaseNode node pattern
           = Some (PropertyBase (Property (IdentifierKey (js "base"))
                                          baseValue))
  | standard =>
      findBaseNode node pattern = None
      /\ extractBaseClasses node pattern = None
      /\ extractVariantValues node pattern = []
      /\ forall path, findVariantPropertyNode node path pattern = None
  end.
Proof. apply detectFunctionPattern_cases. Qed.


(** What [findVariantPropertyNode] returns is a property with an
    identifier as key. *)
Lemma findVariantPropertyNode_found (node : CallExpression) (path : jsstring)
  (pattern : FunctionPattern) :
  match findVariantPropertyNode node path pattern with
  | Some prop => exists name value, prop = Property (IdentifierKey name) value
  | None => True
  end.
Proof.
  unfold findVariantPropertyNode.
  destruct (variantsLocation pattern) as [location|]; [|exact I].
  destruct (nth_error (callArguments node) (variantsArgumentIndex location))
    as [arg|]; [|exact I].
  destruct arg as [v s p|n s p|els s p|properties s p|s p]; try exact I.
  destruct (findVariantsObject properties (variantsPropertyName location))
    as [variantsProperties|]; [|exact I].
  destruct (nth_error (split path dot) 0) as [variantName|]; [|exact I].
  destruct (find (isPropertyNamed variantName) variantsProperties)
    as [[key variant|]|]; try exact I.
  destruct variant as [v' s' p'|n' s' p'|els' s' p'|subProperties s' p'|s' p'];
    try exact I.
  destruct (nth_error (split path dot) 1) as [subVariantName|]; [|exact I].
  destruct (find (isPropertyNamed subVariantName) subProperties)
    as [prop|] eqn:Esub; [|exact I].
  destruct (find_isPropertyNamed _ _ _ Esub) as (value & -> & _).
  exists subVariantName, value. reflexivity.
Qed.

(** Where the detected pattern gives base classes, it gives a base node
    with a value. *)
Lemma detected_base_node (node : CallExpression) (baseClasses : jsstring) :
  extractBaseClasses node (detectFunctionPattern node) = Some baseClasses ->
  exists baseNode valueNode,
    findBaseNode node (detectFunctionPattern node) = Some baseNode
    /\ baseValueNode baseNode = Some valueNode.
Proof.
  intros Hb. pose proof (detectFunctionPattern_cases node) as H.
  cbv zeta in H.
  destruct (patternType (detectFunctionPattern node)).
  - destruct H as (_ & Hnone & _). congruence.
  - destruct H as (firstArg & _ & _ & _ & _ & _ & _ & Hfind & _).
    exists (ArgumentBase firstArg), firstArg. split; [exact Hfind|reflexivity].
  - destruct H as (_ & _ & baseValue & _ & _ & _ & _ & _ & Hfind).
    exists (PropertyBase (Property (IdentifierKey (js "base")) baseValue)),
      baseValue.
    split; [exact Hfind|reflexivity].
Qed.

Lemma multiple_truthy (classString : jsstring) :
  hasMultipleModifierGroups classString = true -> truthy classString = true.
Proof.
  intros H. apply multiple_nonblank in H.
  destruct classString; [discriminate|reflexivity].
Qed.

(** ** rule: the reports of the variant handler *)

Section VariantReports.

Variable localeCompare : jsstring -> jsstring -> Z.

(** The text that the fix of the base classes writes is the call that the
    wrapping fixes write. *)
Lemma baseFix_eq (baseNode : BaseNode) (valueNode : Expression)
  (baseClasses preferredFunction : jsstring) :
  baseValueNode baseNode = Some valueNode ->
  baseFix localeCompare baseNode baseClasses preferredFunction
  = option_map
      (fun r =>
         {| fixRange := r;
            text := callCode preferredFunction
                      (List.map quoted
                         (newArgumentsFor localeCompare baseClasses)) |})
      (expressionRange valueNode).
Proof.
  intros Hv. unfold baseFix. rewrite Hv.
  unfold newArgumentsFor.
  rewrite (newStringArgumentsOf_all localeCompare _
             (groups_of_tokens localeCompare _
                (parseClasses_tokens baseClasses))).
  rewrite map_map.
  destruct (expressionRange valueNode) as [[a b]|]; reflexivity.
Qed.

Lemma variantReports_sound (node : CallExpression) (pattern : FunctionPattern)
  (preferredFunction : jsstring) (entries : VariantValues) :
  Forall
    (fun report =>
       reportMessageId report = complexProperty
       /\ reportData report = [(js "function", preferredFunction)]
       /\ exists path classString key value,
            In (path, classString) entries
            /\ hasMultipleModifierGroups classString = true
            /\ findVariantPropertyNode node path pattern
               = Some (Property key value)
            /\ reportedNode report = Some value
            /\ reportFix report
               = option_map
                   (fun r =>
                      {| fixRange := r;
                         text := callCode preferredFunction
                                   (List.map quoted
                                      (newArgumentsFor localeCompare
                                         classString)) |})
                   (wrappableRange (Property key value)))
    (variantReports localeCompare node pattern preferredFunction entries).
Proof.
  induction entries as [|[path classString] entries IH]; [constructor|].
  cbn [variantReports]. apply Forall_app. split.
  - rewrite needsWrapping_multiple.
    destruct (hasMultipleModifierGroups classString) eqn:Em; [|constructor].
    destruct (findVariantPropertyNode node path pattern) as [prop|] eqn:Ef;
      [|constructor].
    pose proof (findVariantPropertyNode_found node path pattern) as Hfound.
    rewrite Ef in Hfound. destruct Hfound as (name & value & ->).
    constructor; [|constructor]. cbn.
    split; [reflexivity|]. split; [reflexivity|].
    exists path, classString, (IdentifierKey name), value.
    split; [left; reflexivity|]. split; [exact Em|].
    split; [exact Ef|]. split; [reflexivity|].
    rewrite generateVariantValueFix_eq, Em. reflexivity.
  - eapply Forall_impl; [|exact IH].
    intros report (Hm & Hd & path' & cs' & key & value & Hin & Hrest).
    split; [exact Hm|]. split; [exact Hd|].
    exists path', cs', key, value. split; [right; exact Hin|exact Hrest].
Qed.

(** X26.  The reports of [handleVariantFunctionCall] on a call with its
    detected pattern.  The base classes are reported exactly when they hold
    classes of more than one group; the node to report is always found, the
    message is mixedBaseAndModifiers, and the fix writes the call of the
    preferred function on the new arguments of the base classes over the
    range of the value, if it has one.  The reports that follow have the
    message complexProperty; each is attached to the value of the property
    found for the path of a variant value that holds classes of more than
    one group, and its fix is the wrapping fix of that property. *)
Theorem handleVariantFunctionCall_reports (node : CallExpression)
  (preferredFunction : jsstring) :
  let pattern := detectFunctionPattern node in
  exists baseReports,
    handleVariantFunctionCall localeCompare node preferredFunction pattern
    = baseReports
      ++ variantReports localeCompare node pattern preferredFunction
           (extractVariantValues node pattern)
    /\ match extractBaseClasses node pattern with
       | Some baseClasses =>
           if hasMultipleModifierGroups baseClasses
           then
             exists baseNode valueNode,
               findBaseNode node pattern = Some baseNode
               /\ baseValueNode baseNode = Some valueNode
               /\ baseReports
                  = [{| reportedNode := Some valueNode;
                        reportMessageId := mixedBaseAndModifiers;
                        reportData := [(js "modifier", js "modifier classes")];
                        reportFix :=
                          option_map
                            (fun r =>
                               {| fixRange := r;
                                  text := callCode preferredFunction
                                            (List.map quoted
                                               (newArgumentsFor localeCompare
                                                  baseClasses)) |})
                            (expressionRange valueNode) |}]
           else baseReports = []
       | None => baseReports = []
       end
    /\ Forall
         (fun report =>
            reportMessageId report = complexProperty
            /\ reportData report = [(js "function", preferredFunction)]
            /\ exists path classString key value,
                 In (path, classString) (extractVariantValues node pattern)
                 /\ hasMultipleModifierGroups classString = true
                 /\ findVariantPropertyNode node path pattern
                    = Some (Property key value)
                 /\ reportedNode report = Some value
                 /\ reportFix report
                    = option_map
                        (fun r =>
                           {| fixRange := r;
                              text := callCode preferredFunction
                                        (List.map quoted
                                           (newArgumentsFor localeCompare
                                              classString)) |})
                        (wrappableRange (Property key value)))
         (variantReports localeCompare node pattern preferredFunction
            (extractVariantValues node pattern)).
Proof.
  intros pattern. unfold handleVariantFunctionCall.
  eexists. split; [reflexivity|]. split; [|apply variantReports_sound].
  destruct (extractBaseClasses node pattern) as [baseClasses|] eqn:Eb;
    [|reflexivity].
  rewrite needsWrapping_multiple.
  destruct (hasMultipleModifierGroups baseClasses) eqn:Em.
  - rewrite (multiple_truthy _ Em). cbn [andb].
    destruct (detected_base_node node baseClasses Eb)
      as (baseNode & valueNode & Hfind & Hvalue).
    fold pattern in Hfind. rewrite Hfind.
    exists baseNode, valueNode. split; [reflexivity|].
    split; [exact Hvalue|].
    rewrite Hvalue, (baseFix_eq _ _ _ _ Hvalue). reflexivity.
  - rewrite andb_false_r. reflexivity.
Qed.

End VariantReports.

(** ** ast-traverser: the variant values and their nodes *)

Lemma variantSet_fresh (variantValues : VariantValues) (path value : jsstring) :
  ~ In path (List.map fst variantValues) ->
  variantSet variantValues path value = variantValues ++ [(path, value)].
Proof.
  induction variantValues as [|[k v] rest IH]; simpl; intros Hn;
    [reflexivity|].
  destruct (str_eqb k path) eqn:E.
  - apply str_eqb_eq in E. exfalso. apply Hn. left. exact E.
  - rewrite IH; [reflexivity|]. intros Hin. apply Hn. right. exact Hin.
Qed.

Lemma splitOnFrom_two (c : N) (a b : jsstring) :
  includes a c = false -> includes b c = false ->
  forall cur, splitOnFrom c cur (a ++ c :: b) = [cur ++ a; b].
Proof.
  unfold includes.
  induction a as [|x a IH]; simpl; intros Ha Hb cur.
  - rewrite N.eqb_refl, app_nil_r.
    rewrite (splitOnFrom_absent c b Hb []). reflexivity.
  - apply orb_false_iff in Ha. destruct Ha as [Hx Ha].
    rewrite N.eqb_sym, Hx, (IH Ha Hb). rewrite <- app_assoc. reflexivity.
Qed.

(** A path is made of its two names in one way. *)
Lemma path_parts (a b a' b' : jsstring) :
  includes a dot = false -> includes a' dot = false ->
  a ++ [dot] ++ b = a' ++ [dot] ++ b' -> a = a' /\ b = b'.
Proof.
  unfold includes. revert a'.
  induction a as [|x a IH]; intros [|x' a'] Ha Ha' H;
    cbn [app existsb] in *.
  - inversion H. split; reflexivity.
  - inversion H as [[Hx Hrest]]. rewrite <- Hx, N.eqb_refl in Ha'.
    discriminate.
  - inversion H as [[Hx Hrest]]. rewrite Hx, N.eqb_refl in Ha.
    discriminate.
  - inversion H as [[Hx Hrest]]. subst x'.
    apply orb_false_iff in Ha. apply orb_false_iff in Ha'.
    destruct (IH a' (proj2 Ha) (proj2 Ha') Hrest) as [-> ->].
    split; reflexivity.
Qed.

Lemma variantEntries_paths (variantName : jsstring)
  (subProperties : list ObjectMember) (path : jsstring) :
  In path (List.map fst (variantEntries variantName subProperties)) ->
  exists name,
    path = variantName ++ [dot] ++ name
    /\ In (Some name) (List.map identifierName subProperties).
Proof.
  unfold variantEntries.
  induction subProperties as [|prop rest IH]; simpl; [intros []|].
  rewrite map_app, in_app_iff. intros [H | H].
  - destruct prop as [[name|v|] value|]; try destruct H.
    destruct (variantClassesOf value); [destruct H as [H|[]]|destruct H].
    exists name. split; [symmetry; exact H|left; reflexivity].
  - destruct (IH H) as (name & Hp & Hin). exists name.
    split; [exact Hp|right; exact Hin].
Qed.

(** The loop over the class strings of one variant appends their entries. *)
Lemma forEachProperty_variant
  (recur : Expression -> VariantValues -> jsstring -> VariantValues)
  (variantName : jsstring) (subProperties : list ObjectMember) :
  variantName <> [] ->
  plainObject isClassValue subProperties ->
  forall variantValues,
    (forall name,
       In (Some name) (List.map identifierName subProperties) ->
       ~ In (variantName ++ [dot] ++ name) (List.map fst variantValues)) ->
    forEachProperty recur subProperties variantValues variantName
    = variantValues ++ variantEntries variantName subProperties.
Proof.
  intros Hne [Hnd Hall].
  induction Hall as [|prop rest (name & value & -> & [Hname _] & Hvalue) _ IH];
    intros variantValues Hfresh.
  - simpl. rewrite app_nil_r. reflexivity.
  - simpl in Hnd. inversion Hnd as [|? ? Hnotin Hnd']; subst.
    unfold variantEntries. cbn [forEachProperty keyOf flat_map].
    fold (variantEntries variantName rest).
    assert (truthy name = true) as ->
      by (destruct name; [congruence|reflexivity]).
    cbn [negb]. cbv iota. unfold currentPathOf.
    assert (truthy variantName = true) as ->
      by (destruct variantName; [congruence|reflexivity]).
    assert (~ In (variantName ++ [dot] ++ name)
              (List.map fst variantValues)) as Hpath
      by (apply Hfresh; left; reflexivity).
    assert (forall classes,
              forEachProperty recur rest
                (variantSet variantValues (variantName ++ [dot] ++ name)
                            classes)
                variantName
              = variantValues
                ++ [(variantName ++ [dot] ++ name, classes)]
                ++ variantEntries variantName rest) as Hstep.
    { intros classes. rewrite (variantSet_fresh _ _ _ Hpath).
      rewrite (IH Hnd'); [rewrite <- app_assoc; reflexivity|].
      intros name' Hin'. rewrite map_app, in_app_iff. intros [H | H].
      - apply (Hfresh name'); [right; exact Hin'|exact H].
      - simpl in H. destruct H as [H|[]].
        apply app_inv_head in H. inversion H; subst name'.
        apply Hnotin. exact Hin'. }
    unfold isClassValue in Hvalue.
    destruct value as [[v|] s p|[|n] s p|els s p|ps s p|s p];
      simpl in Hvalue; try congruence; cbn [variantClassesOf]; apply Hstep.
Qed.

(** The loop over the variants of a variants object of the documented
    shape appends the entries of the variants, one variant after the
    other. *)
Lemma forEachProperty_variants (variantsProperties : list ObjectMember) :
  plainObject isVariantObject variantsProperties ->
  forall variantValues,
    (forall path,
       In path (List.map fst (variantsEntries variantsProperties)) ->
       ~ In path (List.map fst variantValues)) ->
    forEachProperty extractVariantObject variantsProperties variantValues []
    = variantValues ++ variantsEntries variantsProperties.
Proof.
  intros [Hnd Hall].
  induction Hall
    as [|prop rest (variantName & value & -> & [Hname Hdot] & Hvalue) Hrest IH];
    intros variantValues Hfresh.
  - simpl. rewrite app_nil_r. reflexivity.
  - simpl in Hnd. inversion Hnd as [|? ? Hnotin Hnd']; subst.
    destruct value as [v s p|n s p|els s p|subProperties s p|s p];
      try (exfalso; exact Hvalue).
    unfold variantsEntries. cbn [forEachProperty keyOf flat_map].
    fold (variantsEntries rest).
    assert (truthy variantName = true) as ->
      by (destruct variantName; [congruence|reflexivity]).
    cbn [negb truthy currentPathOf]. cbv iota.
    cbn [extractVariantObject].
    rewrite (forEachProperty_variant extractVariantObject variantName
               subProperties Hname Hvalue).
    + rewrite (IH Hnd'); [rewrite <- app_assoc; reflexivity|].
      intros path Hin. rewrite map_app, in_app_iff. intros [H | H].
      * apply (Hfresh path); [|exact H].
        unfold variantsEntries. cbn [flat_map].
        rewrite map_app, in_app_iff. right. exact Hin.
      * (* a path of a later variant is no path of this variant *)
        destruct (variantEntries_paths _ _ _ H) as (name & Hp & _).
        unfold variantsEntries in Hin.
        rewrite in_map_iff in Hin. destruct Hin as ([path' classes] & Hfst & Hin).
        simpl in Hfst. subst path'.
        apply in_flat_map in Hin. destruct Hin as (prop & Hprop & Hin).
        rewrite Forall_forall in Hrest.
        destruct (Hrest prop Hprop)
          as (variantName' & value' & -> & [_ Hdot'] & Hvalue').
        destruct value' as [v' s' p'|n' s' p'|els' s' p'|subs' s' p'|s' p'];
          try (exfalso; exact Hvalue').
        assert (In path
                  (List.map fst (variantEntries variantName' subs'))) as Hin'
          by (apply in_map_iff; exists (path, classes); split;
              [reflexivity|exact Hin]).
        destruct (variantEntries_paths _ _ _ Hin') as (name' & Hp' & _).
        rewrite Hp in Hp'.
        destruct (path_parts _ _ _ _ Hdot Hdot' Hp') as [<- _].
        apply Hnotin. apply in_map_iff.
        exists (Property (IdentifierKey variantName)
                         (ObjectExpression subs' s' p')).
        split; [reflexivity|exact Hprop].
    + intros name Hin. apply Hfresh.
      unfold variantsEntries. cbn [flat_map].
      rewrite map_app, in_app_iff. left.
      destruct Hvalue as [_ Hleaves]. rewrite Forall_forall in Hleaves.
      apply in_map_iff in Hin. destruct Hin as (prop & Hn & Hprop).
      destruct (Hleaves prop Hprop) as (name' & value' & -> & _ & Hclass).
      simpl in Hn. inversion Hn; subst name'.
      unfold isClassValue in Hclass.
      destruct (variantClassesOf value') as [classes|] eqn:Ec; [|congruence].
      apply in_map_iff. exists (variantName ++ [dot] ++ name, classes).
      split; [reflexivity|].
      unfold variantEntries. apply in_flat_map.
      exists (Property (IdentifierKey name) value').
      split; [exact Hprop|]. rewrite Ec. left. reflexivity.
Qed.

(** In an object whose keys are identifiers, each name once, [find] with a
    name returns the property of that name. *)
Lemma find_in_plainObject (P : Expression -> Prop)
  (properties : list ObjectMember) (name : jsstring) (value : Expression) :
  plainObject P properties ->
  In (Property (IdentifierKey name) value) properties ->
  find (isPropertyNamed name) properties
  = Some (Property (IdentifierKey name) value).
Proof.
  intros [Hnd _].
  induction properties as [|prop rest IH]; intros Hin; [destruct Hin|].
  simpl in Hnd. inversion Hnd as [|? ? Hnotin Hnd']; subst.
  cbn [find]. destruct Hin as [-> | Hin].
  - simpl. rewrite (proj2 (str_eqb_eq name name) eq_refl). reflexivity.
  - destruct (isPropertyNamed name prop) eqn:E.
    + exfalso. destruct (isPropertyNamed_true _ _ E) as [value' ->].
      apply Hnotin. apply in_map_iff.
      exists (Property (IdentifierKey name) value).
      split; [reflexivity|exact Hin].
    + apply IH; assumption.
Qed.

(** X27.  On a call whose variants object has the documented shape, the
    two passes over the variants agree.  Let the argument of the variants
    hold one property variants, an object in which every variant is an
    object of class strings, with identifiers as keys and no name twice.
    Then [extractVariantValues] returns one entry for each class string, in
    the order of the source, under the path made of the two names, and for
    each of these paths [findVariantPropertyNode] returns the property the
    entry was read from. *)
Theorem variant_values_are_found (node : CallExpression)
  (pattern : FunctionPattern) (location : VariantsLocation)
  (properties variantsProperties : list ObjectMember)
  (s vs : jsstring) (p vp : option (Z * Z)) :
  variantsLocation pattern = Some location ->
  nth_error (callArguments node) (variantsArgumentIndex location)
  = Some (ObjectExpression properties s p) ->
  filter (isPropertyNamed (variantsPropertyName location)) properties
  = [Property (IdentifierKey (variantsPropertyName location))
              (ObjectExpression variantsProperties vs vp)] ->
  plainObject isVariantObject variantsProperties ->
  extractVariantValues node pattern = variantsEntries variantsProperties
  /\ forall path classString,
       In (path, classString) (extractVariantValues node pattern) ->
       exists name value,
         findVariantPropertyNode node path pattern
         = Some (Property (IdentifierKey name) value)
         /\ variantClassesOf value = Some classString.
Proof.
  intros Hloc Harg Hone Hshape.
  assert (extractVariantProperties properties (variantsPropertyName location)
            []
          = extractVariantObject
              (ObjectExpression variantsProperties vs vp) [] []
          /\ findVariantsObject properties (variantsPropertyName location)
             = Some variantsProperties) as [Hextract Hfind].
  { clear Harg. revert Hone.
    generalize (@nil (jsstring * jsstring)) as variantValues.
    induction properties as [|prop rest IH]; intros variantValues Hone;
      [discriminate|].
    cbn [filter extractVariantProperties findVariantsObject] in *.
    destruct (isPropertyNamed (variantsPropertyName location) prop) eqn:E.
    - inversion Hone as [[Hprop Hrest]]. split; [|reflexivity].
      clear IH Hone E.
      induction rest as [|prop' rest' IH']; [reflexivity|].
      cbn [filter extractVariantProperties] in *.
      destruct (isPropertyNamed (variantsPropertyName location) prop');
        [discriminate|].
      apply IH', Hrest.
    - apply IH, Hone. }
  assert (extractVariantValues node pattern = variantsEntries variantsProperties)
    as Hvalues.
  { unfold extractVariantValues. rewrite Hloc, Harg, Hextract.
    cbn [extractVariantObject].
    rewrite (forEachProperty_variants _ Hshape []); [reflexivity|].
    intros path _ []. }
  split; [exact Hvalues|].
  intros path classString Hin. rewrite Hvalues in Hin.
  unfold variantsEntries in Hin. apply in_flat_map in Hin.
  destruct Hin as (variant & Hvariant & Hin).
  destruct Hshape as [Hnd Hall].
  pose proof Hall as Hall'. rewrite Forall_forall in Hall'.
  destruct (Hall' variant Hvariant)
    as (variantName & value & -> & [_ Hdot] & Hvalue).
  destruct value as [v' s' p'|n' s' p'|els' s' p'|subProperties s' p'|s' p'];
    try (exfalso; exact Hvalue).
  unfold variantEntries in Hin. apply in_flat_map in Hin.
  destruct Hin as (leaf & Hleaf & Hin).
  pose proof Hvalue as [_ Hleaves]. rewrite Forall_forall in Hleaves.
  destruct (Hleaves leaf Hleaf) as (name & value & -> & [_ Hdot'] & _).
  destruct (variantClassesOf value) as [classes|] eqn:Ec; [|destruct Hin].
  destruct Hin as [Hin|[]]. inversion Hin; subst path classes.
  exists name, value. split; [|exact Ec].
  unfold findVariantPropertyNode. rewrite Hloc, Harg, Hfind.
  unfold split. cbn [app].
  rewrite (splitOnFrom_two dot variantName name Hdot Hdot' []).
  cbn [nth_error app].
  rewrite (find_in_plainObject isVariantObject variantsProperties variantName
             _ (conj Hnd Hall) Hvariant).
  apply (find_in_plainObject isClassValue subProperties name _ Hvalue Hleaf).
Qed.

Lemma variant_values_are_found_witness :
  extractVariantValues cvaCall (detectFunctionPattern cvaCall)
  = [(js "size.sm", js "p-2 hover:p-3")].
Proof.
  refine (proj1 (variant_values_are_found cvaCall
                   (detectFunctionPattern cvaCall)
                   (mkVariantsLocation propertyLocation 1 (js "variants"))
                   cvaArgument sizeVariants [] [] None None
                   eq_refl eq_refl eq_refl _)).
  split.
  - repeat constructor; simpl; intuition discriminate.
  - repeat constructor.
    exists (js "size"),
      (ObjectExpression [Property (IdentifierKey (js "sm")) smValue] [] None).
    split; [reflexivity|]. split; [split; [discriminate|reflexivity]|].
    split.
    + repeat constructor; simpl; intuition discriminate.
    + repeat constructor. exists (js "sm"), smValue.
      split; [reflexivity|]. split; [split; [discriminate|reflexivity]|].
      discriminate.
Defined.

(** ** rule: the options *)

Lemma dropWhile_snoc (p : N -> bool) (s : jsstring) (x : N) :
  p x = false -> dropWhile p (s ++ [x]) = dropWhile p s ++ [x].
Proof.
  intros Hx. induction s as [|y s IH]; simpl.
  - rewrite Hx. reflexivity.
  - destruct (p y); [exact IH|reflexivity].
Qed.

Lemma dropWhile_idempotent (p : N -> bool) (s : jsstring) :
  dropWhile p (dropWhile p s) = dropWhile p s.
Proof.
  induction s as [|y s IH]; simpl; [reflexivity|].
  destruct (p y) eqn:E; [exact IH|]. simpl. rewrite E. reflexivity.
Qed.

Lemma dropWhile_head (p : N -> bool) (s : jsstring) :
  match dropWhile p s with
  | [] => True
  | x :: _ => p x = false
  end.
Proof.
  induction s as [|y s IH]; simpl; [exact I|].
  destruct (p y) eqn:E; [exact IH|exact E].
Qed.

Lemma trim_idempotent (s : jsstring) : trim (trim s) = trim s.
Proof.
  unfold trim, trimStart, trimEnd.
  pose proof (dropWhile_head isWhiteSpace s) as Hhead.
  destruct (dropWhile isWhiteSpace s) as [|x t]; [reflexivity|].
  cbn [rev]. rewrite (dropWhile_snoc _ _ _ Hhead), rev_app_distr.
  cbn [rev app dropWhile]. rewrite Hhead.
  replace (rev (x :: rev (dropWhile isWhiteSpace (rev t))))
    with (dropWhile isWhiteSpace (rev t) ++ [x])
    by (cbn [rev]; rewrite rev_involutive; reflexivity).
  rewrite (dropWhile_snoc _ _ _ Hhead), dropWhile_idempotent.
  rewrite rev_app_distr. reflexivity.
Qed.

Lemma notBlank_true (s : jsstring) : notBlank s = true <-> trim s <> [].
Proof.
  unfold notBlank. rewrite negb_true_iff. apply str_eqb_neq.
Qed.

(** X28.  The options that [create] hands to the handlers: the preferred
    function is never blank and has no whitespace at either end; every
    class function and every class attribute that is kept is not blank;
    and without options, or with none of the three properties, the options
    are the defaults. *)
Theorem validatedOptions_valid (rawOptions : option RawOptions) :
  let options := validatedOptions rawOptions in
  preferredFunction options <> []
  /\ trim (preferredFunction options) = preferredFunction options
  /\ Forall (fun fn => trim fn <> []) (classFunctions options)
  /\ Forall (fun attr => trim attr <> []) (classAttributes options)
  /\ match rawOptions with
     | None => options = DEFAULT_OPTIONS
     | Some raw =>
         rawClassFunctions raw = None -> rawPreferredFunction raw = None ->
         rawClassAttributes raw = None -> options = DEFAULT_OPTIONS
     end.
Proof.
  intros options.
  assert (forall l : list jsstring,
            Forall (fun s => trim s <> [])
                   (if (0 <? List.length l)%nat then filter notBlank l
                    else [js "cn"])) as Hfn.
  { intros l. destruct (0 <? List.length l)%nat.
    - apply Forall_forall. intros x Hx. apply filter_In in Hx.
      apply notBlank_true, Hx.
    - repeat constructor. discriminate. }
  assert (forall l : list jsstring,
            Forall (fun s => trim s <> [])
                   (if (0 <? List.length l)%nat then filter notBlank l
                    else [js "className"])) as Hattr.
  { intros l. destruct (0 <? List.length l)%nat.
    - apply Forall_forall. intros x Hx. apply filter_In in Hx.
      apply notBlank_true, Hx.
    - repeat constructor. discriminate. }
  assert (forall s : jsstring,
            (if notBlank s then trim s else js "cn") <> []
            /\ trim (if notBlank s then trim s else js "cn")
               = (if notBlank s then trim s else js "cn")) as Hpf.
  { intros s. destruct (notBlank s) eqn:E.
    - split; [apply notBlank_true, E|apply trim_idempotent].
    - split; [discriminate|reflexivity]. }
  unfold options, validatedOptions.
  destruct rawOptions as [[fns pf attrs]|]; cbn.
  - destruct (Hpf match pf with Some s => s | None => js "cn" end)
      as [Hne Htrim].
    split; [exact Hne|]. split; [exact Htrim|].
    split; [apply Hfn|]. split; [apply Hattr|].
    intros -> -> ->. reflexivity.
  - repeat split; try discriminate; repeat constructor; discriminate.
Qed.

(** ** ast-traverser: the variant values come from the source *)

(** Induction on an expression and the values of the properties inside
    it. *)
Lemma Expression_nested_ind (P : Expression -> Prop) :
  (forall value s p, P (LiteralExpression value s p)) ->
  (forall expressions s p, P (TemplateLiteralExpression expressions s p)) ->
  (forall elements s p, P (ArrayExpression elements s p)) ->
  (forall properties s p,
     Forall (fun prop => match prop with
                         | Property _ value => P value
                         | SpreadElement => True
                         end) properties ->
     P (ObjectExpression properties s p)) ->
  (forall s p, P (OtherExpression s p)) ->
  forall e, P e.
Proof.
  intros HL HT HA HO HX.
  fix IH 1. intros [value s p|n s p|els s p|properties s p|s p].
  - apply HL.
  - apply HT.
  - apply HA.
  - apply HO. induction properties as [|prop rest IHrest]; constructor.
    + destruct prop as [key value|]; [apply IH|exact I].
    + exact IHrest.
  - apply HX.
Qed.

Lemma variantSet_Forall (Q : jsstring * jsstring -> Prop)
  (variantValues : VariantValues) (path value : jsstring) :
  Forall Q variantValues -> Q (path, value) ->
  (forall path' value', Q (path', value') -> Q (path', value)) ->
  Forall Q (variantSet variantValues path value).
Proof.
  intros Hall Hnew Hsame.
  induction Hall as [|[k v] rest Hk Hrest IH]; simpl.
  - constructor; [exact Hnew|constructor].
  - destruct (str_eqb k path).
    + constructor; [apply (Hsame k v Hk)|assumption].
    + constructor; assumption.
Qed.

Lemma currentPathOf_nonempty (path key : jsstring) :
  key <> [] -> currentPathOf path key <> [].
Proof.
  intros Hk. unfold currentPathOf. destruct path as [|c path]; simpl.
  - exact Hk.
  - discriminate.
Qed.

(** Whatever the object, [extractVariantObject] adds entries with non-empty
    paths whose class strings are values inside the object. *)
Lemma extractVariantObject_sound (obj : Expression) :
  forall (Q : jsstring -> Prop) (variantValues : VariantValues)
         (path : jsstring),
    (forall classString, holdsClassString obj classString -> Q classString) ->
    Forall (fun entry => fst entry <> [] /\ Q (snd entry)) variantValues ->
    Forall (fun entry => fst entry <> [] /\ Q (snd entry))
           (extractVariantObject obj variantValues path).
Proof.
  induction obj as [value s p|n s p|els s p|properties s p Hprops|s p]
    using Expression_nested_ind;
    intros Q variantValues path HQ Hall; try exact Hall.
  cbn [extractVariantObject]. cbn [holdsClassString] in HQ.
  revert variantValues Hall HQ.
  induction Hprops as [|prop rest Hprop _ IHrest]; intros variantValues Hall HQ;
    [exact Hall|].
  cbn [forEachProperty].
  destruct prop as [key value|]; [|apply IHrest; [exact Hall|]].
  - assert (forall classString,
              existsMember
                (fun prop =>
                   match prop with
                   | Property _ value =>
                       variantClassesOf value = Some classString
                       \/ holdsClassString value classString
                   | SpreadElement => False
                   end) rest -> Q classString) as HQrest
      by (intros c Hc; apply HQ; right; exact Hc).
    destruct (keyOf key) as [name|]; [|apply IHrest; assumption].
    destruct (truthy name) eqn:Ename; cbn [negb]; cbv iota;
      [|apply IHrest; assumption].
    assert (currentPathOf path name <> []) as Hpath
      by (apply currentPathOf_nonempty; destruct name; discriminate).
    assert (forall classString,
              variantClassesOf value = Some classString ->
              Forall (fun entry => fst entry <> [] /\ Q (snd entry))
                     (variantSet variantValues (currentPathOf path name)
                                 classString)) as Hset.
    { intros c Hc. apply variantSet_Forall.
      - exact Hall.
      - split; [exact Hpath|]. apply HQ. left. left. exact Hc.
      - intros path' value' [Hp' _]. split; [exact Hp'|].
        apply HQ. left. left. exact Hc. }
    destruct value as [[v|] s' p'|[|n'] s' p'|els' s' p'|ps' s' p'|s' p'];
      try (apply IHrest; assumption).
    + apply IHrest; [|exact HQrest]. apply Hset. reflexivity.
    + apply IHrest; [|exact HQrest]. apply Hset. reflexivity.
    + apply IHrest; [|exact HQrest].
      apply Hprop; [|exact Hall].
      intros c Hc. apply HQ. left. right. exact Hc.
  - intros c Hc. apply HQ. right. exact Hc.
Qed.

Lemma extractVariantProperties_sound (Q : jsstring -> Prop)
  (propertyName : jsstring) (properties : list ObjectMember) :
  forall variantValues,
    (forall variants classString,
       In (Property (IdentifierKey propertyName) variants) properties ->
       holdsClassString variants classString -> Q classString) ->
    Forall (fun entry => fst entry <> [] /\ Q (snd entry)) variantValues ->
    Forall (fun entry => fst entry <> [] /\ Q (snd entry))
           (extractVariantProperties properties propertyName variantValues).
Proof.
  induction properties as [|prop rest IH]; intros variantValues HQ Hall;
    [exact Hall|].
  cbn [extractVariantProperties].
  assert (forall variants classString,
            In (Property (IdentifierKey propertyName) variants) rest ->
            holdsClassString variants classString -> Q classString) as HQrest
    by (intros variants c Hin Hc; apply (HQ variants c); [right|]; assumption).
  destruct (isPropertyNamed propertyName prop) eqn:E;
    [|apply IH; assumption].
  destruct (isPropertyNamed_true _ _ E) as [value ->].
  destruct value as [v' s' p'|n' s' p'|els' s' p'|ps' s' p'|s' p'];
    try (apply IH; assumption).
  apply IH; [exact HQrest|].
  apply extractVariantObject_sound; [|exact Hall].
  intros c Hc. apply (HQ (ObjectExpression ps' s' p') c); [left; reflexivity|].
  exact Hc.
Qed.

(** X29.  [extractVariantValues] invents nothing, whatever the shape of the
    call: every entry it returns has a non-empty path, and its class string
    is the value (a string literal, or a template literal without
    expressions) of a property somewhere inside an object-valued property
    variants of the argument that the pattern names. *)
Theorem extractVariantValues_from_source (node : CallExpression)
  (pattern : FunctionPattern) :
  Forall
    (fun entry =>
       fst entry <> []
       /\ exists location arg variants,
            variantsLocation pattern = Some location
            /\ nth_error (callArguments node) (variantsArgumentIndex location)
               = Some arg
            /\ memberOf arg (variantsPropertyName location) variants
            /\ holdsClassString variants (snd entry))
    (extractVariantValues node pattern).
Proof.
  unfold extractVariantValues.
  destruct (variantsLocation pattern) as [location|]; [|constructor].
  destruct (nth_error (callArguments node) (variantsArgumentIndex location))
    as [arg|] eqn:Earg; [|constructor].
  destruct arg as [v s p|n s p|els s p|properties s p|s p]; try constructor.
  set (Q := fun classString =>
              exists variants,
                In (Property (IdentifierKey (variantsPropertyName location))
                             variants) properties
                /\ holdsClassString variants classString).
  assert (Forall (fun entry => fst entry <> [] /\ Q (snd entry))
                 (extractVariantProperties properties
                    (variantsPropertyName location) [])) as H.
  { apply extractVariantProperties_sound; [|constructor].
    intros variants c Hin Hc. exists variants. split; assumption. }
  eapply Forall_impl; [|exact H].
  intros entry [Hpath (variants & Hin & Hholds)]. split; [exact Hpath|].
  exists location, (ObjectExpression properties s p), variants.
  repeat split; assumption.
Qed.

(** ** fix-generator: the call that a fix writes *)





Section WrittenCall.

Variable localeCompare : jsstring -> jsstring -> Z.






Hypothesis localeCompare_connected :
  forall a b, 0 < localeCompare a b -> localeCompare b a <= 0.


End WrittenCall.


